(** * Optimisation: fractional clique cover and Shannon-entropy LP models

    A shallow embedding of [optimisation.py]: the graph container the program
    works on, the subset space, the clique enumeration, the two LP models as
    they are handed to the solver, the post-processing of the solver's
    output, the graph loader and the menu loop. *)

From Stdlib Require Import ZArith QArith Qabs Qpower Lqa Lia String Ascii Znumtheory.
From Stdlib Require Import Floats.PrimFloat Floats.FloatOps Floats.SpecFloat.
From stdpp Require Import base option list sorting.

Local Open Scope Z_scope.

(** ** Python exceptions *)

Inductive exn : Set :=
| KeyError | ValueError | IndexError | IOError
| TypeError | AttributeError | OverflowError | ZeroDivisionError.

Inductive result (A : Type) : Type :=
| Ok (a : A)
| Raise (e : exn).
Arguments Ok {A} a.
Arguments Raise {A} e.

#[global] Instance result_ret : MRet result := fun A a => Ok a.
#[global] Instance result_bind : MBind result := fun A B f m =>
  match m with
  | Ok a => f a
  | Raise e => Raise e
  end.

(** [for x in l: acc = body(acc, x)], where the body may raise. *)
Fixpoint foldM {A B} (body : B -> A -> result B) (acc : B) (l : list A) : result B :=
  match l with
  | [] => Ok acc
  | x :: l' => acc' ← body acc x; foldM body acc' l'
  end.

(** A generator expression [f(x) for x in l] consumed to the end. *)
Fixpoint mapR {A B} (f : A -> result B) (l : list A) : result (list B) :=
  match l with
  | [] => Ok []
  | x :: l' => y ← f x; ys ← mapR f l'; mret (y :: ys)
  end.

(** ** Python dicts: insertion-ordered, one entry per key *)

Section Dict.
Context {K V : Type} `{EqDecision K}.

Definition dict := list (K * V).

Definition dict_keys (d : dict) : list K := d.*1.
Definition dict_values (d : dict) : list V := d.*2.

(** [d[k] = v]: an existing key keeps its place, a new one goes last. *)
Fixpoint dict_set (k : K) (v : V) (d : dict) : dict :=
  match d with
  | [] => [(k, v)]
  | (k', v') :: d' =>
      if decide (k' = k) then (k', v) :: d' else (k', v') :: dict_set k v d'
  end.

(** [d[k]], which raises [KeyError] for a missing key. *)
Fixpoint dict_get (k : K) (d : dict) : result V :=
  match d with
  | [] => Raise KeyError
  | (k', v') :: d' => if decide (k' = k) then Ok v' else dict_get k d'
  end.
End Dict.
Arguments dict : clear implicits.

(** A tuple of vertices: the key of a subset. *)
Definition Subset := list Z.

(** ** The graph container (networkx.Graph)

    The adjacency [_adj] is a dict of dicts; both levels keep insertion
    order.  Only the keys matter here (edges carry no data). *)

Module nx.
Definition Graph := dict Z (list Z).

Definition empty : Graph := [].

(** [G.nodes], in insertion order. *)
Definition nodes (G : Graph) : list Z := dict_keys G.

(** [G.neighbors(u)] / [G[u]], in insertion order. *)
Fixpoint neighbors (G : Graph) (u : Z) : list Z :=
  match G with
  | [] => []
  | (w, nb) :: G' => if decide (w = u) then nb else neighbors G' u
  end.

Definition add_node (u : Z) (G : Graph) : Graph :=
  if decide (u ∈ nodes G) then G else G ++ [(u, [])].

Definition add_nodes_from (us : list Z) (G : Graph) : Graph :=
  foldl (fun G u => add_node u G) G us.

(** [_adj[u][v] = {}] for a node [u] already present. *)
Fixpoint add_nbr (u v : Z) (G : Graph) : Graph :=
  match G with
  | [] => []
  | (w, nb) :: G' =>
      if decide (w = u)
      then (w, if decide (v ∈ nb) then nb else nb ++ [v]) :: G'
      else (w, nb) :: add_nbr u v G'
  end.

(** [G.add_edge(u, v)]: missing endpoints become nodes, [u] first. *)
Definition add_edge (u v : Z) (G : Graph) : Graph :=
  add_nbr v u (add_nbr u v (add_node v (add_node u G))).

(** What every graph built by [add_node] and [add_edge] satisfies. *)
Record wf (G : Graph) : Prop := {
  wf_nodes : NoDup (nodes G);
  wf_closed : forall u v, v ∈ neighbors G u -> v ∈ nodes G;
  wf_sym : forall u v, v ∈ neighbors G u -> u ∈ neighbors G v
}.

(** *** [enumerate_all_cliques] (networkx/algorithms/clique.py)

    [nbrs[u]] holds the neighbours of [u] that come after [u] in the
    iteration order of [G]; the queue starts with one entry per node,
    and every popped base is yielded before its extensions are queued. *)

(** The nodes that follow the first occurrence of [u] in [l]. *)
Fixpoint after (u : Z) (l : list Z) : list Z :=
  match l with
  | [] => []
  | w :: l' => if decide (w = u) then l' else after u l'
  end.

(** [sorted(nbrs[u], key=index.__getitem__)]: the members of the set
    [nbrs[u]] by increasing position in [G], that is the nodes after [u]
    that are neighbours of [u]. *)
Definition sorted_nbrs (G : Graph) (u : Z) : list Z :=
  filter (fun v => v ∈ neighbors G u) (after u (nodes G)).

(** [nbrs[u].__contains__] *)
Definition in_nbrs (G : Graph) (u v : Z) : Prop := v ∈ sorted_nbrs G u.

#[global] Instance in_nbrs_dec G u v : Decision (in_nbrs G u v).
Proof. unfold in_nbrs. apply _. Defined.

(** The entries one popped entry [(base, cnbrs)] appends to the queue:
    [for i, u in enumerate(cnbrs)], the pair of [base + [u]] and the
    members of [cnbrs[i+1:]] that are in [nbrs[u]]. *)
Fixpoint children (G : Graph) (base cnbrs : list Z) : list (list Z * list Z) :=
  match cnbrs with
  | [] => []
  | u :: rest =>
      (base ++ [u], filter (in_nbrs G u) rest) :: children G base rest
  end.

(** The [while queue] loop; [None] when the fuel runs out first. *)
Fixpoint bfs (G : Graph) (fuel : nat) (queue : list (list Z * list Z))
  : option (list (list Z)) :=
  match queue with
  | [] => Some []
  | (base, cnbrs) :: rest =>
      match fuel with
      | O => None
      | S fuel' => cons base <$> bfs G fuel' (rest ++ children G base cnbrs)
      end
  end.

(** An entry with [k] candidate neighbours yields at most [2^k] cliques. *)
Definition weight (queue : list (list Z * list Z)) : nat :=
  foldr (fun e acc => (2 ^ length e.2 + acc)%nat) O queue.

Definition initial_queue (G : Graph) : list (list Z * list Z) :=
  map (fun u => ([u], sorted_nbrs G u)) (nodes G).

Definition enumerate_all_cliques (G : Graph) : list (list Z) :=
  default [] (bfs G (weight (initial_queue G)) (initial_queue G)).

(** A set of vertices any two of which are adjacent. *)
Definition is_clique (G : Graph) (c : list Z) : Prop :=
  forall u v, u ∈ c -> v ∈ c -> u <> v -> v ∈ neighbors G u.

(** A list of vertices each of which is followed only by neighbours of
    its that come later in the iteration order of [G]. *)
Fixpoint later_clique (G : Graph) (c : list Z) : Prop :=
  match c with
  | [] => True
  | b :: rest => Forall (in_nbrs G b) rest /\ later_clique G rest
  end.

(** What the entries of a whole level append to the queue. *)
Definition next_level (G : Graph) (queue : list (list Z * list Z))
  : list (list Z * list Z) :=
  concat (map (fun e => children G e.1 e.2) queue).

(** What holds of every entry [(base, cnbrs)] of the queue: [cnbrs] lists,
    in the order of [G], the later neighbours common to all of [base]. *)
Definition entry_ok (G : Graph) (e : list Z * list Z) : Prop :=
  e.1 <> [] /\ later_clique G e.1 /\ e.2 `sublist_of` nodes G /\
  forall w, w ∈ e.2 <-> Forall (fun b => in_nbrs G b w) e.1.

(** What holds of the entries with bases of length [k], taken together. *)
Definition level_ok (G : Graph) (k : nat) (queue : list (list Z * list Z)) : Prop :=
  Forall (fun e => length e.1 = k /\ entry_ok G e) queue /\
  NoDup (map fst queue) /\
  forall c, length c = k -> later_clique G c -> c ⊆ nodes G -> c ∈ map fst queue.
End nx.

(** ** itertools.combinations *)

Module itertools.
(** The [r]-length subsequences of [pool], in lexicographic order of
    their positions. *)
Fixpoint combinations {A} (pool : list A) (r : nat) {struct pool} : list (list A) :=
  match r with
  | O => [[]]
  | S r' =>
      match pool with
      | [] => []
      | x :: pool' => map (cons x) (combinations pool' r') ++ combinations pool' r
      end
  end.
End itertools.

(** ** The subset space: the dict [xs] both functions start with *)

Definition subset_space (G : nx.Graph) : dict Subset Z :=
  foldl (fun xs L =>
           foldl (fun xs subset => dict_set subset 0 xs) xs
                 (itertools.combinations (nx.nodes G) L))
        [] (seq 0 (length (nx.nodes G) + 1)).

(** ** The LP modelling layer (pulp) *)

Module pulp.
Inductive LpSense : Set := LpMinimize | LpMaximize.
Inductive LpConstraintSense : Set := LpConstraintLE | LpConstraintEQ | LpConstraintGE.
Inductive LpStatus : Set :=
| LpStatusNotSolved | LpStatusOptimal | LpStatusInfeasible
| LpStatusUnbounded | LpStatusUndefined.

(** A continuous variable, named after the subset it belongs to. *)
Record LpVariable := {
  var_key : Subset;
  lowBound : option Z;
  upBound : option Z
}.

(** A linear combination of variables, term by term. *)
Definition LpAffineExpression := list (LpVariable * Z).

Record LpConstraint := {
  lhs : LpAffineExpression;
  csense : LpConstraintSense;
  rhs : Z
}.

Record LpProblem := {
  sense : LpSense;
  objective : LpAffineExpression;
  constraints : list LpConstraint
}.

(** [LpVariable.dicts("Xs", xs, lowBound=0, upBound=None)] *)
Definition LpVariable_dicts (xs : dict Subset Z) : dict Subset LpVariable :=
  map (fun kv => (kv.1, {| var_key := kv.1; lowBound := Some 0; upBound := None |})) xs.

Definition term (v : LpVariable) : LpAffineExpression := [(v, 1)].
Definition neg (e : LpAffineExpression) : LpAffineExpression :=
  map (fun t => (t.1, - t.2)) e.
Definition add (a b : LpAffineExpression) : LpAffineExpression := a ++ b.
Definition sub (a b : LpAffineExpression) : LpAffineExpression := a ++ neg b.
Definition lpSum (es : list LpAffineExpression) : LpAffineExpression := concat es.

(** [prob += constraint] *)
Definition add_constraint (prob : LpProblem) (c : LpConstraint) : LpProblem :=
  {| sense := sense prob; objective := objective prob;
     constraints := constraints prob ++ [c] |}.

(** *** What a model means: assignments of rationals to the variables *)

Definition assignment := Subset -> Q.

Definition eval (w : assignment) (e : LpAffineExpression) : Q :=
  foldr (fun t acc => (inject_Z t.2 * w (var_key t.1) + acc)%Q) 0%Q e.

Definition holds (w : assignment) (c : LpConstraint) : Prop :=
  match csense c with
  | LpConstraintLE => (eval w (lhs c) <= inject_Z (rhs c))%Q
  | LpConstraintEQ => (eval w (lhs c) == inject_Z (rhs c))%Q
  | LpConstraintGE => (inject_Z (rhs c) <= eval w (lhs c))%Q
  end.

Definition in_bounds (w : assignment) (v : LpVariable) : Prop :=
  match lowBound v with Some l => (inject_Z l <= w (var_key v))%Q | None => True end
  /\ match upBound v with Some u => (w (var_key v) <= inject_Z u)%Q | None => True end.

Definition feasible (prob : LpProblem) (vars : dict Subset LpVariable)
           (w : assignment) : Prop :=
  Forall (holds w) (constraints prob) /\ Forall (in_bounds w) (dict_values vars).

(** What the solver's status "optimal" stands for. *)
Definition optimal (prob : LpProblem) (vars : dict Subset LpVariable)
           (w : assignment) : Prop :=
  feasible prob vars w /\
  forall w', feasible prob vars w' ->
    match sense prob with
    | LpMinimize => (eval w (objective prob) <= eval w' (objective prob))%Q
    | LpMaximize => (eval w' (objective prob) <= eval w (objective prob))%Q
    end.
End pulp.
Import pulp.

(** [sorted(l)] / [l.sort()] on vertex labels. *)
Definition py_sorted (l : list Z) : list Z := merge_sort Z.le l.

(** [range(a, b)] *)
Definition range (a b : nat) : list nat := seq a (b - a).

(** [l[i]] for [i >= 0]. *)
Definition py_index {A} (l : list A) (i : nat) : result A :=
  match l !! i with
  | Some x => Ok x
  | None => Raise IndexError
  end.

(** ** The fractional clique cover model (up to [prob.solve()]) *)

Definition fractional_clique_cover_model (G : nx.Graph)
  : result (LpProblem * dict Subset LpVariable) :=
  let xs := subset_space G in
  let K := nx.enumerate_all_cliques G in
  let lp_xs := LpVariable_dicts xs in
  let prob := {| sense := LpMinimize;
                 objective := lpSum (map term (dict_values lp_xs));
                 constraints := [] |} in
  prob ← foldM (fun prob vertex =>
            let cliques_containing_v := filter (fun clique => vertex ∈ clique) K in
            vars ← mapR (fun x => dict_get x lp_xs) cliques_containing_v;
            mret (add_constraint prob
                    {| lhs := lpSum (map term vars); csense := LpConstraintGE; rhs := 1 |}))
         prob (nx.nodes G);
  mret (prob, lp_xs).

(** ** The Shannon entropy model (up to [prob.solve()]) *)

(** Constraint 3 for one vertex. *)
Definition neighbourhood_constraint (G : nx.Graph) (lp_xs : dict Subset LpVariable)
           (vertex : Z) : result LpConstraint :=
  let N_v := py_sorted (nx.neighbors G vertex) in
  let N_v_u_v := py_sorted (nx.neighbors G vertex ++ [vertex]) in
  a ← dict_get N_v_u_v lp_xs;
  b ← dict_get N_v lp_xs;
  mret {| lhs := lpSum [sub (term a) (term b)]; csense := LpConstraintEQ; rhs := 0 |}.

(** The body of the inner loop of constraints 4 and 5, for one [S], [T]. *)
Definition pair_constraints (lp_xs : dict Subset LpVariable) (prob : LpProblem)
           (S T : Subset) : result LpProblem :=
  prob ← (if decide (S ⊆ T)
          then xT ← dict_get T lp_xs;
               xS ← dict_get S lp_xs;
               mret (add_constraint prob
                       {| lhs := lpSum [sub (term xT) (term xS)];
                          csense := LpConstraintGE; rhs := 0 |})
          else mret prob);
  if decide (~ S ⊆ T)
  then let X_s_u_t := py_sorted (remove_dups (S ++ T)) in
       let X_s_n_t := py_sorted (filter (fun val => val ∈ T) S) in
       xS ← dict_get S lp_xs;
       xT ← dict_get T lp_xs;
       xU ← dict_get X_s_u_t lp_xs;
       xI ← dict_get X_s_n_t lp_xs;
       mret (add_constraint prob
               {| lhs := lpSum [sub (sub (add (term xS) (term xT)) (term xU)) (term xI)];
                  csense := LpConstraintGE; rhs := 0 |})
  else mret prob.

(** The two nested loops over positions in [xs]. *)
Definition pairwise_loop (xs : dict Subset Z) (lp_xs : dict Subset LpVariable)
           (prob : LpProblem) : result LpProblem :=
  foldM (fun prob x =>
           S ← py_index (dict_keys xs) x;
           foldM (fun prob y =>
                    T ← py_index (dict_keys xs) y;
                    pair_constraints lp_xs prob S T)
                 prob (range (x + 1) (length xs - 1)))
        prob (range 0 (length xs - 2)).

Definition shannon_entropy_model (G : nx.Graph)
  : result (LpProblem * dict Subset LpVariable) :=
  let xs := subset_space G in
  let lp_xs := LpVariable_dicts xs in
  k_last ← match last (dict_keys xs) with
            | Some k => Ok k
            | None => Raise IndexError
            end;
  x_last ← dict_get k_last lp_xs;
  let prob := {| sense := LpMaximize; objective := lpSum [term x_last];
                 constraints := [] |} in
  x_empty ← dict_get [] lp_xs;
  let prob := add_constraint prob
                {| lhs := term x_empty; csense := LpConstraintEQ; rhs := 0 |} in
  let prob := foldl (fun prob item =>
                       if decide (length item.1 = 1%nat)
                       then add_constraint prob
                              {| lhs := term item.2; csense := LpConstraintLE; rhs := 1 |}
                       else prob)
                    prob lp_xs in
  prob ← foldM (fun prob vertex =>
                  c ← neighbourhood_constraint G lp_xs vertex;
                  mret (add_constraint prob c))
               prob (nx.nodes G);
  prob ← pairwise_loop xs lp_xs prob;
  mret (prob, lp_xs).


(** ** Exact rationals (fractions.Fraction of the standard library) *)

Module fractions.
Record Fraction := { numerator : Z; denominator : Z }.

(** [Fraction(n, d)]: the value [n/d] in lowest terms, denominator positive. *)
Definition make (n d : Z) : result Fraction :=
  if decide (d = 0) then Raise ZeroDivisionError
  else
    let g := Z.gcd n d in
    let g := if decide (d < 0) then - g else g in
    Ok {| numerator := n / g; denominator := d / g |}.

(** [Fraction.from_float(f)]: the exact value of a finite float, from
    [f.as_integer_ratio()]. *)
Definition from_float (f : float) : result Fraction :=
  match Prim2SF f with
  | S754_zero _ => make 0 1
  | S754_infinity _ => Raise OverflowError
  | S754_nan => Raise ValueError
  | S754_finite s m e =>
      let n := if s then Z.neg m else Z.pos m in
      if decide (0 <= e) then make (n * 2 ^ e) 1 else make n (2 ^ (- e))
  end.

(** [a - b] *)
Definition sub (a b : Fraction) : Fraction :=
  let na := numerator a in let da := denominator a in
  let nb := numerator b in let db := denominator b in
  let g := Z.gcd da db in
  if decide (g = 1)
  then {| numerator := na * db - da * nb; denominator := da * db |}
  else
    let s := da / g in
    let t := na * (db / g) - nb * s in
    let g2 := Z.gcd t g in
    if decide (g2 = 1)
    then {| numerator := t; denominator := s * db |}
    else {| numerator := t / g2; denominator := s * (db / g2) |}.

(** [abs(a)] *)
Definition abs (a : Fraction) : Fraction :=
  {| numerator := Z.abs (numerator a); denominator := denominator a |}.

(** [a <= b] *)
Definition le (a b : Fraction) : Prop :=
  numerator a * denominator b <= denominator a * numerator b.

#[global] Instance le_dec a b : Decision (le a b).
Proof. unfold le. apply _. Defined.

(** The state of the continued-fraction loop: [p0, q0, p1, q1, n, d]. *)
Record cf_state := { p0 : Z; q0 : Z; p1 : Z; q1 : Z; cf_n : Z; cf_d : Z }.

(** The [while True] loop of [limit_denominator]; the state at [break].
    [None] when the fuel runs out first. *)
Fixpoint cf_loop (fuel : nat) (max_denominator : Z) (st : cf_state)
  : option (result cf_state) :=
  match fuel with
  | O => None
  | S fuel' =>
      if decide (cf_d st = 0) then Some (Raise ZeroDivisionError)
      else
        let a := cf_n st / cf_d st in
        let q2 := q0 st + a * q1 st in
        if decide (q2 > max_denominator) then Some (Ok st)
        else cf_loop fuel' max_denominator
               {| p0 := p1 st; q0 := q1 st; p1 := p0 st + a * p1 st; q1 := q2;
                  cf_n := cf_d st; cf_d := cf_n st - a * cf_d st |}
  end.

(** [self.limit_denominator(max_denominator)] *)
Definition limit_denominator (self : Fraction) (max_denominator : Z) : result Fraction :=
  if decide (max_denominator < 1) then Raise ValueError
  else if decide (denominator self <= max_denominator) then Ok self
  else
    match cf_loop (Z.to_nat max_denominator + 2) max_denominator
            {| p0 := 0; q0 := 1; p1 := 1; q1 := 0;
               cf_n := numerator self; cf_d := denominator self |} with
    | None => Raise OverflowError
    | Some r =>
        st ← r;
        if decide (q1 st = 0) then Raise ZeroDivisionError
        else
          let k := (max_denominator - q0 st) / q1 st in
          bound1 ← make (p0 st + k * p1 st) (q0 st + k * q1 st);
          bound2 ← make (p1 st) (q1 st);
          if decide (le (abs (sub bound2 self)) (abs (sub bound1 self)))
          then Ok bound2
          else Ok bound1
    end.

(** The rational a [Fraction] stands for. *)
Definition to_Q (a : Fraction) : Q :=
  numerator a # Z.to_pos (denominator a).

(** What [Fraction] values satisfy: lowest terms, positive denominator. *)
Definition valid (a : Fraction) : Prop :=
  0 < denominator a /\ Z.gcd (numerator a) (denominator a) = 1.
End fractions.
Import fractions.

(** ** Solving and reporting *)

(** What [prob.solve()] leaves behind: the status and each variable's
    [varValue] ([None] for a variable the solver did not set). *)
Record solution := {
  status : LpStatus;
  varValue : Subset -> option float
}.

(** What the code does with the solver's output, in order. *)
Inductive event : Type :=
| EvPrintStatus (s : LpStatus)
| EvVarValue (key : Subset)
| EvRational (f : float)
| EvPrintResult (x : Fraction).

(** A computation that leaves a trace of events and may raise. *)
Record io (A : Type) := IO { trace : list event; outcome : result A }.
Arguments IO {A} trace outcome.
Arguments trace {A} i.
Arguments outcome {A} i.

#[global] Instance io_ret : MRet io := fun A a => IO [] (Ok a).
#[global] Instance io_bind : MBind io := fun A B f m =>
  match outcome m with
  | Ok a => IO (trace m ++ trace (f a)) (outcome (f a))
  | Raise e => IO (trace m) (Raise e)
  end.

Definition emit (e : event) : io unit := IO [e] (Ok tt).
Definition lift {A} (r : result A) : io A := IO [] r.

Fixpoint io_foldM {A B} (body : B -> A -> io B) (acc : B) (l : list A) : io B :=
  match l with
  | [] => mret acc
  | x :: l' => acc' ← body acc x; io_foldM body acc' l'
  end.

(** [v.varValue], where arithmetic on [None] is a [TypeError]. *)
Definition read_value (sol : solution) (key : Subset) : io float :=
  _ ← emit (EvVarValue key);
  match varValue sol key with
  | Some val => mret val
  | None => lift (Raise TypeError)
  end.

(** [Fraction.from_float(x).limit_denominator(100)] *)
Definition rationalise (x : float) : io Fraction :=
  _ ← emit (EvRational x);
  lift (q ← from_float x; limit_denominator q 100).

(** The statements of [fractional_clique_cover] after [prob.solve()]. *)
Definition fcc_report (lp_xs : dict Subset LpVariable) (sol : solution) : io Fraction :=
  _ ← emit (EvPrintStatus (status sol));
  total ← io_foldM (fun total item =>
                      val ← read_value sol item.1;
                      mret (total + val)%float)
                   0%float lp_xs;
  total ← rationalise total;
  _ ← emit (EvPrintResult total);
  mret total.

(** The statements of [shannon_entropy] after [prob.solve()]. *)
Definition entropy_report (lp_xs : dict Subset LpVariable) (sol : solution) : io Fraction :=
  _ ← emit (EvPrintStatus (status sol));
  k_last ← lift (match last (dict_keys lp_xs) with
                 | Some k => Ok k
                 | None => Raise IndexError
                 end);
  _ ← lift (dict_get k_last lp_xs);
  val ← read_value sol k_last;
  val ← rationalise val;
  _ ← emit (EvPrintResult val);
  mret val.

(** The value of the variable [G] in [main]: a graph or [None]. *)
Inductive pyobj : Type :=
| PyNone
| PyGraph (G : nx.Graph).

Section Solver.
(** The external LP solver behind [prob.solve()]. *)
Variable solve : LpProblem -> solution.

(** [G.nodes] on [None] raises [AttributeError] in the first statement. *)
Definition fractional_clique_cover (G : pyobj) : io (Fraction * solution) :=
  match G with
  | PyNone => lift (Raise AttributeError)
  | PyGraph g =>
      m ← lift (fractional_clique_cover_model g);
      let sol := solve m.1 in
      total ← fcc_report m.2 sol;
      mret (total, sol)
  end.

Definition shannon_entropy (G : pyobj) : io (Fraction * solution) :=
  match G with
  | PyNone => lift (Raise AttributeError)
  | PyGraph g =>
      m ← lift (shannon_entropy_model g);
      let sol := solve m.1 in
      val ← entropy_report m.2 sol;
      mret (val, sol)
  end.

Definition calculate (G : pyobj) : io (Fraction * Fraction * solution * solution) :=
  a ← fractional_clique_cover G;
  b ← shannon_entropy G;
  mret (a.1, b.1, a.2, b.2).
End Solver.

(** ** Text of a graph file

    A text is the list of its characters as [open] and [input] decode
    them, each character given by its code point (U+0000 to U+10FFFF). *)

Module text.
Local Open Scope N_scope.

(** The code point of an ASCII character. *)
Definition code (c : ascii) : N := N_of_ascii c.

(** The text of a string literal written with ASCII characters. *)
Definition of_string (s : string) : list N := map code (list_ascii_of_string s).

(** [file.readline()] on a file opened in text mode: the text up to the
    first line end, and what is left of the file.  A line ends at a line
    feed (10), at a carriage return (13), or at the two in a row, and the
    line end is handed over as one line feed (universal newlines). *)
Fixpoint readline (s : list N) : list N * list N :=
  match s with
  | [] => ([], [])
  | c :: s' =>
      if c =? 10 then ([10], s')
      else if c =? 13
      then ([10], match s' with
                  | c' :: s'' => if c' =? 10 then s'' else s'
                  | [] => []
                  end)
      else let r := readline s' in (c :: r.1, r.2)
  end.

(** [s.split(sep)] for a one-character separator. *)
Fixpoint split (sep : N) (s : list N) : list (list N) :=
  match s with
  | [] => [[]]
  | c :: s' =>
      if c =? sep then [] :: split sep s'
      else match split sep s' with
           | [] => [[c]]
           | h :: t => (c :: h) :: t
           end
  end.

(** The white space [int] skips at both ends of the numeral
    ([Py_ISSPACE]): tab, line feed, vertical tab, form feed, carriage
    return and space. *)
Definition is_space (c : N) : bool :=
  ((9 <=? c) && (c <=? 13)) || (c =? 32).

(** The white space of [str.isspace] from U+007F on
    ([_PyUnicode_IsWhitespace]): next line, no-break space, ogham space
    mark, the spaces U+2000 to U+200A, line and paragraph separator,
    narrow no-break space, medium mathematical space, ideographic space. *)
Definition is_unicode_space (c : N) : bool :=
  (c =? 133) || (c =? 160) || (c =? 5760) || ((8192 <=? c) && (c <=? 8202))
  || (c =? 8232) || (c =? 8233) || (c =? 8239) || (c =? 8287) || (c =? 12288).

(** The code points of the digit zero of every decimal number system of
    Unicode 14.0 (the database of Python 3.11): each is followed by its
    digits one to nine. *)
Definition decimal_zeros : list N :=
  [48; 1632; 1776; 1984; 2406; 2534; 2662; 2790; 2918; 3046; 3174; 3302;
   3430; 3558; 3664; 3792; 3872; 4160; 4240; 6112; 6160; 6470; 6608; 6784;
   6800; 6992; 7088; 7232; 7248; 42528; 43216; 43264; 43472; 43504; 43600;
   44016; 65296; 66720; 68912; 69734; 69872; 69942; 70096; 70384; 70736;
   70864; 71248; 71360; 71472; 71904; 72016; 72784; 73040; 73120; 92768;
   92864; 93008; 120782; 120792; 120802; 120812; 120822; 123200; 123632;
   125264; 130032].

(** [Py_UNICODE_TODECIMAL]: the value of a decimal digit, of any number
    system. *)
Definition decimal (c : N) : option N :=
  match find (fun z => (z <=? c) && (c <? z + 10)) decimal_zeros with
  | Some z => Some (c - z)
  | None => None
  end.

(** [s.isascii()] *)
Definition is_ascii (s : list N) : bool := forallb (fun c => c <? 128) s.

(** What [int] does to a string that is not ASCII before reading it
    ([_PyUnicode_TransformDecimalAndSpaceToASCII]): a character below
    U+007F is kept, white space becomes a space (32), a decimal digit its
    ASCII digit, and at any other character the string is cut after a
    question mark (63). *)
Fixpoint to_ascii_decimal (s : list N) : list N :=
  match s with
  | [] => []
  | c :: s' =>
      if c <? 127 then c :: to_ascii_decimal s'
      else if is_unicode_space c then 32 :: to_ascii_decimal s'
      else match decimal c with
           | Some d => (48 + d) :: to_ascii_decimal s'
           | None => [63]
           end
  end.

Fixpoint lstrip (s : list N) : list N :=
  match s with
  | c :: s' => if is_space c then lstrip s' else s
  | [] => []
  end.

Definition strip (s : list N) : list N := rev (lstrip (rev (lstrip s))).

(** The value of an ASCII digit. *)
Definition digit (c : N) : option Z :=
  if (48 <=? c) && (c <=? 57) then Some (Z.of_N c - 48)%Z else None.

(** Decimal digits, single underscores (95) allowed between two digits:
    the number read and how many digits it has. *)
Fixpoint digits (acc : Z) (count : nat) (after_digit : bool) (s : list N)
  : option (Z * nat) :=
  match s with
  | [] => if after_digit then Some (acc, count) else None
  | c :: s' =>
      if c =? 95
      then if after_digit then digits acc count false s' else None
      else match digit c with
           | Some d => digits (10 * acc + d)%Z (S count) true s'
           | None => None
           end
  end.

(** The longest numeral [int] reads, in digits
    ([sys.int_info.default_max_str_digits]). *)
Definition max_str_digits : nat := 4300.

(** [int(s)] on a string: [ValueError] unless [s] is an optionally signed
    (45 is the minus sign, 43 the plus sign) decimal numeral of at most
    [max_str_digits] digits, white space around it allowed. *)
Definition py_int (s : list N) : result Z :=
  let s := if is_ascii s then s else to_ascii_decimal s in
  let body := strip s in
  let signed := match body with
                | c :: rest =>
                    if c =? 45 then (true, rest)
                    else if c =? 43 then (false, rest)
                    else (false, body)
                | [] => (false, body)
                end in
  match digits 0%Z 0%nat false signed.2 with
  | Some (n, count) =>
      if (max_str_digits <? count)%nat then Raise ValueError
      else Ok (if signed.1 then (- n)%Z else n)
  | None => Raise ValueError
  end.
End text.

(** ** Loading a graph *)

(** The files [open] can see: for each file that exists, its text as
    [open(filename, 'r')] decodes it (see [text]).  A file whose bytes do
    not decode has no text and is left out: [readline] raises a
    [ValueError] for it, which [load] handles like any other exception. *)
Definition filesystem := string -> option (list N).

(** [[x for x in range(n)]] *)
Definition range_list (n : Z) : list Z := map Z.of_nat (seq 0 (Z.to_nat n)).

(** The body of the [try] block of [load]. *)
Definition load_body (fs : filesystem) (filename : string) : result nx.Graph :=
  match fs filename with
  | None => Raise IOError
  | Some content =>
      let G := nx.empty in
      let r1 := text.readline content in
      n ← text.py_int r1.1;
      let G := nx.add_nodes_from (range_list n) G in
      let r2 := text.readline r1.2 in
      let edges := text.split (text.code ";") r2.1 in
      foldM (fun G edge =>
               a ← py_index (text.split (text.code ",") edge) 0;
               u ← text.py_int a;
               b ← py_index (text.split (text.code ",") edge) 1;
               v ← text.py_int b;
               mret (nx.add_edge u v G))
            G edges
  end.

(** [load(filename)]: both [except] clauses print a message and fall off
    the end of the function, which returns [None]. *)
Definition load (fs : filesystem) (filename : string) : pyobj :=
  match load_body fs filename with
  | Ok G => PyGraph G
  | Raise _ => PyNone
  end.

(** ** Creating a graph from the keyboard *)

(** The lines still to be read from the standard input.  [input()] returns
    the next one without its newline; at the end of the input it raises
    [EOFError], which nothing in the program catches: [None] below.  The
    prompts and messages printed on the way are left out. *)
Definition stdin := list (list N).

(** [k in range(n)] *)
Definition in_range (n k : Z) : Prop := 0 <= k < n.

#[global] Instance in_range_dec n k : Decision (in_range n k).
Proof. unfold in_range. apply _. Defined.

(** [choice == "N" or choice == "n"] *)
Definition is_no (choice : list N) : bool :=
  match choice with
  | [c] => N.eqb c (text.code "N") || N.eqb c (text.code "n")
  | _ => false
  end.

(** The first loop of [create_graph]: [nodes] stays at most 1 until a
    count of at least 2 is typed; an entry [int] rejects leaves it as it
    was. *)
Fixpoint create_graph_nodes (inp : stdin) : option (Z * stdin) :=
  match inp with
  | [] => None
  | line :: inp' =>
      match text.py_int line with
      | Ok nodes => if decide (nodes <= 1) then create_graph_nodes inp' else Some (nodes, inp')
      | Raise _ => create_graph_nodes inp'
      end
  end.

(** The second loop of [create_graph]: one turn reads one, two or three
    lines, depending on where [int] raises and on the test of the pair. *)
Fixpoint create_graph_edges (nodes : Z) (G : nx.Graph) (inp : stdin) {struct inp}
  : option (nx.Graph * stdin) :=
  match inp with
  | [] => None
  | l1 :: inp1 =>
      match text.py_int l1 with
      | Raise _ => create_graph_edges nodes G inp1
      | Ok n1 =>
          match inp1 with
          | [] => None
          | l2 :: inp2 =>
              match text.py_int l2 with
              | Raise _ => create_graph_edges nodes G inp2
              | Ok n2 =>
                  if decide (n1 <> n2 /\ in_range nodes n1 /\ in_range nodes n2)
                  then
                    let G := nx.add_edge n1 n2 G in
                    match inp2 with
                    | [] => None
                    | choice :: inp3 =>
                        if is_no choice then Some (G, inp3)
                        else create_graph_edges nodes G inp3
                    end
                  else create_graph_edges nodes G inp2
              end
          end
      end
  end.

(** [create_graph()]: the graph it returns and the input it leaves. *)
Definition create_graph (inp : stdin) : option (nx.Graph * stdin) :=
  r ← create_graph_nodes inp;
  create_graph_edges r.1 (nx.add_nodes_from (range_list r.1) nx.empty) r.2.

(** ** The menu loop *)

(** The variables of [main]; [results = None] stands for the sentinels
    [fcc, shannon_ent = -1, -1] and [fcc_vals, shannon_vals = [], []]. *)
Record main_state := {
  G : pyobj;
  results : option (Fraction * Fraction * solution * solution)
}.

(** A validated menu choice, with what the user typed for it.  The dialogue
    of [create_graph] is stood for by the graph it returns. *)
Inductive choice : Type :=
| Exit
| NewGraph (created : nx.Graph)
| LoadGraph (filename : string)
| Calculate
| SaveResult.

Inductive step_result : Type :=
| Continue (st : main_state) (tr : list event)
| Stopped
| Crashed (e : exn) (tr : list event).

Section Main.
Variable solve : LpProblem -> solution.
Variable fs : filesystem.

(** One turn of the [while True] loop of [main]. *)
Definition main_step (st : main_state) (c : choice) : step_result :=
  match c with
  | Exit => Stopped
  | NewGraph created => Continue {| G := PyGraph created; results := None |} []
  | LoadGraph filename => Continue {| G := load fs filename; results := None |} []
  | Calculate =>
      let r := calculate solve (G st) in
      match outcome r with
      | Ok res => Continue {| G := G st; results := Some res |} (trace r)
      | Raise e => Crashed e (trace r)
      end
  | SaveResult => Continue st []
  end.

Definition initial_state : main_state := {| G := PyGraph nx.empty; results := None |}.
End Main.

(** ** Auxiliary definitions for the statements below *)

(** All the keys, size by size, as the two nested loops visit them. *)
Definition subsets_by_size {A} (l : list A) (m : nat) : list (list A) :=
  concat (map (itertools.combinations l) (seq 0 m)).

(** The graph the loader returns for a file with the two lines [0] and
    [1,0]: its nodes are [1], [0], in that order. *)
Definition swapped_file : filesystem :=
  fun name => if String.eqb name "g.txt" then Some (text.of_string "0
1,0") else None.

Definition swapped_graph : nx.Graph := [(1, [0]); (0, [1])].


(** The variable [LpVariable.dicts] makes for a key. *)
Definition variable (k : Subset) : LpVariable :=
  {| var_key := k; lowBound := Some 0; upBound := None |}.

(** The sum of the variables of the given keys. *)
Definition sum_of (ks : list Subset) : LpAffineExpression :=
  map (fun k => (variable k, 1)) ks.

(** The enumerated cliques that contain a vertex. *)
Definition cliques_containing (G : nx.Graph) (v : Z) : list (list Z) :=
  filter (fun clique => v ∈ clique) (nx.enumerate_all_cliques G).

(** The covering constraint of a vertex: the variables of the enumerated
    cliques that contain it sum to at least 1. *)
Definition cover_constraint (G : nx.Graph) (v : Z) : LpConstraint :=
  {| lhs := sum_of (cliques_containing G v);
     csense := LpConstraintGE; rhs := 1 |}.

(** Weight 1 on every singleton, 0 elsewhere. *)
Definition all_singletons : assignment :=
  fun k => if decide (length k = 1%nat) then 1%Q else 0%Q.

(** The path 0 - 1 - 2. *)
Definition path3 : nx.Graph :=
  nx.add_edge 1 2 (nx.add_edge 0 1 (nx.add_nodes_from [0; 1; 2] nx.empty)).

#[global] Instance LpVariable_eq_dec : EqDecision LpVariable.
Proof. solve_decision. Defined.
#[global] Instance LpConstraintSense_eq_dec : EqDecision LpConstraintSense.
Proof. solve_decision. Defined.
#[global] Instance LpConstraint_eq_dec : EqDecision LpConstraint.
Proof. solve_decision. Defined.

(** The constraints of a model that was built. *)
Definition model_constraints (r : result (LpProblem * dict Subset LpVariable))
  : list LpConstraint :=
  match r with
  | Ok m => constraints m.1
  | Raise _ => []
  end.

(** Constraint 4 for [S] inside [T]. *)
Definition monotonicity_constraint (S T : Subset) : LpConstraint :=
  {| lhs := [(variable T, 1); (variable S, -1)];
     csense := LpConstraintGE; rhs := 0 |}.

(** No constraint of the problem is the monotonicity constraint of some
    subset inside [V]. *)
Definition free_of (V : Subset) (prob : LpProblem) : Prop :=
  forall S, monotonicity_constraint S V ∉ constraints prob.

(** Constraint 5 for [S] and [T]. *)
Definition submodularity_constraint (S T : Subset) : LpConstraint :=
  {| lhs := [(variable S, 1); (variable T, 1);
             (variable (py_sorted (remove_dups (S ++ T))), -1);
             (variable (py_sorted (filter (fun val => val ∈ T) S)), -1)];
     csense := LpConstraintGE; rhs := 0 |}.

(** Checking a constraint at a given assignment. *)
Definition holds_b (w : assignment) (c : LpConstraint) : bool :=
  match csense c with
  | LpConstraintLE => Qle_bool (eval w (lhs c)) (inject_Z (rhs c))
  | LpConstraintEQ => Qeq_bool (eval w (lhs c)) (inject_Z (rhs c))
  | LpConstraintGE => Qle_bool (inject_Z (rhs c)) (eval w (lhs c))
  end.

Definition in_bounds_b (w : assignment) (v : LpVariable) : bool :=
  match lowBound v with Some l => Qle_bool (inject_Z l) (w (var_key v)) | None => true end
  && match upBound v with Some u => Qle_bool (w (var_key v)) (inject_Z u) | None => true end.

(** The complete graph on two vertices. *)
Definition k2 : nx.Graph :=
  nx.add_edge 0 1 (nx.add_nodes_from [0; 1] nx.empty).

(** The complete bipartite graph with sides [{0, 1}] and [{2, 3, 4}]. *)
Definition k23 : nx.Graph :=
  nx.add_edge 1 4 (nx.add_edge 1 3 (nx.add_edge 1 2
    (nx.add_edge 0 4 (nx.add_edge 0 3 (nx.add_edge 0 2
      (nx.add_nodes_from [0; 1; 2; 3; 4] nx.empty)))))).

(** An assignment on the subsets of [k23], by how many vertices a subset
    has on each side. *)
Definition k23_weights : assignment :=
  fun k =>
    let a := length (filter (fun v => v < 2) k) in
    let b := length (filter (fun v => 2 <= v) k) in
    match a, b with
    | 0%nat, 0%nat => 0%Q
    | 1%nat, 0%nat => 1%Q
    | 2%nat, 0%nat => 2%Q
    | 0%nat, 1%nat => 1%Q
    | 0%nat, 2%nat => 2%Q
    | 0%nat, 3%nat => (5 # 2)%Q
    | 1%nat, 1%nat => (3 # 2)%Q
    | 1%nat, 2%nat => 2%Q
    | 1%nat, 3%nat => (5 # 2)%Q
    | _, _ => 2%Q
    end.

(** A float that is neither infinite nor a NaN. *)
Definition is_finite (f : float) : Prop :=
  match Prim2SF f with
  | S754_zero _ | S754_finite _ _ _ => True
  | S754_infinity _ | S754_nan => False
  end.

(** The number a finite float stands for, [(-1)^s * m * 2^e] for its sign,
    mantissa and exponent; 0 is the placeholder for the other floats. *)
Definition float_value (f : float) : Q :=
  match Prim2SF f with
  | S754_finite s m e => (inject_Z (if s then Z.neg m else Z.pos m) * 2 ^ e)%Q
  | S754_zero _ | S754_infinity _ | S754_nan => 0%Q
  end.

(** A solver outcome that is not optimal but carries values. *)
Definition infeasible_solution : solution :=
  {| status := LpStatusInfeasible; varValue := fun _ => Some 0.5%float |}.

(** The events that read a variable's value or turn a float into a
    rational. *)
Definition extracts (e : event) : bool :=
  match e with
  | EvVarValue _ | EvRational _ => true
  | EvPrintStatus _ | EvPrintResult _ => false
  end.

(** A solver outcome with another status and the same values. *)
Definition with_status (st : LpStatus) (sol : solution) : solution :=
  {| status := st; varValue := varValue sol |}.

(** One file named [g.txt] with the given text. *)
Definition one_file (content : string) : filesystem :=
  fun name => if String.eqb name "g.txt" then Some (text.of_string content) else None.

(** Two vertices and the edge [0,0]. *)
Definition self_loop_file : filesystem := one_file "2
0,0".

(** Two vertices and the edge [0,5]. *)
Definition out_of_range_file : filesystem := one_file "2
0,5".


(** *** The loop of [limit_denominator], for a fraction [N/D] and a bound
    [M] on the denominator *)

(** What holds every time the loop reaches its head. *)
Record cf_inv (N D M : Z) (st : cf_state) : Prop := {
  inv_q : cf_n st * q1 st + cf_d st * q0 st = D;
  inv_p : cf_n st * p1 st + cf_d st * p0 st = N;
  inv_det : p1 st * q0 st - p0 st * q1 st = 1 \/ p1 st * q0 st - p0 st * q1 st = -1;
  inv_q0 : 0 <= q0 st <= M;
  inv_q1 : 0 <= q1 st <= M;
  inv_d : 0 <= cf_d st;
  inv_gcd : Z.gcd (cf_n st) (cf_d st) = 1;
  inv_phase : (q1 st = 0 /\ q0 st = 1 /\ 0 < cf_d st)
              \/ (1 <= q1 st /\ cf_d st < cf_n st)
}.

(** The state the loop starts in. *)
Definition cf_init (N D : Z) : cf_state :=
  {| p0 := 0; q0 := 1; p1 := 1; q1 := 0; cf_n := N; cf_d := D |}.

(** The state after one more turn of the loop. *)
Definition cf_next (st : cf_state) : cf_state :=
  let a := cf_n st / cf_d st in
  {| p0 := p1 st; q0 := q1 st; p1 := p0 st + a * p1 st; q1 := q0 st + a * q1 st;
     cf_n := cf_d st; cf_d := cf_n st - a * cf_d st |}.

(** How many more times the loop can reach its head. *)
Definition cf_measure (M : Z) (st : cf_state) : nat :=
  (Z.to_nat (M + 1 - q1 st)
   + (if decide (q0 st = 0%Z) then 1 else 0)
   + (if decide (q1 st = 0%Z) then 1 else 0))%nat.

(** *** Graphs as [create_graph] builds them *)

(** Nodes in ascending order, no vertex adjacent to itself, no neighbour
    listed twice. *)
Record simple (G : nx.Graph) : Prop := {
  simple_wf : nx.wf G;
  simple_sorted : Sorted Z.lt (nx.nodes G);
  simple_nodup : forall u, NoDup (nx.neighbors G u);
  simple_irrefl : forall u, u ∉ nx.neighbors G u
}.

(** The lines a user types, as [input()] returns them. *)
Definition typed (lines : list string) : stdin := map text.of_string lines.

(** *** The constraints of the entropy model, one by one *)

(** Constraint 1: the empty set has value 0. *)
Definition normalisation_constraint : LpConstraint :=
  {| lhs := [(variable [], 1)]; csense := LpConstraintEQ; rhs := 0 |}.

(** Constraint 2 for a vertex: a singleton has value at most 1. *)
Definition bound_constraint (v : Z) : LpConstraint :=
  {| lhs := [(variable [v], 1)]; csense := LpConstraintLE; rhs := 1 |}.

(** Constraint 3 for a vertex: its closed and its open neighbourhood have
    the same value. *)
Definition closed_neighbourhood_constraint (G : nx.Graph) (v : Z) : LpConstraint :=
  {| lhs := [(variable (py_sorted (nx.neighbors G v ++ [v])), 1);
             (variable (py_sorted (nx.neighbors G v)), -1)];
     csense := LpConstraintEQ; rhs := 0 |}.

(** The problem as it stands after constraints 1 and 2, with the variable
    of the full vertex set as its objective. *)
Definition entropy_start (G : nx.Graph) : LpProblem :=
  foldl (fun prob item =>
           if decide (length item.1 = 1%nat)
           then add_constraint prob
                  {| lhs := term item.2; csense := LpConstraintLE; rhs := 1 |}
           else prob)
        (add_constraint
           {| sense := LpMaximize; objective := lpSum [term (variable (nx.nodes G))];
              constraints := [] |}
           {| lhs := term (variable []); csense := LpConstraintEQ; rhs := 0 |})
        (LpVariable_dicts (subset_space G)).

(** [p'] is [p] with more constraints. *)
Definition extends (p p' : LpProblem) : Prop :=
  sense p' = sense p /\ objective p' = objective p /\
  constraints p ⊆ constraints p'.

(** The assignment that gives every subset the value 0. *)
Definition zero : assignment := fun _ => 0%Q.

(** Two vertices, the first adjacent to itself: what [load] returns for
    [self_loop_file]. *)
Definition self_loop_graph : nx.Graph :=
  nx.add_edge 0 0 (nx.add_nodes_from [0; 1] nx.empty).

(** *** Covers and independent sets *)

(** Weight 1 on one subset, 0 elsewhere. *)
Definition only (V : Subset) : assignment :=
  fun k => if decide (k = V) then 1%Q else 0%Q.

(** Vertices no two of which are adjacent. *)
Definition independent (G : nx.Graph) (I : list Z) : Prop :=
  forall u v, u ∈ I -> v ∈ I -> u <> v -> v ∉ nx.neighbors G u.

(** The graph on the nodes [0 .. n-1] without edges. *)
Definition edgeless (n : Z) : nx.Graph :=
  nx.add_nodes_from (range_list n) nx.empty.

(** *** Runs of the program *)

(** [total] at the end of the loop over [lp_xs] of the cover function,
    every variable having a value. *)
Definition float_total (sol : solution) (keys : list Subset) : float :=
  foldl (fun total k =>
           match varValue sol k with
           | Some val => (total + val)%float
           | None => total
           end) 0%float keys.

(** The turns of the [while True] loop of [main] for a list of validated
    choices: the state it is left in, unless a turn stops or crashes. *)
Fixpoint main_run (solve : LpProblem -> solution) (fs : filesystem)
         (st : main_state) (cs : list choice) : option main_state :=
  match cs with
  | [] => Some st
  | c :: cs' =>
      match main_step solve fs st c with
      | Continue st' _ => main_run solve fs st' cs'
      | Stopped | Crashed _ _ => None
      end
  end.

(** What holds of the variables of [main] between two turns: results that
    are not the sentinels are those of [calculate] on the current graph. *)
Definition results_current (solve : LpProblem -> solution) (st : main_state) : Prop :=
  match results st with
  | None => True
  | Some r => exists g, G st = PyGraph g /\ outcome (calculate solve (PyGraph g)) = Ok r
  end.

(** A solver that gives every variable the value one half. *)
Definition halves_solver : LpProblem -> solution :=
  fun _ => {| status := LpStatusOptimal; varValue := fun _ => Some 0.5%float |}.

(** *** What the entropy model consists of *)

(** The constraints the entropy model can hold: constraint 1, constraint 2
    or 3 for a vertex, and constraint 4 or 5 for the keys at two positions
    [x < y] before the last one. *)
Inductive entropy_constraint (G : nx.Graph) : LpConstraint -> Prop :=
| is_normalisation : entropy_constraint G normalisation_constraint
| is_bound v : v ∈ nx.nodes G -> entropy_constraint G (bound_constraint v)
| is_closed_neighbourhood v :
    v ∈ nx.nodes G -> entropy_constraint G (closed_neighbourhood_constraint G v)
| is_monotonicity x y S T :
    dict_keys (subset_space G) !! x = Some S ->
    dict_keys (subset_space G) !! y = Some T ->
    (x < y < length (dict_keys (subset_space G)) - 1)%nat ->
    S ⊆ T -> entropy_constraint G (monotonicity_constraint S T)
| is_submodularity x y S T :
    dict_keys (subset_space G) !! x = Some S ->
    dict_keys (subset_space G) !! y = Some T ->
    (x < y < length (dict_keys (subset_space G)) - 1)%nat ->
    ~ S ⊆ T -> entropy_constraint G (submodularity_constraint S T).

(** The assignment [w] with every value above [c] cut down to [c]. *)
Definition cap (c : Q) (w : assignment) : assignment :=
  fun k => if Qle_bool (w k) c then w k else c.

(** * Properties *)

Import pulp fractions.

(** * Facts about lists *)

Lemma elem_of_concat {A} (x : A) (ls : list (list A)) :
  x ∈ concat ls <-> exists l, x ∈ l /\ l ∈ ls.
Proof.
  induction ls as [|l ls IH]; simpl.
  - split; [by intros ?%elem_of_nil|by intros (? & _ & ?%elem_of_nil)].
  - rewrite elem_of_app, IH. split.
    + intros [?|(l' & ? & ?)]; [exists l; split; [done|left]|].
      exists l'. split; [done|by right].
    + intros (l' & ? & [->|?]%elem_of_cons); [by left|right; by exists l'].
Qed.

(** * Facts about dicts *)

Section DictFacts.
Context {K V : Type} `{EqDecision K}.
Implicit Types (d : dict K V) (k : K) (v : V).

Lemma dict_keys_set_fresh k v d :
  k ∉ dict_keys d -> dict_keys (dict_set k v d) = dict_keys d ++ [k].
Proof.
  induction d as [|[k' v'] d IH]; simpl; intros Hk; [done|].
  apply not_elem_of_cons in Hk as [Hne Hk].
  destruct (decide (k' = k)); [congruence|].
  simpl. f_equal. by apply IH.
Qed.

Lemma dict_set_fresh k v d :
  k ∉ dict_keys d -> dict_set k v d = d ++ [(k, v)].
Proof.
  induction d as [|[k' v'] d IH]; simpl; intros Hk; [done|].
  apply not_elem_of_cons in Hk as [Hne Hk].
  destruct (decide (k' = k)); [congruence|].
  f_equal. by apply IH.
Qed.

Lemma dict_fill_fresh v (l : list K) d :
  NoDup (dict_keys d ++ l) ->
  foldl (fun xs k => dict_set k v xs) d l = d ++ map (fun k => (k, v)) l.
Proof.
  revert d. induction l as [|k l IH]; intros d Hnd; simpl.
  - by rewrite app_nil_r.
  - assert (Hk : k ∉ dict_keys d).
    { apply NoDup_app in Hnd as (_ & Hdis & _). intros Hin.
      apply (Hdis k Hin). left. }
    rewrite dict_set_fresh by done.
    rewrite IH.
    + by rewrite <- app_assoc.
    + unfold dict_keys in *. rewrite fmap_app. simpl.
      rewrite <- app_assoc. done.
Qed.

Lemma dict_get_Ok k d :
  k ∈ dict_keys d -> exists v, dict_get k d = Ok v /\ (k, v) ∈ d.
Proof.
  induction d as [|[k' v'] d IH]; simpl; intros Hk.
  - by apply elem_of_nil in Hk.
  - destruct (decide (k' = k)) as [->|Hne].
    + eexists. split; [done|left].
    + apply elem_of_cons in Hk as [?|Hk]; [congruence|].
      destruct (IH Hk) as (v & ? & ?). exists v. split; [done|by right].
Qed.

Lemma dict_get_KeyError k d :
  k ∉ dict_keys d -> dict_get k d = Raise KeyError.
Proof.
  induction d as [|[k' v'] d IH]; simpl; intros Hk; [done|].
  apply not_elem_of_cons in Hk as [Hne Hk].
  destruct (decide (k' = k)); [congruence|]. by apply IH.
Qed.
End DictFacts.

(** * The subset space *)

Section Combinations.
Context {A : Type}.
Implicit Types (l s : list A) (r : nat).
Import itertools.

Lemma combinations_0 l : combinations l 0 = [[]].
Proof. by destruct l. Qed.

Lemma elem_of_combinations l r s :
  s ∈ combinations l r <-> s `sublist_of` l /\ length s = r.
Proof.
  revert r s. induction l as [|x l IH]; intros r s.
  - destruct r; simpl.
    + rewrite list_elem_of_singleton, sublist_nil_r.
      split; [by intros ->|by intros [-> _]].
    + rewrite elem_of_nil, sublist_nil_r.
      split; [done|]. by intros [-> ?].
  - destruct r as [|r]; simpl.
    + rewrite list_elem_of_singleton. split.
      * intros ->. split; [apply sublist_nil_l|done].
      * intros [_ Hlen]. by apply nil_length_inv.
    + rewrite elem_of_app, list_elem_of_fmap, sublist_cons_r. split.
      * intros [(s' & -> & Hs')|Hs].
        -- apply IH in Hs' as [Hsub Hlen]. split; [|by simpl; f_equal].
           right. by exists s'.
        -- apply IH in Hs as [Hsub Hlen]. split; [by left|done].
      * intros [[Hsub|(s' & -> & Hsub)] Hlen].
        -- right. by apply IH.
        -- left. exists s'. split; [done|]. apply IH. split; [done|].
           simpl in Hlen. lia.
Qed.

Lemma NoDup_combinations l r : NoDup l -> NoDup (combinations l r).
Proof.
  revert r. induction l as [|x l IH]; intros r Hnd.
  - destruct r; simpl; [apply NoDup_singleton|apply NoDup_nil_2].
  - apply NoDup_cons in Hnd as [Hx Hnd].
    destruct r as [|r]; simpl; [apply NoDup_singleton|].
    apply NoDup_app. split_and!.
    + apply NoDup_fmap_2; [|by apply IH]. by intros ?? [=].
    + intros s (s' & -> & _)%list_elem_of_fmap Hs.
      apply elem_of_combinations in Hs as [Hsub _].
      apply Hx. eapply elem_of_sublist; [|done]. left.
    + by apply IH.
Qed.

Lemma length_combinations_gt l r :
  (length l < r)%nat -> combinations l r = [].
Proof.
  revert r. induction l as [|x l IH]; intros r Hlt; simpl in *.
  - destruct r; [lia|done].
  - destruct r as [|r]; [lia|].
    rewrite !IH by lia. done.
Qed.
End Combinations.

Section SubsetsBySize.
Context {A : Type}.
Implicit Types (l s : list A).
Import itertools.

Lemma elem_of_subsets_by_size l m s :
  s ∈ subsets_by_size l m <-> s `sublist_of` l /\ (length s < m)%nat.
Proof.
  unfold subsets_by_size. rewrite elem_of_concat. split.
  - intros (c & Hs & (r & -> & Hr)%list_elem_of_fmap).
    apply elem_of_combinations in Hs as [? <-].
    apply elem_of_seq in Hr. split; [done|lia].
  - intros [Hsub Hlen]. exists (combinations l (length s)). split.
    + by apply elem_of_combinations.
    + apply list_elem_of_fmap. exists (length s). split; [done|].
      apply elem_of_seq. lia.
Qed.

Lemma NoDup_concat_by_length (f : nat -> list (list A)) a m :
  (forall r, NoDup (f r)) ->
  (forall r s, s ∈ f r -> length s = r) ->
  NoDup (concat (map f (seq a m))).
Proof.
  intros Hnd Hlen. revert a. induction m as [|m IH]; intros a; simpl.
  - apply NoDup_nil_2.
  - apply NoDup_app. split_and!; [apply Hnd| |apply IH].
    intros s Hs (c & Hs' & (r & -> & Hr)%list_elem_of_fmap)%elem_of_concat.
    apply Hlen in Hs, Hs'. apply elem_of_seq in Hr. lia.
Qed.

Lemma NoDup_subsets_by_size l m : NoDup l -> NoDup (subsets_by_size l m).
Proof.
  intros Hnd. apply NoDup_concat_by_length.
  - intros r. by apply NoDup_combinations.
  - intros r s Hs. by apply elem_of_combinations in Hs as [_ ?].
Qed.

Lemma sum_seq_shift (g : nat -> nat) a m :
  sum_list (map (fun r => g (S r)) (seq a m)) = sum_list (map g (seq (S a) m)).
Proof.
  revert a. induction m as [|m IH]; intros a; simpl; [done|].
  by rewrite IH.
Qed.

Lemma length_concat_shift (g : nat -> nat) m :
  (sum_list (map (fun r => g (S r)) (seq 0 m)) + g 0
   = sum_list (map g (seq 0 (S m))))%nat.
Proof. rewrite sum_seq_shift. simpl. lia. Qed.

Lemma length_subsets_by_size_sum l m :
  length (subsets_by_size l m)
  = sum_list (map (fun r => length (combinations l r)) (seq 0 m)).
Proof.
  unfold subsets_by_size. generalize 0%nat.
  induction m as [|m IH]; intros a; simpl; [done|].
  rewrite length_app, IH. done.
Qed.

Lemma length_subsets_by_size l m :
  (length l < m)%nat -> length (subsets_by_size l m) = (2 ^ length l)%nat.
Proof.
  revert m. induction l as [|x l IH]; intros m Hm; simpl in Hm.
  - rewrite length_subsets_by_size_sum.
    destruct m as [|m]; [lia|]. simpl.
    assert (Hz : forall a, (1 <= a)%nat ->
      sum_list (map (fun r => length (combinations (@nil A) r)) (seq a m)) = 0%nat).
    { clear. induction m as [|m IH]; intros a Ha; simpl; [done|].
      rewrite IH by lia. destruct a; [lia|done]. }
    rewrite Hz by lia. done.
  - destruct m as [|m]; [lia|].
    rewrite length_subsets_by_size_sum.
    rewrite <- (length_concat_shift (fun r => length (combinations (x :: l) r))).
    simpl combinations.
    erewrite (list_fmap_ext _ (fun r => (length (combinations l r)
                                + length (combinations l (S r)))%nat)); last first.
    { intros ? r _. simpl. by rewrite length_app, length_map. }
    assert (Hsplit : forall (g h : nat -> nat) js,
      sum_list (map (fun r => (g r + h r)%nat) js)
      = (sum_list (map g js) + sum_list (map h js))%nat).
    { intros g h js. induction js; simpl; lia. }
    rewrite Hsplit.
    pose proof (length_concat_shift (fun r => length (combinations l r)) m) as Hs.
    cbv beta in Hs. rewrite combinations_0 in Hs. simpl length in Hs.
    rewrite <- !length_subsets_by_size_sum in *.
    rewrite (IH m) in * by lia. rewrite (IH (S m)) in Hs by lia.
    simpl. lia.
Qed.
End SubsetsBySize.

Section SubsetSpace.
Import itertools.

Lemma subset_space_fill (pool : list Z) m a (d : dict Subset Z) :
  NoDup (dict_keys d ++ concat (map (combinations pool) (seq a m))) ->
  foldl (fun xs L => foldl (fun xs subset => dict_set subset 0 xs) xs
                           (combinations pool L)) d (seq a m)
  = d ++ map (fun k => (k, 0)) (concat (map (combinations pool) (seq a m))).
Proof.
  revert a d. induction m as [|m IH]; intros a d Hnd; simpl.
  - by rewrite app_nil_r.
  - simpl in Hnd. rewrite app_assoc in Hnd.
    rewrite dict_fill_fresh.
    + rewrite IH.
      * by rewrite map_app, app_assoc.
      * unfold dict_keys in *. rewrite fmap_app.
        replace ((map (fun k => (k, 0)) (combinations pool a)).*1)
          with (combinations pool a); [done|].
        clear. induction (combinations pool a); simpl; [done|]. by f_equal.
    + by apply NoDup_app in Hnd as (? & _ & _).
Qed.

Lemma subset_space_eq G :
  NoDup (nx.nodes G) ->
  subset_space G
  = map (fun k => (k, 0)) (subsets_by_size (nx.nodes G) (length (nx.nodes G) + 1)).
Proof.
  intros Hnd. unfold subset_space. rewrite subset_space_fill; [done|].
  simpl. by apply NoDup_subsets_by_size.
Qed.

Lemma subset_space_keys G :
  NoDup (nx.nodes G) ->
  dict_keys (subset_space G)
  = subsets_by_size (nx.nodes G) (length (nx.nodes G) + 1).
Proof.
  intros Hnd. rewrite subset_space_eq by done. unfold dict_keys.
  induction (subsets_by_size _ _); simpl; [done|]. by f_equal.
Qed.

Lemma elem_of_subset_space G s :
  NoDup (nx.nodes G) ->
  s ∈ dict_keys (subset_space G) <-> s `sublist_of` nx.nodes G.
Proof.
  intros Hnd. rewrite subset_space_keys, elem_of_subsets_by_size by done.
  split; [by intros [? _]|]. intros Hsub. split; [done|].
  apply sublist_length in Hsub. lia.
Qed.
End SubsetSpace.

(** Two subsequences of a duplicate-free list with the same members are
    the same sequence. *)
Lemma sublist_same_members {A} (l k1 k2 : list A) :
  NoDup l -> k1 `sublist_of` l -> k2 `sublist_of` l ->
  (forall x, x ∈ k1 <-> x ∈ k2) -> k1 = k2.
Proof.
  intros Hnd. revert k1 k2. induction l as [|x l IH]; intros k1 k2 H1 H2 Hm.
  - apply sublist_nil_r in H1, H2. congruence.
  - apply NoDup_cons in Hnd as [Hx Hnd].
    apply sublist_cons_r in H1 as [H1|(k1' & -> & H1)];
      apply sublist_cons_r in H2 as [H2|(k2' & -> & H2)].
    + by apply IH.
    + exfalso. apply Hx. eapply elem_of_sublist; [|exact H1].
      apply Hm. left.
    + exfalso. apply Hx. eapply elem_of_sublist; [|exact H2].
      apply Hm. left.
    + f_equal. apply IH; [done..|].
      intros y. split; intros Hy.
      * assert (y ∈ x :: k2') as [->|?]%elem_of_cons by (apply Hm; by right); [|done].
        exfalso. apply Hx. by eapply elem_of_sublist.
      * assert (y ∈ x :: k1') as [->|?]%elem_of_cons by (apply Hm; by right); [|done].
        exfalso. apply Hx. by eapply elem_of_sublist.
Qed.

Lemma StronglySorted_sublist {A} (R : relation A) (k l : list A) :
  k `sublist_of` l -> StronglySorted R l -> StronglySorted R k.
Proof.
  induction 1 as [|x k l Hsub IH|x k l Hsub IH]; intros Hs.
  - constructor.
  - apply StronglySorted_inv in Hs as [Hs Hall]. constructor; [by apply IH|].
    rewrite Forall_forall in *. intros y Hy. apply Hall.
    by eapply elem_of_sublist.
  - apply StronglySorted_inv in Hs as [Hs _]. by apply IH.
Qed.

Lemma Sorted_lt_sublist (k l : list Z) :
  k `sublist_of` l -> Sorted Z.lt l -> Sorted Z.lt k.
Proof.
  intros Hsub Hs. apply StronglySorted_Sorted.
  eapply StronglySorted_sublist; [done|].
  apply Sorted_StronglySorted; [|done]. intros ???. lia.
Qed.

Lemma Sorted_lt_le (l : list Z) : Sorted Z.lt l -> Sorted Z.le l.
Proof.
  induction 1 as [|x l Hs IH Hhd]; constructor; [done|].
  destruct Hhd; constructor. lia.
Qed.

(** Sorting a set of vertices gives its key when the nodes are ascending. *)
Lemma py_sorted_sublist (nodes l : list Z) :
  Sorted Z.lt nodes -> NoDup l -> l ⊆ nodes ->
  py_sorted l `sublist_of` nodes.
Proof.
  intros Hs Hnd Hsub.
  assert (Hnodes : NoDup nodes).
  { apply Sorted_StronglySorted in Hs; [|intros ???; lia].
    clear -Hs. induction Hs as [|x l Hs IH Hall]; constructor; [|done].
    intros Hx. rewrite Forall_forall in Hall. specialize (Hall _ Hx). lia. }
  set (k := filter (fun x => x ∈ l) nodes).
  assert (Hk : k `sublist_of` nodes) by apply sublist_filter.
  assert (Hperm : k ≡ₚ l).
  { apply NoDup_Permutation; [by apply NoDup_filter|done|].
    intros x. unfold k. rewrite list_elem_of_filter. split; [by intros [? _]|].
    intros Hx. split; [done|]. by apply Hsub. }
  replace (py_sorted l) with k; [done|].
  apply (Sorted_unique Z.le).
  - apply Sorted_lt_le. by eapply Sorted_lt_sublist.
  - apply Sorted_merge_sort. intros x y. lia.
  - unfold py_sorted. by rewrite merge_sort_Permutation.
Qed.

(** * Graphs the program can build are well formed *)

Section GraphFacts.
Implicit Types (G : nx.Graph) (u v w : Z).

Lemma nodes_app G G' : nx.nodes (G ++ G') = nx.nodes G ++ nx.nodes G'.
Proof. unfold nx.nodes, dict_keys. by rewrite fmap_app. Qed.

Lemma neighbors_not_node G u : u ∉ nx.nodes G -> nx.neighbors G u = [].
Proof.
  induction G as [|[w nb] G IH]; simpl; intros Hu; [done|].
  apply not_elem_of_cons in Hu as [Hne Hu].
  destruct (decide (w = u)); [congruence|by apply IH].
Qed.

Lemma neighbors_app_fresh G u w :
  nx.neighbors (G ++ [(u, [])]) w = nx.neighbors G w.
Proof.
  induction G as [|[x nb] G IH]; simpl.
  - by destruct (decide (u = w)).
  - by destruct (decide (x = w)).
Qed.

Lemma nodes_add_node u G :
  nx.nodes (nx.add_node u G)
  = if decide (u ∈ nx.nodes G) then nx.nodes G else nx.nodes G ++ [u].
Proof.
  unfold nx.add_node. destruct (decide (u ∈ nx.nodes G)); [done|].
  by rewrite nodes_app.
Qed.

Lemma neighbors_add_node u G w :
  nx.neighbors (nx.add_node u G) w = nx.neighbors G w.
Proof.
  unfold nx.add_node. destruct (decide (u ∈ nx.nodes G)); [done|].
  apply neighbors_app_fresh.
Qed.

Lemma nodes_add_nbr u v G : nx.nodes (nx.add_nbr u v G) = nx.nodes G.
Proof.
  induction G as [|[w nb] G IH]; simpl; [done|].
  destruct (decide (w = u)); simpl; [done|]. by f_equal.
Qed.

Lemma neighbors_add_nbr u v G w x :
  x ∈ nx.neighbors (nx.add_nbr u v G) w ->
  x ∈ nx.neighbors G w \/ (w = u /\ x = v).
Proof.
  induction G as [|[y nb] G IH]; simpl; [by left|].
  destruct (decide (y = u)) as [->|Hne]; simpl.
  - destruct (decide (u = w)) as [->|]; [|by left].
    destruct (decide (v ∈ nb)); [by left|].
    intros [?|Hx%list_elem_of_singleton]%elem_of_app; [by left|by right].
  - destruct (decide (y = w)); [by left|done].
Qed.

Lemma neighbors_add_nbr_old u v G w x :
  x ∈ nx.neighbors G w -> x ∈ nx.neighbors (nx.add_nbr u v G) w.
Proof.
  induction G as [|[y nb] G IH]; simpl; [done|].
  destruct (decide (y = u)) as [->|Hne]; simpl.
  - destruct (decide (u = w)) as [->|]; [|done].
    destruct (decide (v ∈ nb)); [done|]. intros ?. apply elem_of_app. by left.
  - destruct (decide (y = w)); [done|apply IH].
Qed.

Lemma neighbors_add_nbr_new u v G :
  u ∈ nx.nodes G -> v ∈ nx.neighbors (nx.add_nbr u v G) u.
Proof.
  induction G as [|[y nb] G IH]; simpl; [by intros ?%elem_of_nil|].
  destruct (decide (y = u)) as [->|Hne]; simpl.
  - intros _. destruct (decide (u = u)); [|done].
    destruct (decide (v ∈ nb)); [done|]. apply elem_of_app. right. left.
  - intros [?|Hu]%elem_of_cons; [congruence|].
    destruct (decide (y = u)); [done|by apply IH].
Qed.

Lemma wf_empty : nx.wf nx.empty.
Proof.
  split; [apply NoDup_nil_2| |]; simpl; by intros ?? ?%elem_of_nil.
Qed.

Lemma wf_add_node u G : nx.wf G -> nx.wf (nx.add_node u G).
Proof.
  intros [Hnd Hcl Hsym]. split; [| |intros x y; rewrite !neighbors_add_node; apply Hsym].
  - rewrite nodes_add_node. destruct (decide (u ∈ nx.nodes G)); [done|].
    apply NoDup_app. split_and!; [done| |apply NoDup_singleton].
    intros x ? ->%list_elem_of_singleton. done.
  - intros x y. rewrite neighbors_add_node. intros Hy%Hcl.
    rewrite nodes_add_node. destruct (decide (u ∈ nx.nodes G)); [done|].
    apply elem_of_app. by left.
Qed.

Lemma wf_add_nodes_from us G : nx.wf G -> nx.wf (nx.add_nodes_from us G).
Proof.
  unfold nx.add_nodes_from. revert G.
  induction us as [|u us IH]; intros G HG; simpl; [done|].
  by apply IH, wf_add_node.
Qed.

Lemma elem_of_nodes_add_node u G : u ∈ nx.nodes (nx.add_node u G).
Proof.
  rewrite nodes_add_node. destruct (decide (u ∈ nx.nodes G)); [done|].
  apply elem_of_app. right. left.
Qed.

Lemma elem_of_nodes_add_node_mono u v G :
  v ∈ nx.nodes G -> v ∈ nx.nodes (nx.add_node u G).
Proof.
  rewrite nodes_add_node. destruct (decide (u ∈ nx.nodes G)); [done|].
  intros ?. apply elem_of_app. by left.
Qed.

Lemma wf_add_edge u v G : nx.wf G -> nx.wf (nx.add_edge u v G).
Proof.
  intros HG. unfold nx.add_edge.
  pose proof (wf_add_node v _ (wf_add_node u _ HG)) as [Hnd Hcl Hsym].
  set (G2 := nx.add_node v (nx.add_node u G)) in *.
  assert (Hu : u ∈ nx.nodes G2) by apply elem_of_nodes_add_node_mono, elem_of_nodes_add_node.
  assert (Hv : v ∈ nx.nodes G2) by apply elem_of_nodes_add_node.
  split.
  - by rewrite !nodes_add_nbr.
  - intros x y Hy. rewrite !nodes_add_nbr.
    apply neighbors_add_nbr in Hy as [Hy|[-> ->]]; [|done].
    apply neighbors_add_nbr in Hy as [Hy|[-> ->]]; [|done].
    by eapply Hcl.
  - intros x y Hy.
    apply neighbors_add_nbr in Hy as [Hy|[-> ->]].
    + apply neighbors_add_nbr in Hy as [Hy|[-> ->]].
      * by apply neighbors_add_nbr_old, neighbors_add_nbr_old, Hsym.
      * apply neighbors_add_nbr_new. by rewrite nodes_add_nbr.
    + by apply neighbors_add_nbr_old, neighbors_add_nbr_new.
Qed.
End GraphFacts.

(** * The subset space: one key per subset *)

(** The subset space has exactly [2^n] distinct keys, one for every subset
    of the vertex set, each listing its vertices in the node order of the
    graph; when the nodes of the graph are in ascending order the keys are
    sorted tuples, and the sorted tuple of any set of vertices is a key. *)
Lemma subset_space_spec (G : nx.Graph) :
  NoDup (nx.nodes G) ->
  let keys := dict_keys (subset_space G) in
  length keys = (2 ^ length (nx.nodes G))%nat /\
  NoDup keys /\
  (forall l, l ⊆ nx.nodes G ->
     exists k, k ∈ keys /\ (forall x, x ∈ k <-> x ∈ l) /\
               forall k', k' ∈ keys -> (forall x, x ∈ k' <-> x ∈ l) -> k' = k) /\
  (forall k, k ∈ keys -> k `sublist_of` nx.nodes G) /\
  (Sorted Z.lt (nx.nodes G) ->
     (forall k, k ∈ keys -> Sorted Z.lt k) /\
     (forall l, NoDup l -> l ⊆ nx.nodes G -> py_sorted l ∈ keys)).
Proof.
  intros Hnd keys. split_and!.
  - unfold keys. rewrite subset_space_keys by done.
    apply length_subsets_by_size. lia.
  - unfold keys. rewrite subset_space_keys by done.
    by apply NoDup_subsets_by_size.
  - intros l Hl. exists (filter (fun x => x ∈ l) (nx.nodes G)). split_and!.
    + apply elem_of_subset_space; [done|]. apply sublist_filter.
    + intros x. rewrite list_elem_of_filter. split; [by intros [? _]|].
      intros Hx. split; [done|]. by apply Hl.
    + intros k' Hk' Hm. apply (sublist_same_members (nx.nodes G)); [done| | |].
      * by apply elem_of_subset_space.
      * apply sublist_filter.
      * intros x. rewrite Hm, list_elem_of_filter. split; [|by intros [? _]].
        intros Hx. split; [done|]. by apply Hl.
  - intros k Hk. by apply elem_of_subset_space.
  - intros Hs. split.
    + intros k Hk. eapply Sorted_lt_sublist; [|done].
      by apply elem_of_subset_space.
    + intros l Hl Hsub. apply elem_of_subset_space; [done|].
      by apply py_sorted_sublist.
Qed.

(** The subset space of the graph with the nodes 1, 0 on four keys. *)
Lemma subset_space_witness :
  length (dict_keys (subset_space swapped_graph)) = 4%nat.
Proof.
  refine (proj1 (subset_space_spec swapped_graph _)).
  apply (bool_decide_unpack _). vm_compute. exact I.
Defined.

(** A key of that subset space is not a sorted tuple. *)
Lemma subset_space_unsorted_key :
  load swapped_file "g.txt" = PyGraph swapped_graph /\
  ~ (forall k, k ∈ dict_keys (subset_space swapped_graph) -> Sorted Z.le k) /\
  ([1; 0] ∈ dict_keys (subset_space swapped_graph)) /\
  (py_sorted [1; 0] ∉ dict_keys (subset_space swapped_graph)).
Proof.
  assert (Hin : [1; 0] ∈ dict_keys (subset_space swapped_graph)).
  { vm_compute. do 3 right. left. }
  split_and!; [by vm_compute| |done|].
  - intros Hall. apply Hall in Hin.
    inversion Hin as [|?? _ Hhd]. inversion Hhd. lia.
  - apply (bool_decide_unpack _). by vm_compute.
Qed.

(** C8 at the file with the two lines [0] and [1,0]: [load] returns the
    graph with the nodes 1, 0 in this order and the edge between them.
    Its subset space has the four keys [()], [(1,)], [(0,)], [(1, 0)]: the
    key of the full vertex set is not a sorted tuple, and the sorted tuple
    [(0, 1)] of the same set is no key.  The cover model is built all the
    same; building the entropy model looks [(0, 1)] up (line 89) and
    raises [KeyError], whatever the solver is. *)
Theorem subset_space_keys_not_sorted :
  load swapped_file "g.txt" = PyGraph swapped_graph /\
  nx.nodes swapped_graph = [1; 0] /\
  dict_keys (subset_space swapped_graph) = [[]; [1]; [0]; [1; 0]] /\
  ~ Sorted Z.le [1; 0] /\
  py_sorted [1; 0] = [0; 1] /\
  ([0; 1] ∉ dict_keys (subset_space swapped_graph)) /\
  (exists m, fractional_clique_cover_model swapped_graph = Ok m) /\
  shannon_entropy_model swapped_graph = Raise KeyError /\
  (forall solve,
     outcome (shannon_entropy solve (PyGraph swapped_graph)) = Raise KeyError).
Proof.
  split_and!; try (by vm_compute).
  - intros Hs. inversion Hs as [|?? _ Hhd]. inversion Hhd. lia.
  - apply (bool_decide_unpack _). by vm_compute.
  - by eexists; vm_compute.
Qed.

(** * The clique enumeration *)

Section Cliques.
Variable G : nx.Graph.
Implicit Types (base cnbrs : list Z) (queue : list (list Z * list Z)).

Lemma weight_app q1 q2 : nx.weight (q1 ++ q2) = (nx.weight q1 + nx.weight q2)%nat.
Proof. induction q1 as [|e q1 IH]; simpl; [done|]. rewrite IH. lia. Qed.

Lemma weight_children base cnbrs :
  (nx.weight (nx.children G base cnbrs) < 2 ^ length cnbrs)%nat.
Proof.
  revert base. induction cnbrs as [|u rest IH]; intros base; simpl; [lia|].
  specialize (IH base).
  pose proof (length_filter (nx.in_nbrs G u) rest) as Hlen.
  apply (Nat.pow_le_mono_r 2) in Hlen; lia.
Qed.

(** The queue loop never runs out of the fuel it is given. *)
Lemma bfs_total fuel queue :
  (nx.weight queue <= fuel)%nat -> is_Some (nx.bfs G fuel queue).
Proof.
  revert queue. induction fuel as [|fuel IH]; intros [|[base cnbrs] rest] Hw; simpl.
  - by eexists.
  - simpl in Hw. pose proof (Nat.pow_nonzero 2 (length cnbrs)). lia.
  - by eexists.
  - simpl in Hw. apply fmap_is_Some, IH.
    rewrite weight_app. pose proof (weight_children base cnbrs). lia.
Qed.

Lemma enumerate_all_cliques_eq :
  nx.bfs G (nx.weight (nx.initial_queue G)) (nx.initial_queue G)
  = Some (nx.enumerate_all_cliques G).
Proof.
  unfold nx.enumerate_all_cliques.
  destruct (bfs_total (nx.weight (nx.initial_queue G)) (nx.initial_queue G))
    as [out ->]; done.
Qed.

(** Every entry of the queue is popped and its base yielded. *)
Lemma bfs_yields_queue fuel queue out e :
  nx.bfs G fuel queue = Some out -> e ∈ queue -> e.1 ∈ out.
Proof.
  revert queue out. induction fuel as [|fuel IH]; intros [|[base cnbrs] rest] out; simpl.
  - by intros _ ?%elem_of_nil.
  - done.
  - by intros _ ?%elem_of_nil.
  - destruct (nx.bfs G fuel _) as [out'|] eqn:Hout'; [|done].
    intros [= <-] [->|He]%elem_of_cons; [left|].
    right. eapply IH; [done|]. apply elem_of_app. by left.
Qed.

(** A property of queue entries that children inherit holds of whatever
    is yielded. *)
Lemma bfs_invariant (P : list Z * list Z -> Prop) fuel queue out :
  (forall base cnbrs e, P (base, cnbrs) -> e ∈ nx.children G base cnbrs -> P e) ->
  Forall P queue ->
  nx.bfs G fuel queue = Some out ->
  Forall (fun base => exists cnbrs, P (base, cnbrs)) out.
Proof.
  intros Hstep. revert queue out.
  induction fuel as [|fuel IH]; intros [|[base cnbrs] rest] out Hq; simpl.
  - intros [= <-]. constructor.
  - done.
  - intros [= <-]. constructor.
  - destruct (nx.bfs G fuel _) as [out'|] eqn:Hout'; [|done].
    intros [= <-]. apply Forall_cons in Hq as [Hhd Hrest].
    constructor; [by exists cnbrs|].
    eapply IH; [|done]. apply Forall_app. split; [done|].
    apply Forall_forall. intros e He. by eapply Hstep.
Qed.

Lemma children_sublist base cnbrs e :
  e ∈ nx.children G base cnbrs -> e.1 ++ e.2 `sublist_of` base ++ cnbrs.
Proof.
  revert e. induction cnbrs as [|u rest IH]; intros e; simpl.
  - by intros ?%elem_of_nil.
  - intros [->|He]%elem_of_cons; simpl.
    + rewrite <- app_assoc. apply sublist_app; [done|].
      simpl. apply sublist_skip || apply sublist_cons. apply sublist_filter.
    + etrans; [by apply IH|]. apply sublist_app; [done|]. by apply sublist_cons_r; left.
Qed.

Lemma children_nonempty base cnbrs e :
  e ∈ nx.children G base cnbrs -> e.1 <> [].
Proof.
  revert e. induction cnbrs as [|u rest IH]; intros e; simpl.
  - by intros ?%elem_of_nil.
  - intros [->|He]%elem_of_cons; simpl; [by destruct base|by apply IH].
Qed.

Lemma after_sublist u (l : list Z) : u ∈ l -> u :: nx.after u l `sublist_of` l.
Proof.
  induction l as [|w l IH]; simpl; [by intros ?%elem_of_nil|].
  destruct (decide (w = u)) as [->|Hne]; [done|].
  intros [?|Hu]%elem_of_cons; [congruence|].
  apply sublist_cons_r. left. by apply IH.
Qed.

Lemma initial_queue_sublist e :
  e ∈ nx.initial_queue G -> e.1 ++ e.2 `sublist_of` nx.nodes G.
Proof.
  unfold nx.initial_queue. intros (u & -> & Hu)%list_elem_of_fmap. simpl.
  etrans; [|by apply after_sublist].
  apply sublist_skip || apply sublist_cons. apply sublist_filter.
Qed.

(** The empty list is never yielded. *)
Lemma enumerate_all_cliques_nonempty c :
  c ∈ nx.enumerate_all_cliques G -> c <> [].
Proof.
  intros Hc.
  assert (Hall : Forall (fun base => exists cnbrs : list Z, (base, cnbrs).1 <> [])
                        (nx.enumerate_all_cliques G)).
  { eapply (bfs_invariant (fun e => e.1 <> [])); [| |apply enumerate_all_cliques_eq].
    - intros base cnbrs e _ He. by eapply children_nonempty.
    - apply Forall_forall. unfold nx.initial_queue.
      by intros e (u & -> & _)%list_elem_of_fmap. }
  rewrite Forall_forall in Hall. by destruct (Hall c Hc) as [cn ?].
Qed.

(** Every yielded clique lists its vertices in the node order of [G]. *)
Lemma enumerate_all_cliques_sublist c :
  c ∈ nx.enumerate_all_cliques G -> c `sublist_of` nx.nodes G.
Proof.
  intros Hc.
  assert (Hall : Forall (fun base => exists cnbrs : list Z,
                          base ++ cnbrs `sublist_of` nx.nodes G)
                        (nx.enumerate_all_cliques G)).
  { eapply (bfs_invariant (fun e => e.1 ++ e.2 `sublist_of` nx.nodes G));
      [| |apply enumerate_all_cliques_eq].
    - intros base cnbrs e Hb He. etrans; [by apply children_sublist|done].
    - apply Forall_forall. apply initial_queue_sublist. }
  rewrite Forall_forall in Hall. destruct (Hall c Hc) as [cn Hsub].
  etrans; [|done]. by apply sublist_inserts_r.
Qed.

(** Every vertex is yielded as a clique of its own. *)
Lemma enumerate_all_cliques_singleton v :
  v ∈ nx.nodes G -> [v] ∈ nx.enumerate_all_cliques G.
Proof.
  intros Hv.
  apply (bfs_yields_queue _ _ _ ([v], nx.sorted_nbrs G v) enumerate_all_cliques_eq).
  unfold nx.initial_queue. apply list_elem_of_fmap. by exists v.
Qed.
End Cliques.

(** * The clique enumeration yields each non-empty clique once *)

Section Order.
Implicit Types (l pre rest : list Z) (u w : Z).

Lemma after_subseteq u w l : w ∈ nx.after u l -> w ∈ l.
Proof.
  induction l as [|x l IH]; simpl; [done|].
  destruct (decide (x = u)); intros Hw; right; [done|by apply IH].
Qed.

(** In a subsequence of [l], what stands at or before [u] does not come
    after [u] in [l]. *)
Lemma not_after l pre u rest w :
  NoDup l -> pre ++ u :: rest `sublist_of` l -> w ∈ pre ++ [u] ->
  w ∉ nx.after u l.
Proof.
  intros Hnd. revert pre. induction l as [|x l IH]; intros pre Hsub Hw.
  - apply sublist_nil_r in Hsub. by destruct pre.
  - apply NoDup_cons in Hnd as [Hx Hnd]. simpl.
    apply sublist_cons_r in Hsub as [Hsub|(s' & Heq & Hsub)].
    + destruct (decide (x = u)) as [->|Hne]; [|by eapply IH].
      exfalso. apply Hx. eapply elem_of_sublist; [|exact Hsub].
      apply elem_of_app. right. left.
    + destruct pre as [|y pre]; simpl in Heq; injection Heq as <- <-.
      * destruct (decide (u = u)); [|done].
        apply list_elem_of_singleton in Hw as ->. done.
      * assert (Hu : u ∈ l).
        { eapply elem_of_sublist; [|exact Hsub]. apply elem_of_app. right. left. }
        destruct (decide (y = u)) as [->|Hne]; [done|].
        simpl in Hw. apply elem_of_cons in Hw as [->|Hw].
        -- intros Hy%after_subseteq. done.
        -- by eapply IH.
Qed.

(** What follows [b] in a subsequence of [l] comes after [b] in [l]. *)
Lemma sublist_cons_after l b rest :
  NoDup l -> b :: rest `sublist_of` l -> rest `sublist_of` nx.after b l.
Proof.
  intros Hnd. induction l as [|x l IH]; intros Hsub.
  - by apply sublist_nil_r in Hsub.
  - apply NoDup_cons in Hnd as [Hx Hnd]. simpl.
    apply sublist_cons_r in Hsub as [Hsub|(s' & [= <- <-] & Hsub)].
    + destruct (decide (x = b)) as [->|Hne]; [|by apply IH].
      exfalso. apply Hx. eapply elem_of_sublist; [|exact Hsub]. left.
    + by destruct (decide (b = b)).
Qed.
End Order.

Section LevelOrder.
Variable G : nx.Graph.
Hypothesis G_nodes : NoDup (nx.nodes G).
Implicit Types (base cnbrs c : list Z) (e : list Z * list Z)
         (queue : list (list Z * list Z)).

Lemma in_nbrs_after u w : nx.in_nbrs G u w -> w ∈ nx.after u (nx.nodes G).
Proof.
  unfold nx.in_nbrs, nx.sorted_nbrs. by intros [_ ?]%list_elem_of_filter.
Qed.

Lemma in_nbrs_neighbors u w : nx.in_nbrs G u w -> w ∈ nx.neighbors G u.
Proof.
  unfold nx.in_nbrs, nx.sorted_nbrs. by intros [? _]%list_elem_of_filter.
Qed.

Lemma elem_of_children base cnbrs e :
  e ∈ nx.children G base cnbrs <->
  exists pre u rest,
    cnbrs = pre ++ u :: rest /\
    e = (base ++ [u], filter (nx.in_nbrs G u) rest).
Proof.
  induction cnbrs as [|x cnbrs IH]; simpl.
  - split; [by intros ?%elem_of_nil|]. intros (pre & u & rest & Heq & _).
    by destruct pre.
  - rewrite elem_of_cons, IH. split.
    + intros [->|(pre & u & rest & -> & ->)].
      * by exists [], x, cnbrs.
      * by exists (x :: pre), u, rest.
    + intros (pre & u & rest & Heq & ->). destruct pre as [|y pre].
      * injection Heq as -> ->. by left.
      * injection Heq as -> ->. right. by exists pre, u, rest.
Qed.

Lemma later_clique_snoc c u :
  nx.later_clique G (c ++ [u]) <->
  nx.later_clique G c /\ Forall (fun b => nx.in_nbrs G b u) c.
Proof.
  induction c as [|b c IH]; simpl.
  - split; [done|]. intros _. split; [constructor|done].
  - rewrite IH, Forall_app, Forall_singleton, Forall_cons. tauto.
Qed.

Lemma later_clique_app_l c1 c2 :
  nx.later_clique G (c1 ++ c2) -> nx.later_clique G c1.
Proof.
  induction c1 as [|b c1 IH]; simpl; [done|].
  intros [Hall Hc]. split; [|by apply IH].
  by apply Forall_app in Hall as [? _].
Qed.

Lemma entry_ok_children base cnbrs e :
  nx.entry_ok G (base, cnbrs) -> e ∈ nx.children G base cnbrs -> nx.entry_ok G e.
Proof.
  intros (Hne & Hcl & Hsub & Hmem) (pre & u & rest & -> & ->)%elem_of_children.
  simpl in *. unfold nx.entry_ok. simpl.
  split; [|split; [|split]].
  - by destruct base.
  - apply later_clique_snoc. split; [done|]. apply Hmem.
    apply elem_of_app. right. left.
  - etrans; [apply sublist_filter|]. etrans; [|exact Hsub].
    apply sublist_inserts_l. by apply sublist_cons_r; left.
  - intros w. rewrite list_elem_of_filter, Forall_app, Forall_singleton.
    rewrite <- Hmem. split.
    + intros [Hu Hw]. split; [|done]. apply elem_of_app. right. by right.
    + intros [Hw Hu]. split; [done|].
      apply elem_of_app in Hw as [Hw|Hw].
      * exfalso. apply (not_after (nx.nodes G) pre u rest w); [done|done| |].
        -- apply elem_of_app. by left.
        -- by apply in_nbrs_after.
      * apply elem_of_cons in Hw as [->|Hw]; [|done].
        exfalso. apply (not_after (nx.nodes G) pre u rest u); [done|done| |].
        -- apply elem_of_app. right. left.
        -- by apply in_nbrs_after.
Qed.

Lemma sorted_nbrs_sublist u : nx.sorted_nbrs G u `sublist_of` nx.nodes G.
Proof.
  unfold nx.sorted_nbrs. etrans; [apply sublist_filter|].
  clear. induction (nx.nodes G) as [|x l IH]; simpl; [done|].
  destruct (decide (x = u)); [by apply sublist_cons_r; left|].
  apply sublist_cons_r. by left.
Qed.

Lemma level_ok_initial : nx.level_ok G 1 (nx.initial_queue G).
Proof.
  unfold nx.level_ok, nx.initial_queue. split_and!.
  - apply Forall_forall. intros e (u & -> & Hu)%list_elem_of_fmap.
    split; [done|]. unfold nx.entry_ok. simpl.
    split; [done|]. split; [by split|]. split; [apply sorted_nbrs_sublist|].
    intros w. by rewrite Forall_singleton.
  - rewrite map_map. simpl.
    assert (Inj (=) (=) (fun u : Z => [u])) by (by intros ?? [=]).
    by apply (NoDup_fmap_2 (fun u : Z => [u])).
  - intros c Hlen _ Hc. destruct c as [|u [|??]]; try done.
    rewrite map_map. simpl. apply (list_elem_of_fmap_2 (fun u : Z => [u])).
    apply Hc. left.
Qed.

Lemma elem_of_next_level queue e :
  e ∈ nx.next_level G queue <->
  exists e0, e0 ∈ queue /\ e ∈ nx.children G e0.1 e0.2.
Proof.
  unfold nx.next_level. rewrite elem_of_concat. split.
  - intros (l & He & (e0 & -> & He0)%list_elem_of_fmap). by exists e0.
  - intros (e0 & He0 & He). eexists. split; [done|].
    apply list_elem_of_fmap. by exists e0.
Qed.

Lemma NoDup_children_bases base cnbrs :
  NoDup cnbrs -> NoDup (map fst (nx.children G base cnbrs)).
Proof.
  induction cnbrs as [|u rest IH]; simpl; [constructor|].
  intros [Hu Hnd]%NoDup_cons. apply NoDup_cons. split; [|by apply IH].
  intros (e & Heq & (pre & u' & rest' & -> & ->)%elem_of_children)%list_elem_of_fmap.
  simpl in Heq. apply app_inj_tail in Heq as [_ <-].
  apply Hu. apply elem_of_app. right. left.
Qed.

Lemma NoDup_next_level_bases queue :
  NoDup (map fst queue) ->
  Forall (fun e => NoDup e.2) queue ->
  NoDup (map fst (nx.next_level G queue)).
Proof.
  unfold nx.next_level.
  induction queue as [|e queue IH]; simpl; [constructor|].
  intros [He Hnd]%NoDup_cons [Hc Hall]%Forall_cons.
  rewrite map_app. apply NoDup_app. split_and!.
  - by apply NoDup_children_bases.
  - intros b (e1 & -> & (pre & u & rest & Hcn & ->)%elem_of_children)%list_elem_of_fmap.
    intros (e2 & Heq & Hin)%list_elem_of_fmap.
    apply elem_of_concat in Hin as (l & Hin & (e0 & -> & He0)%list_elem_of_fmap).
    apply elem_of_children in Hin as (pre' & u' & rest' & Hcn' & ->).
    simpl in Heq. apply app_inj_tail in Heq as [Hb _].
    apply He. rewrite Hb. apply list_elem_of_fmap. by exists e0.
  - by apply IH.
Qed.

Lemma level_ok_next k queue :
  (1 <= k)%nat -> nx.level_ok G k queue -> nx.level_ok G (S k) (nx.next_level G queue).
Proof.
  intros Hk (Hall & Hnd & Hcomplete). rewrite Forall_forall in Hall.
  split_and!.
  - apply Forall_forall. intros e (e0 & He0 & He)%elem_of_next_level.
    destruct (Hall e0 He0) as [Hlen Hok]. split.
    + apply elem_of_children in He as (pre & u & rest & _ & ->). simpl.
      rewrite length_app. simpl. lia.
    + eapply entry_ok_children; [|done]. by destruct e0.
  - apply NoDup_next_level_bases; [done|]. apply Forall_forall.
    intros e He. destruct (Hall e He) as [_ (_ & _ & Hsub & _)].
    by eapply sublist_NoDup.
  - intros c Hlen Hcl Hc.
    induction c as [|x c0 _] using rev_ind; [done|].
    rewrite length_app in Hlen. simpl in Hlen.
    apply later_clique_snoc in Hcl as [Hcl Hx].
    assert (Hc0 : c0 ∈ map fst queue).
    { apply Hcomplete; [lia|done|]. intros y Hy. apply Hc, elem_of_app. by left. }
    apply list_elem_of_fmap in Hc0 as ([base cnbrs] & -> & He0). simpl in *.
    destruct (Hall _ He0) as [_ (_ & _ & _ & Hmem)]. simpl in Hmem.
    apply Hmem in Hx. apply list_elem_of_split in Hx as (pre & rest & ->).
    apply list_elem_of_fmap.
    exists (base ++ [x], filter (nx.in_nbrs G x) rest). split; [done|].
    apply elem_of_next_level. exists (base, pre ++ x :: rest). split; [done|].
    simpl. apply elem_of_children. by exists pre, x, rest.
Qed.

(** The queue loop goes through the queue level by level. *)
Lemma bfs_app fuel queue pending out :
  nx.bfs G fuel (queue ++ pending) = Some out ->
  exists out',
    out = map fst queue ++ out' /\
    nx.bfs G (fuel - length queue) (pending ++ nx.next_level G queue) = Some out'.
Proof.
  revert fuel pending out.
  induction queue as [|[base cnbrs] queue IH]; intros fuel pending out; simpl.
  - intros Hout. exists out. split; [done|].
    unfold nx.next_level. simpl. by rewrite app_nil_r, Nat.sub_0_r.
  - destruct fuel as [|fuel]; [done|].
    intros (out1 & Hout1 & ->)%fmap_Some. rewrite <- app_assoc in Hout1.
    apply IH in Hout1 as (out' & -> & Hout').
    exists out'. split; [done|].
    unfold nx.next_level in *. simpl. by rewrite <- app_assoc in Hout'.
Qed.

Lemma bfs_level_order fuel : forall k queue out,
  (1 <= k)%nat -> nx.level_ok G k queue ->
  nx.bfs G fuel queue = Some out ->
  NoDup out /\
  (forall c, c ∈ out -> nx.later_clique G c /\ (k <= length c)%nat) /\
  (forall c, (k <= length c)%nat -> nx.later_clique G c -> c ⊆ nx.nodes G -> c ∈ out).
Proof.
  induction fuel as [fuel IH] using lt_wf_ind. intros k queue out Hk Hlevel Hout.
  destruct queue as [|e queue].
  - assert (out = []) as -> by (destruct fuel; by injection Hout).
    split_and!; [constructor|by intros c ?%elem_of_nil|].
    intros c Hlen Hcl Hc. exfalso.
    destruct Hlevel as (_ & _ & Hcomplete).
    specialize (Hcomplete (take k c)). simpl in Hcomplete.
    eapply elem_of_nil, Hcomplete.
    + rewrite length_take. lia.
    + apply (later_clique_app_l _ (drop k c)). by rewrite take_drop.
    + intros y Hy. apply Hc. eapply elem_of_sublist; [done|apply sublist_take].
  - assert (Hfuel : (0 < fuel)%nat).
    { destruct fuel; [by destruct e|lia]. }
    rewrite <- (app_nil_r (e :: queue)) in Hout.
    apply bfs_app in Hout as (out' & -> & Hout'). simpl app in Hout'.
    pose proof (level_ok_next k _ Hk Hlevel) as Hnext.
    assert (Hless : (fuel - length (e :: queue) < fuel)%nat) by (simpl; lia).
    assert (Hk' : (1 <= S k)%nat) by lia.
    destruct (IH _ Hless (S k) _ _ Hk' Hnext Hout') as (Hnd' & Hsound' & Hcomplete').
    destruct Hlevel as (Hall & Hnd & Hcomplete). rewrite Forall_forall in Hall.
    assert (Hbases : forall c, c ∈ map fst (e :: queue) ->
              nx.later_clique G c /\ length c = k).
    { intros c (e0 & -> & He0)%list_elem_of_fmap.
      destruct (Hall e0 He0) as [? (_ & ? & _)]. done. }
    split_and!.
    + apply NoDup_app. split_and!; [done| |done].
      intros c Hc Hc'. apply Hbases in Hc as [_ Hlen].
      apply Hsound' in Hc' as [_ Hlen']. lia.
    + intros c [Hc|Hc]%elem_of_app.
      * apply Hbases in Hc as [? ?]. split; [done|lia].
      * apply Hsound' in Hc as [? ?]. split; [done|lia].
    + intros c Hlen Hcl Hc. apply elem_of_app.
      destruct (decide (length c = k)) as [Heq|Hne].
      * left. by apply Hcomplete.
      * right. apply Hcomplete'; [lia|done|done].
Qed.
End LevelOrder.

Section CliqueSpec.
Variable G : nx.Graph.
Hypothesis G_wf : nx.wf G.

Lemma later_clique_is_clique c : nx.later_clique G c -> nx.is_clique G c.
Proof.
  induction c as [|b rest IH]; simpl.
  - intros _ u v Hu. by apply elem_of_nil in Hu.
  - intros [Hall Hrest]. rewrite Forall_forall in Hall.
    intros u v [->|Hu]%elem_of_cons [->|Hv]%elem_of_cons Hne.
    + done.
    + by apply in_nbrs_neighbors, Hall.
    + by apply (nx.wf_sym G G_wf), in_nbrs_neighbors, Hall.
    + by apply IH.
Qed.

Lemma is_clique_later_clique c :
  c `sublist_of` nx.nodes G -> nx.is_clique G c -> nx.later_clique G c.
Proof.
  pose proof (nx.wf_nodes G G_wf) as Hnd.
  induction c as [|b rest IH]; simpl; [done|].
  intros Hsub Hcl.
  assert (Hc : NoDup (b :: rest)) by (by eapply sublist_NoDup).
  apply NoDup_cons in Hc as [Hb _]. split.
  - apply Forall_forall. intros w Hw.
    unfold nx.in_nbrs, nx.sorted_nbrs. apply list_elem_of_filter. split.
    + apply Hcl; [left|by right|]. intros ->. done.
    + eapply elem_of_sublist; [done|]. by apply sublist_cons_after.
  - apply IH.
    + etrans; [|done]. by apply sublist_cons_r; left.
    + intros u v Hu Hv. apply Hcl; by right.
Qed.

(** What the enumeration yields, for every graph the program can build:
    each non-empty clique once, as the list of its vertices in the node
    order of the graph, and nothing else. *)
Lemma enumerate_all_cliques_spec :
  NoDup (nx.enumerate_all_cliques G) /\
  forall c, c ∈ nx.enumerate_all_cliques G <->
            c <> [] /\ c `sublist_of` nx.nodes G /\ nx.is_clique G c.
Proof.
  pose proof (nx.wf_nodes G G_wf) as Hnd.
  destruct (bfs_level_order G Hnd _ 1 _ _ (le_n 1) (level_ok_initial G Hnd)
              (enumerate_all_cliques_eq G)) as (Hnodup & Hsound & Hcomplete).
  split; [done|]. intros c. split.
  - intros Hc. split_and!.
    + by eapply enumerate_all_cliques_nonempty.
    + by apply enumerate_all_cliques_sublist.
    + apply later_clique_is_clique. by apply Hsound.
  - intros (Hne & Hsub & Hcl). apply Hcomplete.
    + destruct c; [done|simpl; lia].
    + by apply is_clique_later_clique.
    + by apply sublist_subseteq.
Qed.
End CliqueSpec.

(** C3: the empty set of vertices is a clique of every graph, and the
    enumeration never yields it; every vertex is yielded as a singleton.
    On the path 0 - 1 - 2 the enumeration yields the three vertices and
    the two edges. *)
Theorem enumerate_all_cliques_omits_empty_clique (G : nx.Graph) :
  nx.is_clique G [] /\
  ([] ∉ nx.enumerate_all_cliques G) /\
  (forall v, v ∈ nx.nodes G -> [v] ∈ nx.enumerate_all_cliques G) /\
  nx.enumerate_all_cliques path3 = [[0]; [1]; [2]; [0; 1]; [1; 2]].
Proof.
  split_and!.
  - intros u v Hu. by apply elem_of_nil in Hu.
  - intros Hin. by apply enumerate_all_cliques_nonempty in Hin.
  - apply enumerate_all_cliques_singleton.
  - by vm_compute.
Qed.

(** * The fractional clique cover model *)

Section CoverModel.
Implicit Types (G : nx.Graph) (xs : dict Subset Z).

Lemma dict_keys_LpVariable_dicts xs :
  dict_keys (LpVariable_dicts xs) = dict_keys xs.
Proof.
  unfold LpVariable_dicts, dict_keys.
  induction xs as [|[k z] xs IH]; simpl; [done|]. by f_equal.
Qed.

Lemma dict_values_LpVariable_dicts xs :
  dict_values (LpVariable_dicts xs) = map variable (dict_keys xs).
Proof.
  unfold LpVariable_dicts, dict_values, dict_keys.
  induction xs as [|[k z] xs IH]; simpl; [done|]. by f_equal.
Qed.

Lemma dict_get_LpVariable_dicts xs k :
  k ∈ dict_keys xs -> dict_get k (LpVariable_dicts xs) = Ok (variable k).
Proof.
  induction xs as [|[k' z] xs IH]; simpl; [by intros ?%elem_of_nil|].
  destruct (decide (k' = k)) as [->|Hne]; [done|].
  intros [?|Hk]%elem_of_cons; [congruence|by apply IH].
Qed.

Lemma mapR_Ok {A B} (f : A -> result B) (g : A -> B) (l : list A) :
  (forall x, x ∈ l -> f x = Ok (g x)) -> mapR f l = Ok (map g l).
Proof.
  induction l as [|x l IH]; intros Hf; simpl; [done|].
  rewrite Hf by left. simpl. rewrite IH; [done|].
  intros y Hy. apply Hf. by right.
Qed.

Lemma foldM_add_constraints {A} (f : A -> result LpConstraint)
      (g : A -> LpConstraint) (l : list A) (prob : LpProblem) :
  (forall x, x ∈ l -> f x = Ok (g x)) ->
  foldM (fun prob x => c ← f x; mret (add_constraint prob c)) prob l
  = Ok {| sense := sense prob; objective := objective prob;
          constraints := constraints prob ++ map g l |}.
Proof.
  revert prob. induction l as [|x l IH]; intros prob Hf; simpl.
  - rewrite app_nil_r. by destruct prob.
  - rewrite Hf by left. simpl. rewrite IH.
    + simpl. by rewrite <- app_assoc.
    + intros y Hy. apply Hf. by right.
Qed.

Lemma lpSum_terms (vs : list LpVariable) :
  lpSum (map term vs) = map (fun v => (v, 1)) vs.
Proof. unfold lpSum. induction vs as [|v vs IH]; simpl; [done|]. by f_equal. Qed.

Lemma sum_of_eq (ks : list Subset) :
  lpSum (map term (map variable ks)) = sum_of ks.
Proof. rewrite lpSum_terms. unfold sum_of. by rewrite map_map. Qed.

(** The model the cover function hands to the solver. *)
Lemma fractional_clique_cover_model_eq G :
  nx.wf G ->
  fractional_clique_cover_model G
  = Ok ({| sense := LpMinimize;
           objective := sum_of (dict_keys (subset_space G));
           constraints := map (cover_constraint G) (nx.nodes G) |},
        LpVariable_dicts (subset_space G)).
Proof.
  intros [Hnd Hcl _]. unfold fractional_clique_cover_model.
  rewrite dict_values_LpVariable_dicts, sum_of_eq.
  match goal with
  | |- context [foldM ?body ?p ?l] =>
      replace (foldM body p l)
        with (foldM (fun prob x =>
                c ← (fun vertex =>
                       vars ← mapR (fun x => dict_get x (LpVariable_dicts (subset_space G)))
                                   (filter (fun clique => vertex ∈ clique)
                                           (nx.enumerate_all_cliques G));
                       mret {| lhs := lpSum (map term vars);
                               csense := LpConstraintGE; rhs := 1 |}) x;
                mret (add_constraint prob c)) p l)
  end.
  - rewrite (foldM_add_constraints _ (cover_constraint G)); [done|].
    intros v Hv. rewrite (mapR_Ok _ variable).
    + simpl. unfold cover_constraint. by rewrite sum_of_eq.
    + intros c [_ Hc]%list_elem_of_filter.
      apply dict_get_LpVariable_dicts, elem_of_subset_space; [done|].
      by apply enumerate_all_cliques_sublist.
  - generalize (nx.nodes G). intros l.
    match goal with |- foldM _ ?p _ = _ => generalize p end.
    induction l as [|v l IH]; intros p; simpl; [done|].
    destruct (mapR _ _); simpl; [apply IH|done].
Qed.

Lemma length_sum_of ks : length (sum_of ks) = length ks.
Proof. unfold sum_of. by rewrite length_map. Qed.
End CoverModel.

(** C4: the cover model minimises the sum of the variables of all [2^n]
    subsets, under one constraint per vertex [v]: the variables of the
    enumerated cliques containing [v] sum to at least 1, where these are
    the cliques of the graph that contain [v], each taken once.  No
    constraint is an equality. *)
Theorem fractional_clique_cover_model_spec (G : nx.Graph) :
  nx.wf G ->
  exists prob lp_xs,
    fractional_clique_cover_model G = Ok (prob, lp_xs) /\
    sense prob = LpMinimize /\
    objective prob = sum_of (dict_keys (subset_space G)) /\
    length (objective prob) = (2 ^ length (nx.nodes G))%nat /\
    constraints prob = map (cover_constraint G) (nx.nodes G) /\
    length (constraints prob) = length (nx.nodes G) /\
    Forall (fun c => csense c <> LpConstraintEQ) (constraints prob) /\
    (forall v, NoDup (cliques_containing G v)) /\
    (forall v c, c ∈ cliques_containing G v <->
                 v ∈ c /\ c `sublist_of` nx.nodes G /\ nx.is_clique G c).
Proof.
  intros HG. eexists _, _. split; [by apply fractional_clique_cover_model_eq|].
  destruct (enumerate_all_cliques_spec G HG) as [Hnd Hspec].
  simpl. split_and!; try done.
  - rewrite length_sum_of. apply subset_space_spec. by destruct HG.
  - by rewrite length_map.
  - apply Forall_forall. by intros c (v & -> & _)%list_elem_of_fmap.
  - intros v. by apply NoDup_filter.
  - intros v c. unfold cliques_containing. rewrite list_elem_of_filter, Hspec.
    split; [tauto|]. intros (Hv & Hsub & Hcl). split_and!; try done.
    intros ->. by apply elem_of_nil in Hv.
Qed.

Lemma path3_wf : nx.wf path3.
Proof. apply wf_add_edge, wf_add_edge, wf_add_nodes_from, wf_empty. Qed.

Lemma fractional_clique_cover_model_spec_witness :
  exists prob lp_xs,
    fractional_clique_cover_model path3 = Ok (prob, lp_xs) /\
    sense prob = LpMinimize /\
    objective prob = sum_of (dict_keys (subset_space path3)) /\
    length (objective prob) = (2 ^ length (nx.nodes path3))%nat /\
    constraints prob = map (cover_constraint path3) (nx.nodes path3) /\
    length (constraints prob) = length (nx.nodes path3) /\
    Forall (fun c => csense c <> LpConstraintEQ) (constraints prob) /\
    (forall v, NoDup (cliques_containing path3 v)) /\
    (forall v c, c ∈ cliques_containing path3 v <->
                 v ∈ c /\ c `sublist_of` nx.nodes path3 /\ nx.is_clique path3 c).
Proof. apply (fractional_clique_cover_model_spec path3), path3_wf. Defined.

(** * Feasibility of the cover model *)

Section Feasible.
Local Open Scope Q_scope.

Lemma eval_sum_of_nonneg (w : assignment) ks :
  (forall k, 0 <= w k) -> 0 <= eval w (sum_of ks).
Proof.
  intros Hw. induction ks as [|k ks IH]; simpl; [lra|].
  specialize (Hw k). unfold inject_Z. lra.
Qed.

Lemma eval_sum_of_member (w : assignment) ks k :
  (forall k, 0 <= w k) -> k ∈ ks -> w k <= eval w (sum_of ks).
Proof.
  intros Hw. induction ks as [|k' ks IH]; simpl; [by intros ?%elem_of_nil|].
  intros [->|Hk]%elem_of_cons.
  - pose proof (eval_sum_of_nonneg w ks Hw). unfold inject_Z. lra.
  - specialize (IH Hk). specialize (Hw k'). unfold inject_Z. lra.
Qed.

Lemma all_singletons_nonneg k : 0 <= all_singletons k.
Proof. unfold all_singletons. destruct (decide _); lra. Qed.
End Feasible.

(** C5: for every graph with at least one vertex the cover model is
    built, and weight 1 on every singleton with 0 elsewhere satisfies all
    its constraints and the lower bounds of all its variables. *)
Theorem fractional_clique_cover_feasible (G : nx.Graph) :
  nx.wf G -> nx.nodes G <> [] ->
  exists prob lp_xs,
    fractional_clique_cover_model G = Ok (prob, lp_xs) /\
    feasible prob lp_xs all_singletons.
Proof.
  intros HG _. eexists _, _. split; [by apply fractional_clique_cover_model_eq|].
  split; simpl.
  - apply Forall_forall. intros c (v & -> & Hv)%list_elem_of_fmap.
    unfold holds. simpl.
    eapply Qle_trans; [|apply (eval_sum_of_member _ _ [v]);
                         [apply all_singletons_nonneg|]].
    + by vm_compute.
    + apply list_elem_of_filter. split; [left|].
      by apply enumerate_all_cliques_singleton.
  - rewrite dict_values_LpVariable_dicts. apply Forall_forall.
    intros x (k & -> & _)%list_elem_of_fmap. split; simpl; [|done].
    apply all_singletons_nonneg.
Qed.

Lemma fractional_clique_cover_feasible_witness :
  exists prob lp_xs,
    fractional_clique_cover_model path3 = Ok (prob, lp_xs) /\
    feasible prob lp_xs all_singletons.
Proof.
  apply (fractional_clique_cover_feasible path3); [apply path3_wf|].
  by vm_compute.
Defined.

(** * The Shannon entropy model: which pairs get a constraint *)

Section Checking.
Lemma holds_b_correct (w : assignment) (c : LpConstraint) :
  holds_b w c = true -> holds w c.
Proof.
  unfold holds_b, holds. destruct (csense c).
  - apply Qle_bool_iff.
  - apply Qeq_bool_iff.
  - apply Qle_bool_iff.
Qed.

Lemma in_bounds_b_correct (w : assignment) (v : LpVariable) :
  in_bounds_b w v = true -> in_bounds w v.
Proof.
  unfold in_bounds_b, in_bounds. intros [Hl Hu]%andb_prop. split.
  - destruct (lowBound v); [by apply Qle_bool_iff|done].
  - destruct (upBound v); [by apply Qle_bool_iff|done].
Qed.

Lemma forallb_Forall {A} (f : A -> bool) (P : A -> Prop) (l : list A) :
  (forall x, f x = true -> P x) -> forallb f l = true -> Forall P l.
Proof.
  intros Hf. induction l as [|x l IH]; simpl; [constructor|].
  intros [Hx Hl]%andb_prop. constructor; [by apply Hf|by apply IH].
Qed.
End Checking.

(** C1 on the complete graph on two vertices: the model is built, its
    pairwise constraints are those of the three pairs among the empty
    set and the two singletons, and none of the three pairs that involve
    the full vertex set [(0, 1)] gets its monotonicity constraint. *)
Theorem shannon_entropy_pairs_skip_full_set :
  exists prob lp_xs,
    shannon_entropy_model k2 = Ok (prob, lp_xs) /\
    dict_keys lp_xs = [[]; [0]; [1]; [0; 1]] /\
    filter (fun c => csense c = LpConstraintGE) (constraints prob)
    = [monotonicity_constraint [] [0];
       monotonicity_constraint [] [1];
       submodularity_constraint [0] [1]] /\
    forall S, S ∈ dict_keys lp_xs -> S <> [0; 1] ->
      S ⊆ [0; 1] /\
      (monotonicity_constraint S [0; 1] ∉ constraints prob) /\
      (submodularity_constraint S [0; 1] ∉ constraints prob).
Proof.
  eexists _, _. split; [by vm_compute|].
  match goal with
  | |- dict_keys ?l = _ /\ _ =>
      assert (Hk : dict_keys l = [[]; [0]; [1]; [0; 1]]) by (by vm_compute)
  end.
  split; [exact Hk|]. split; [by vm_compute|].
  intros S HS Hne. change (S ∈ [[]; [0]; [1]; [0; 1]]) in HS.
  assert (HS' : S = [] \/ S = [0] \/ S = [1]).
  { rewrite !elem_of_cons, elem_of_nil in HS. tauto. }
  destruct HS' as [->|[->| ->]]; split_and!;
    apply (bool_decide_unpack _); by vm_compute.
Qed.

(** * The full vertex set takes part in no pairwise constraint *)

Section FullSet.
Import itertools.

Lemma combinations_full {A} (l : list A) : combinations l (length l) = [l].
Proof.
  induction l as [|x l IH]; simpl; [done|].
  rewrite IH, length_combinations_gt by lia. done.
Qed.

Lemma last_subsets_by_size {A} (l : list A) :
  last (subsets_by_size l (length l + 1)) = Some l.
Proof.
  unfold subsets_by_size. rewrite seq_app, map_app, concat_app. simpl.
  rewrite combinations_full, app_nil_r. apply last_snoc.
Qed.

Lemma last_key_subset_space G :
  NoDup (nx.nodes G) -> last (dict_keys (subset_space G)) = Some (nx.nodes G).
Proof. intros Hnd. rewrite subset_space_keys by done. apply last_subsets_by_size. Qed.

Lemma foldM_invariant {A B} (I : B -> Prop) (body : B -> A -> result B) l acc r :
  I acc ->
  (forall acc x acc', x ∈ l -> I acc -> body acc x = Ok acc' -> I acc') ->
  foldM body acc l = Ok r -> I r.
Proof.
  revert acc. induction l as [|x l IH]; simpl; intros acc Hacc Hstep.
  - by intros [= <-].
  - destruct (body acc x) as [acc'|e] eqn:Hb; simpl; [|done].
    apply IH.
    + eapply Hstep; [left|done|done].
    + intros a y a' Hy. apply Hstep. by right.
Qed.

Lemma foldl_invariant {A B} (I : B -> Prop) (body : B -> A -> B) l acc :
  I acc -> (forall acc x, I acc -> I (body acc x)) -> I (foldl body acc l).
Proof.
  revert acc. induction l as [|x l IH]; simpl; intros acc Hacc Hstep; [done|].
  apply IH; [by apply Hstep|done].
Qed.

Lemma dict_get_variable xs k v :
  dict_get k (LpVariable_dicts xs) = Ok v -> v = variable k.
Proof.
  induction xs as [|[k' z] xs IH]; simpl; [done|].
  destruct (decide (k' = k)) as [->|]; [by intros [= <-]|done].
Qed.

Lemma free_of_add V prob c :
  free_of V prob -> (forall S, c <> monotonicity_constraint S V) ->
  free_of V (add_constraint prob c).
Proof.
  intros Hfree Hc S. simpl. intros [Hin|Hin%list_elem_of_singleton]%elem_of_app.
  - by eapply Hfree.
  - by eapply Hc.
Qed.

Lemma pair_constraints_free V lp_xs xs prob S T prob' :
  lp_xs = LpVariable_dicts xs -> T <> V ->
  free_of V prob -> pair_constraints lp_xs prob S T = Ok prob' -> free_of V prob'.
Proof.
  intros -> HT Hfree. unfold pair_constraints.
  destruct (decide (S ⊆ T)) as [Hsub|Hsub]; simpl.
  - destruct (dict_get T _) as [xT|] eqn:HxT; simpl; [|intros [=]].
    destruct (dict_get S _) as [xS|] eqn:HxS; simpl; [|intros [=]].
    destruct (decide (~ S ⊆ T)); [contradiction|]. intros [= <-].
    apply dict_get_variable in HxT as ->. apply dict_get_variable in HxS as ->.
    apply free_of_add; [done|]. intros S'. unfold monotonicity_constraint, variable.
    cbn. intros [=]. done.
  - destruct (decide (~ S ⊆ T)); [|contradiction].
    destruct (dict_get S _) as [xS|]; simpl; [|intros [=]].
    destruct (dict_get T _) as [xT|]; simpl; [|intros [=]].
    destruct (dict_get (py_sorted (remove_dups (S ++ T))) _) as [xU|];
      simpl; [|intros [=]].
    destruct (dict_get (py_sorted (filter _ S)) _) as [xI|]; simpl; [|intros [=]].
    intros [= <-]. apply free_of_add; [done|]. intros S'.
    unfold monotonicity_constraint. cbn. intros [=].
Qed.

Lemma pairwise_loop_free V xs lp_xs prob prob' :
  lp_xs = LpVariable_dicts xs -> NoDup (dict_keys xs) ->
  last (dict_keys xs) = Some V ->
  free_of V prob -> pairwise_loop xs lp_xs prob = Ok prob' -> free_of V prob'.
Proof.
  intros Hlp Hnd Hlast Hfree. unfold pairwise_loop.
  assert (Hlen : length xs = length (dict_keys xs))
    by (unfold dict_keys; by rewrite length_fmap).
  rewrite last_lookup in Hlast.
  apply (foldM_invariant (free_of V)); [done|].
  intros acc x acc' Hx Hacc.
  destruct (py_index (dict_keys xs) x) as [S|]; simpl; [|intros [=]].
  apply (foldM_invariant (free_of V)); [done|].
  intros acc1 y acc1' Hy Hacc1. unfold py_index.
  destruct (dict_keys xs !! y) as [T|] eqn:HT; simpl; [|intros [=]].
  apply (pair_constraints_free V lp_xs xs); [done| |done].
  intros ->. unfold range in Hy. apply elem_of_seq in Hy.
  pose proof (NoDup_lookup _ _ _ _ Hnd HT Hlast). lia.
Qed.

(** Case analysis on the outermost computation that may raise. *)
Ltac case_bind :=
  lazymatch goal with
  | |- context [mbind _ ?m] => destruct m eqn:?; simpl
  end.

Lemma neighbourhood_constraint_sense G lp_xs v c :
  neighbourhood_constraint G lp_xs v = Ok c -> csense c = LpConstraintEQ.
Proof.
  unfold neighbourhood_constraint.
  case_bind; [|intros [=]]. case_bind; [|intros [=]]. by intros [= <-].
Qed.

(** For every graph, no constraint of the entropy model is the
    monotonicity constraint of a subset inside the full vertex set. *)
Lemma shannon_entropy_model_free_of_full_set (G : nx.Graph) (S : Subset) :
  NoDup (nx.nodes G) ->
  monotonicity_constraint S (nx.nodes G)
    ∉ model_constraints (shannon_entropy_model G).
Proof.
  intros Hnd. unfold shannon_entropy_model.
  rewrite last_key_subset_space by done. simpl.
  case_bind; [|apply not_elem_of_nil].
  case_bind; [|apply not_elem_of_nil].
  case_bind; [|apply not_elem_of_nil].
  case_bind; [|apply not_elem_of_nil].
  match goal with
  | H : pairwise_loop _ _ _ = Ok ?p |- _ =>
      revert S; change (free_of (nx.nodes G) p);
      eapply pairwise_loop_free; [done| | | |exact H]
  end.
  - by apply subset_space_spec.
  - by apply last_key_subset_space.
  - match goal with H : foldM _ _ _ = Ok _ |- _ => revert H end.
    apply foldM_invariant.
    + apply foldl_invariant.
      * apply free_of_add; [|done]. intros S Hin. by apply elem_of_nil in Hin.
      * intros acc item Hacc. destruct (decide (length item.1 = 1%nat)); [|done].
        by apply free_of_add.
    + intros acc v acc' _ Hacc.
      destruct (neighbourhood_constraint _ _ v) as [c|] eqn:Hc;
        simpl; [|intros [=]].
      apply neighbourhood_constraint_sense in Hc.
      intros [= <-]. apply free_of_add; [done|]. intros S' ->. done.
Qed.
End FullSet.

(** * The Shannon entropy model: an optimum that is not monotone *)

(** On the complete bipartite graph [k23] the model is built, the
    assignment [k23_weights] satisfies all its constraints and bounds and
    attains the largest objective value any such assignment has, and yet it
    gives the subset [(2, 3, 4)] a larger value than the full vertex set:
    the model does not force an optimal solution to be monotone at the
    full vertex set. *)
Lemma shannon_entropy_optimum_not_monotone :
  exists prob lp_xs,
    shannon_entropy_model k23 = Ok (prob, lp_xs) /\
    optimal prob lp_xs k23_weights /\
    [2; 3; 4] ⊆ [0; 1; 2; 3; 4] /\
    Qlt (k23_weights [0; 1; 2; 3; 4]) (k23_weights [2; 3; 4]).
Proof.
  destruct (shannon_entropy_model k23) as [[prob lp_xs]|e] eqn:Hmodel;
    [|by vm_compute in Hmodel].
  exists prob, lp_xs. split; [done|].
  assert (Hcs : constraints prob = model_constraints (shannon_entropy_model k23))
    by (by rewrite Hmodel).
  assert (Hobj : objective prob = [(variable [0; 1; 2; 3; 4], 1)]).
  { assert (Some (objective prob)
            = match shannon_entropy_model k23 with
              | Ok m => Some (objective m.1) | Raise _ => None end) as Ho
      by (by rewrite Hmodel).
    vm_compute in Ho. by injection Ho. }
  assert (Hsense : sense prob = LpMaximize).
  { assert (Some (sense prob)
            = match shannon_entropy_model k23 with
              | Ok m => Some (sense m.1) | Raise _ => None end) as Ho
      by (by rewrite Hmodel).
    vm_compute in Ho. by injection Ho. }
  assert (Hvars : dict_values lp_xs
                  = match shannon_entropy_model k23 with
                    | Ok m => dict_values m.2 | Raise _ => [] end)
    by (by rewrite Hmodel).
  split_and!.
  - split.
    + split.
      * rewrite Hcs. apply (forallb_Forall (holds_b k23_weights)).
        -- apply holds_b_correct.
        -- by vm_compute.
      * rewrite Hvars. apply (forallb_Forall (in_bounds_b k23_weights)).
        -- apply in_bounds_b_correct.
        -- by vm_compute.
    + intros w [Hw _]. rewrite Hsense, Hobj. rewrite Hcs in Hw.
      clear Hcs Hvars Hmodel Hobj Hsense.
      rewrite Forall_forall in Hw.
      assert (H0 : holds w {| lhs := [(variable [], 1)];
                              csense := LpConstraintEQ; rhs := 0 |}).
      { apply Hw, (bool_decide_unpack _). by vm_compute. }
      assert (H1 : holds w {| lhs := [(variable [0], 1)];
                              csense := LpConstraintLE; rhs := 1 |}).
      { apply Hw, (bool_decide_unpack _). by vm_compute. }
      assert (H2 : holds w {| lhs := [(variable [1], 1)];
                              csense := LpConstraintLE; rhs := 1 |}).
      { apply Hw, (bool_decide_unpack _). by vm_compute. }
      assert (H3 : holds w {| lhs := [(variable [0], 1); (variable [1], 1);
                                      (variable [0; 1], -1); (variable [], -1)];
                              csense := LpConstraintGE; rhs := 0 |}).
      { apply Hw, (bool_decide_unpack _). by vm_compute. }
      assert (H4 : holds w {| lhs := [(variable [0; 1; 2], 1); (variable [0; 1], -1)];
                              csense := LpConstraintEQ; rhs := 0 |}).
      { apply Hw, (bool_decide_unpack _). by vm_compute. }
      assert (H5 : holds w {| lhs := [(variable [0; 1; 3], 1); (variable [0; 1], -1)];
                              csense := LpConstraintEQ; rhs := 0 |}).
      { apply Hw, (bool_decide_unpack _). by vm_compute. }
      assert (H6 : holds w {| lhs := [(variable [0; 1; 4], 1); (variable [0; 1], -1)];
                              csense := LpConstraintEQ; rhs := 0 |}).
      { apply Hw, (bool_decide_unpack _). by vm_compute. }
      assert (H7 : holds w {| lhs := [(variable [0; 1; 2], 1); (variable [0; 1; 3], 1);
                                      (variable [0; 1; 2; 3], -1); (variable [0; 1], -1)];
                              csense := LpConstraintGE; rhs := 0 |}).
      { apply Hw, (bool_decide_unpack _). by vm_compute. }
      assert (H8 : holds w {| lhs := [(variable [0; 1; 4], 1); (variable [0; 1; 2; 3], 1);
                                      (variable [0; 1; 2; 3; 4], -1); (variable [0; 1], -1)];
                              csense := LpConstraintGE; rhs := 0 |}).
      { apply Hw, (bool_decide_unpack _). by vm_compute. }
      clear Hw.
      unfold holds in *.
      cbn [csense lhs rhs eval foldr fst snd var_key variable] in *.
      change (k23_weights [0; 1; 2; 3; 4]) with 2%Q.
      unfold inject_Z in *. lra.
  - apply (bool_decide_unpack _). by vm_compute.
  - by vm_compute.
Qed.

(** * Reporting does not look at the status *)

Section Report.
Implicit Types (sol : solution) (lp_xs : dict Subset LpVariable).

Lemma trace_emit_bind {A} (e : event) (k : unit -> io A) :
  trace (emit e ≫= k) = e :: trace (k tt).
Proof. done. Qed.

Lemma outcome_emit_bind {A} (e : event) (k : unit -> io A) :
  outcome (emit e ≫= k) = outcome (k tt).
Proof. done. Qed.
End Report.

(** C6, as the code has it: after solving, each function prints the
    status and then reads the values and turns the result into a
    rational whatever the status is: changing the status of the solver's
    outcome changes the printed status and nothing else. *)
Theorem report_ignores_status (lp_xs : dict Subset LpVariable)
        (sol : solution) (st : LpStatus) :
  (trace (fcc_report lp_xs (with_status st sol))
     = EvPrintStatus st :: tail (trace (fcc_report lp_xs sol)) /\
   outcome (fcc_report lp_xs (with_status st sol))
     = outcome (fcc_report lp_xs sol)) /\
  (trace (entropy_report lp_xs (with_status st sol))
     = EvPrintStatus st :: tail (trace (entropy_report lp_xs sol)) /\
   outcome (entropy_report lp_xs (with_status st sol))
     = outcome (entropy_report lp_xs sol)).
Proof.
  unfold fcc_report, entropy_report.
  rewrite !trace_emit_bind, !outcome_emit_bind. done.
Qed.

(** With a status that is not optimal, both functions still read values
    and still compute a rational from them. *)
Lemma report_extracts_when_infeasible :
  status infeasible_solution <> LpStatusOptimal /\
  (let r := fcc_report (LpVariable_dicts (subset_space k2)) infeasible_solution in
   filter (fun e => extracts e = true) (trace r)
     = [EvVarValue []; EvVarValue [0]; EvVarValue [1]; EvVarValue [0; 1];
        EvRational 2%float] /\
   outcome r = Ok {| numerator := 2; denominator := 1 |}) /\
  (let r := entropy_report (LpVariable_dicts (subset_space k2)) infeasible_solution in
   filter (fun e => extracts e = true) (trace r)
     = [EvVarValue [0; 1]; EvRational 0.5%float] /\
   outcome r = Ok {| numerator := 1; denominator := 2 |}).
Proof. split; [done|]. split; by vm_compute. Qed.

(** * Loading *)



(** A first line that [int] rejects makes the body raise. *)
Lemma load_malformed_count fs filename content e :
  fs filename = Some content ->
  text.py_int (text.readline content).1 = Raise e ->
  load_body fs filename = Raise e.
Proof. unfold load_body. by intros -> ->. Qed.

(** A count that is not a number and an edge without a comma make the
    body raise, so [load] returns [None]. *)
Lemma load_malformed_content :
  load_body (one_file "x") "g.txt" = Raise ValueError /\
  load_body (one_file "3
0;1") "g.txt" = Raise IndexError /\
  load (one_file "3
0;1") "g.txt" = PyNone.
Proof. split_and!; by vm_compute. Qed.

(** C7 at two files with two declared vertices: the edge [0,0] is a
    self-loop and the edge [0,5] has an endpoint out of range, and [load]
    returns a graph with that edge for each (and with the vertex [5] for
    the second). *)
Theorem load_accepts_invalid_edges :
  (load self_loop_file "g.txt" = PyGraph [(0, [0]); (1, [])] /\
   0 ∈ nx.neighbors [(0, [0]); (1, [])] 0) /\
  (load out_of_range_file "g.txt" = PyGraph [(0, [5]); (1, []); (5, [0])] /\
   5 ∈ nx.neighbors [(0, [5]); (1, []); (5, [0])] 0 /\
   5 ∈ nx.nodes [(0, [5]); (1, []); (5, [0])]).
Proof.
  split_and!; try (by vm_compute); apply (bool_decide_unpack _); by vm_compute.
Qed.

(** * The menu loop after a failed load *)



(** * Exact rationals *)

Section FractionFacts.
Implicit Types (a b : Fraction).

Lemma to_pos_id (d : Z) : 0 < d -> Z.pos (Z.to_pos d) = d.
Proof. intros. by apply Z2Pos.id. Qed.

Lemma gcd_of_det (a b u v : Z) :
  a * u + b * v = 1 \/ a * u + b * v = -1 -> Z.gcd a b = 1.
Proof.
  intros Hdet.
  pose proof (Z.gcd_nonneg a b) as Hnn.
  destruct (Z.gcd_divide_l a b) as [x Hx], (Z.gcd_divide_r a b) as [y Hy].
  assert (Hdiv : (Z.gcd a b | 1)).
  { destruct Hdet as [Hd|Hd].
    - exists (x * u + y * v). rewrite <- Hd at 1.
      rewrite Hx at 1. rewrite Hy at 2. ring.
    - exists (- (x * u + y * v)).
      replace 1 with (- (a * u + b * v)) at 1 by lia.
      rewrite Hx at 1. rewrite Hy at 2. ring. }
  apply Z.divide_1_r_nonneg in Hdiv; lia.
Qed.

Lemma make_lowest (n d : Z) :
  0 < d -> Z.gcd n d = 1 -> make n d = Ok {| numerator := n; denominator := d |}.
Proof.
  intros Hd Hg. unfold make.
  destruct (decide (d = 0)); [lia|]. destruct (decide (d < 0)); [lia|].
  by rewrite Hg, !Z.div_1_r.
Qed.

Lemma make_valid (n d : Z) a :
  0 < d -> make n d = Ok a ->
  valid a /\ numerator a * d = n * denominator a.
Proof.
  intros Hd. unfold make.
  destruct (decide (d = 0)); [lia|]. destruct (decide (d < 0)); [lia|].
  intros [= <-]. unfold valid. simpl.
  pose proof (Z.gcd_nonneg n d) as Hnn.
  assert (Hg : Z.gcd n d <> 0).
  { intros H0. apply Z.gcd_eq_0_r in H0. lia. }
  pose proof (Z.gcd_div_gcd n d (Z.gcd n d) Hg eq_refl) as Hcop.
  destruct (Z.gcd_divide_l n d) as [x Hx], (Z.gcd_divide_r n d) as [y Hy].
  revert Hcop Hx Hy. generalize (Z.gcd n d) Hnn Hg. intros g Hgnn Hg0 Hcop Hx Hy.
  assert (Hnx : n / g = x) by (rewrite Hx; by apply Z.div_mul).
  assert (Hdy : d / g = y) by (rewrite Hy; by apply Z.div_mul).
  rewrite Hnx, Hdy in *. split_and!; [nia|done|].
  rewrite Hx, Hy. ring.
Qed.

Lemma sub_spec a b :
  0 < denominator a -> 0 < denominator b ->
  0 < denominator (sub a b) /\
  numerator (sub a b) * (denominator a * denominator b)
  = (numerator a * denominator b - denominator a * numerator b)
    * denominator (sub a b).
Proof.
  destruct a as [na da], b as [nb db]. simpl. intros Ha Hb. unfold sub. simpl.
  assert (Hg : 0 < Z.gcd da db).
  { pose proof (Z.gcd_nonneg da db).
    destruct (decide (Z.gcd da db = 0)) as [H0|]; [|lia].
    apply Z.gcd_eq_0_l in H0. lia. }
  destruct (Z.gcd_divide_l da db) as [s Hs], (Z.gcd_divide_r da db) as [e He].
  revert Hg Hs He. generalize (Z.gcd da db). intros g Hg Hs He.
  destruct (decide (g = 1)) as [Hg1|Hg1]; simpl; [split; [nia|ring]|].
  assert (Hds : da / g = s) by (rewrite Hs; apply Z.div_mul; lia).
  assert (Hde : db / g = e) by (rewrite He; apply Z.div_mul; lia).
  rewrite Hds, Hde. clear Hds Hde.
  assert (Hspos : 0 < s) by nia. assert (Hepos : 0 < e) by nia.
  assert (Hg2 : 0 < Z.gcd (na * e - nb * s) g).
  { pose proof (Z.gcd_nonneg (na * e - nb * s) g).
    destruct (decide (Z.gcd (na * e - nb * s) g = 0)) as [H0|]; [|lia].
    apply Z.gcd_eq_0_r in H0. lia. }
  destruct (Z.gcd_divide_l (na * e - nb * s) g) as [t' Ht'],
           (Z.gcd_divide_r (na * e - nb * s) g) as [g' Hg'].
  revert Hg2 Ht' Hg'. generalize (Z.gcd (na * e - nb * s) g). intros g2 Hg2 Ht' Hg'.
  destruct (decide (g2 = 1)) as [Hg21|Hg21]; simpl.
  - split; [nia|]. subst da db. ring.
  - assert (Hdt : (na * e - nb * s) / g2 = t') by (rewrite Ht'; apply Z.div_mul; lia).
    assert (Hdb : db / g2 = e * g').
    { rewrite He, Hg'. rewrite Z.mul_assoc. apply Z.div_mul. lia. }
    rewrite Hdt, Hdb.
    assert (0 < g') by nia.
    split; [nia|]. subst da db.
    replace (na * (e * g) - s * g * nb) with ((na * e - nb * s) * g) by ring.
    rewrite Ht'. rewrite Hg'. ring.
Qed.

Lemma to_Q_sub a b :
  0 < denominator a -> 0 < denominator b ->
  (to_Q (sub a b) == to_Q a - to_Q b)%Q.
Proof.
  intros Ha Hb. destruct (sub_spec a b Ha Hb) as [Hd Heq].
  unfold to_Q, Qeq, Qminus, Qplus, Qopp. simpl.
  rewrite Pos2Z.inj_mul, !to_pos_id by done. lia.
Qed.

Lemma to_Q_abs a : to_Q (abs a) = Qabs (to_Q a).
Proof. done. Qed.

Lemma le_to_Q a b :
  0 < denominator a -> 0 < denominator b ->
  le a b <-> (to_Q a <= to_Q b)%Q.
Proof.
  intros Ha Hb. unfold le, to_Q, Qle. simpl.
  rewrite !to_pos_id by done. lia.
Qed.

(** Two fractions in lowest terms with the same value are the same. *)
Lemma to_Q_inj a b :
  valid a -> valid b -> (to_Q a == to_Q b)%Q -> a = b.
Proof.
  destruct a as [na da], b as [nb db]. unfold valid, to_Q, Qeq. simpl.
  intros [Ha Hga] [Hb Hgb]. rewrite !to_pos_id by done. intros Heq.
  assert (Hdab : (da | db)).
  { apply (Z.gauss da na db); [|by rewrite Z.gcd_comm].
    exists nb. lia. }
  assert (Hdba : (db | da)).
  { apply (Z.gauss db nb da); [|by rewrite Z.gcd_comm].
    exists na. lia. }
  assert (da = db).
  { apply Z.divide_antisym_nonneg; [lia|lia|done|done]. }
  subst db. f_equal. nia.
Qed.
End FractionFacts.

(** * The continued-fraction loop of [limit_denominator] *)

Section LimitDenominator.
(** The fraction [N/D] being approximated, with [D] beyond the bound [M]. *)
Variables N D M : Z.
Hypothesis D_pos : 0 < D.
Hypothesis ND_coprime : Z.gcd N D = 1.
Hypothesis M_pos : 1 <= M.
Hypothesis D_large : M < D.


Lemma cf_inv_init : cf_inv N D M (cf_init N D).
Proof. split; simpl; lia. Qed.

Lemma cf_inv_d_pos st : cf_inv N D M st -> 0 < cf_d st.
Proof.
  intros [Hq _ _ _ Hq1 Hd Hg Hph]. simpl in *.
  destruct Hph as [(_ & _ & ?)|[Hq1' Hlt]]; [done|].
  destruct (decide (cf_d st = 0)) as [H0|]; [|lia].
  rewrite H0, Z.gcd_0_r in Hg. rewrite H0 in Hq.
  assert (cf_n st = 1) by lia. nia.
Qed.

Lemma cf_inv_next st :
  cf_inv N D M st -> q0 st + cf_n st / cf_d st * q1 st <= M -> cf_inv N D M (cf_next st).
Proof.
  intros Hinv Hq2. pose proof (cf_inv_d_pos st Hinv) as Hd.
  destruct Hinv as [Hq Hp Hdet Hq0 Hq1 _ Hg Hph].
  pose proof (Z.mod_pos_bound (cf_n st) (cf_d st) Hd) as Hmod.
  rewrite Z.mod_eq in Hmod by lia.
  rewrite (Z.mul_comm (cf_d st)) in Hmod.
  unfold cf_next. set (a := cf_n st / cf_d st) in *.
  assert (Ha : q1 st = 0 \/ 1 <= a).
  { destruct Hph as [(? & _)|[? Hlt]]; [by left|right].
    apply Z.div_le_lower_bound; lia. }
  split; simpl.
  - rewrite <- Hq. ring.
  - rewrite <- Hp. ring.
  - destruct Hdet as [Hdet|Hdet]; [right|left]; rewrite <- Hdet at 1 || idtac; lia.
  - lia.
  - split; [|done]. destruct Ha as [->|Ha]; [lia|nia].
  - lia.
  - rewrite Z.gcd_comm.
    replace (cf_n st - a * cf_d st) with (cf_n st + (- a) * cf_d st) by ring.
    rewrite Z.gcd_comm. rewrite Z.gcd_comm in Hg.
    rewrite Z.gcd_add_mult_diag_r. done.
  - right. split; [|lia].
    destruct Hph as [(-> & -> & _)|[? _]]; [lia|].
    destruct Ha as [?|Ha]; [lia|nia].
Qed.

Lemma cf_measure_next st :
  cf_inv N D M st -> q0 st + cf_n st / cf_d st * q1 st <= M ->
  (cf_measure M (cf_next st) < cf_measure M st)%nat.
Proof.
  intros Hinv Hq2. pose proof (cf_inv_d_pos st Hinv) as Hd.
  pose proof (cf_inv_next st Hinv Hq2) as Hnext.
  destruct Hinv as [_ _ _ Hq0 Hq1 _ _ Hph].
  destruct Hnext as [_ _ _ Hq0' Hq1' _ _ Hph'].
  unfold cf_measure. simpl in *.
  set (a := cf_n st / cf_d st) in *.
  destruct Hph as [(Hz & Ho & _)|[Hq1pos Hlt]].
  - rewrite Hz, Ho in *. 
    repeat destruct (decide _); lia.
  - assert (Ha : 1 <= a) by (apply Z.div_le_lower_bound; lia).
    assert (q0 st + q1 st <= q0 st + a * q1 st) by nia.
    repeat destruct (decide _); lia.
Qed.

(** The loop leaves by [break], with the invariant and both denominators
    in hand. *)
Lemma cf_loop_breaks fuel st :
  cf_inv N D M st -> (cf_measure M st <= fuel)%nat ->
  exists st',
    cf_loop fuel M st = Some (Ok st') /\ cf_inv N D M st' /\
    1 <= q1 st' /\ M < q0 st' + cf_n st' / cf_d st' * q1 st'.
Proof.
  revert st. induction fuel as [|fuel IH]; intros st Hinv Hfuel.
  - unfold cf_measure in Hfuel. destruct (inv_q1 _ _ _ st Hinv). lia.
  - pose proof (cf_inv_d_pos st Hinv) as Hd. simpl.
    destruct (decide (cf_d st = 0)); [lia|].
    destruct (decide (q0 st + cf_n st / cf_d st * q1 st > M)) as [Hbreak|Hgo].
    + exists st. split_and!; [done|done| |lia].
      destruct (inv_phase _ _ _ st Hinv) as [(Hz & Ho & _)|[? _]]; [|done].
      rewrite Hz, Ho in Hbreak. lia.
    + assert (Hq2 : q0 st + cf_n st / cf_d st * q1 st <= M) by lia.
      apply (IH (cf_next st)).
      * by apply cf_inv_next.
      * pose proof (cf_measure_next st Hinv Hq2). lia.
Qed.

Lemma cf_measure_init : cf_measure M (cf_init N D) = (Z.to_nat M + 2)%nat.
Proof. unfold cf_measure. simpl. lia. Qed.
End LimitDenominator.

(** * Best approximation between two neighbouring fractions *)

(** [A_n/A_d] and [B_n/B_d] are neighbours (their cross difference is
    [s = 1] or [-1]) on either side of [N/D], and their denominators add up
    to more than [M]: no fraction with a denominator up to [M] is nearer
    to [N/D] than both. *)
Lemma neighbours_best (N D A_n A_d B_n B_d s M p q : Z) :
  s = 1 \/ s = -1 ->
  0 < D -> 0 < A_d -> 0 < B_d -> 0 < q <= M -> M < A_d + B_d ->
  B_n * A_d - A_n * B_d = s ->
  0 <= s * (N * A_d - D * A_n) ->
  0 <= s * (D * B_n - N * B_d) ->
  Z.abs (N * A_d - D * A_n) * q <= Z.abs (N * q - D * p) * A_d \/
  Z.abs (N * B_d - D * B_n) * q <= Z.abs (N * q - D * p) * B_d.
Proof.
  intros Hs HD HA HB Hq HM Hdet HxA HxB.
  set (u := s * (p * A_d - A_n * q)).
  set (v := s * (B_n * q - p * B_d)).
  assert (Huv : u * B_d + v * A_d = q).
  { subst u v. destruct Hs as [-> | ->]; nia. }
  assert (Hcase : u <= 0 \/ v <= 0).
  { destruct (decide (u <= 0)); [by left|].
    destruct (decide (v <= 0)); [by right|]. nia. }
  destruct Hcase as [Hu|Hv].
  - left.
    assert (Hid : s * (N * q - D * p) * A_d - s * (N * A_d - D * A_n) * q = - D * u).
    { subst u. ring. }
    assert (0 <= - D * u) by nia.
    assert (H1 : s * (N * A_d - D * A_n) * q <= s * (N * q - D * p) * A_d) by lia.
    assert (H2 : 0 <= s * (N * q - D * p)) by nia.
    destruct Hs as [-> | ->].
    + rewrite !Z.abs_eq by lia. lia. 
    + rewrite !Z.abs_neq by lia. lia.
  - right.
    assert (Hid : s * (D * p - N * q) * B_d - s * (D * B_n - N * B_d) * q = - D * v).
    { subst v. ring. }
    assert (0 <= - D * v) by nia.
    assert (H1 : s * (D * B_n - N * B_d) * q <= s * (D * p - N * q) * B_d) by lia.
    assert (H2 : 0 <= s * (D * p - N * q)) by nia.
    destruct Hs as [-> | ->].
    + rewrite !Z.abs_neq by lia. lia.
    + rewrite !Z.abs_eq by lia. lia.
Qed.

(** Distances between fractions, compared without dividing. *)
Lemma Qdist_le (N D a b c d : Z) :
  0 < D -> 0 < b -> 0 < d ->
  Z.abs (N * b - D * a) * d <= Z.abs (N * d - D * c) * b ->
  (Qabs ((a # Z.to_pos b) - (N # Z.to_pos D))
   <= Qabs ((c # Z.to_pos d) - (N # Z.to_pos D)))%Q.
Proof.
  intros HD Hb Hd Hle.
  unfold Qle, Qabs, Qminus, Qplus, Qopp. simpl.
  rewrite !Pos2Z.inj_mul, !to_pos_id by done.
  replace (a * D + - N * b) with (- (N * b - D * a)) by ring.
  replace (c * D + - N * d) with (- (N * d - D * c)) by ring.
  rewrite !Z.abs_opp.
  pose proof (Z.abs_nonneg (N * b - D * a)).
  pose proof (Z.abs_nonneg (N * d - D * c)).
  nia.
Qed.


(** * [limit_denominator] returns a best approximation *)

Lemma Qabs_sub_to_Q (a x : Fraction) :
  0 < denominator a -> 0 < denominator x ->
  (to_Q (abs (sub a x)) == Qabs (to_Q a - to_Q x))%Q.
Proof.
  intros Ha Hx. rewrite to_Q_abs. apply Qabs_wd. by apply to_Q_sub.
Qed.

Lemma limit_denominator_large (N D M : Z) :
  0 < D -> Z.gcd N D = 1 -> 1 <= M -> M < D ->
  let x := {| numerator := N; denominator := D |} in
  exists r,
    limit_denominator x M = Ok r /\ valid r /\ denominator r <= M /\
    forall p q, 0 < q <= M ->
      (Qabs (to_Q r - to_Q x) <= Qabs ((p # Z.to_pos q) - to_Q x))%Q.
Proof.
  intros HD Hcop HM Hlarge x.
  assert (Hinit : cf_inv N D M (cf_init N D)) by (by apply cf_inv_init).
  assert (Hfuel : (cf_measure M (cf_init N D) <= Z.to_nat M + 2)%nat)
    by (rewrite cf_measure_init; lia).
  destruct (cf_loop_breaks N D M HD HM Hlarge _ _ Hinit Hfuel)
    as (st & Hloop & Hinv & Hq1 & Hbreak).
  unfold limit_denominator.
  destruct (decide (M < 1)); [lia|].
  destruct (decide (denominator x <= M)); [simpl in *; lia|].
  change {| p0 := 0; q0 := 1; p1 := 1; q1 := 0;
            cf_n := numerator x; cf_d := denominator x |} with (cf_init N D).
  rewrite Hloop. simpl.
  destruct (decide (q1 st = 0)); [lia|].
  pose proof (cf_inv_d_pos N D M Hlarge st Hinv) as Hd.
  destruct Hinv as [Hq Hp Hdet Hq0 Hq1' _ _ _].
  set (k := (M - q0 st) / q1 st).
  assert (Hk1 : q1 st * k <= M - q0 st) by (apply Z.mul_div_le; lia).
  assert (Hk2 : M - q0 st < q1 st * (k + 1))
    by (apply (Z.mul_succ_div_gt (M - q0 st) (q1 st)); lia).
  assert (Hk0 : 0 <= k) by (apply Z.div_pos; lia).
  pose proof (Z.mod_pos_bound (cf_n st) (cf_d st) Hd) as Hmod.
  rewrite Z.mod_eq in Hmod by lia.
  set (a := cf_n st / cf_d st) in *.
  assert (Ha : k + 1 <= a) by nia.
  assert (Hnk : cf_d st <= cf_n st - k * cf_d st) by nia.
  set (P := p0 st + k * p1 st). set (Qd := q0 st + k * q1 st).
  set (s := p1 st * q0 st - p0 st * q1 st) in *.
  assert (HQd : 1 <= Qd <= M) by (subst Qd; nia).
  assert (HgA : Z.gcd P Qd = 1).
  { apply (gcd_of_det P Qd (- q1 st) (p1 st)).
    replace (P * - q1 st + Qd * p1 st) with s by (subst P Qd s; ring). done. }
  assert (HgB : Z.gcd (p1 st) (q1 st) = 1).
  { apply (gcd_of_det (p1 st) (q1 st) (q0 st) (- p0 st)).
    replace (p1 st * q0 st + q1 st * - p0 st) with s by (subst s; ring). done. }
  rewrite (make_lowest P Qd) by lia. simpl.
  rewrite (make_lowest (p1 st) (q1 st)) by lia. simpl.
  set (A := {| numerator := P; denominator := Qd |}).
  set (B := {| numerator := p1 st; denominator := q1 st |}).
  assert (HxA : N * Qd - D * P = s * (cf_n st - k * cf_d st)).
  { rewrite <- Hq, <- Hp. subst P Qd s. ring. }
  assert (HxB : D * p1 st - N * q1 st = s * cf_d st).
  { rewrite <- Hq, <- Hp. subst s. ring. }
  assert (Hss : s * s = 1) by (destruct Hdet as [-> | ->]; lia).
  assert (Hbest : forall p q, 0 < q <= M ->
    (Qabs (to_Q A - to_Q x) <= Qabs ((p # Z.to_pos q) - to_Q x))%Q \/
    (Qabs (to_Q B - to_Q x) <= Qabs ((p # Z.to_pos q) - to_Q x))%Q).
  { assert (Hdet' : p1 st * Qd - P * q1 st = s) by (subst P Qd s; ring).
    assert (HxA' : 0 <= s * (N * Qd - D * P)).
    { rewrite HxA, Z.mul_assoc, Hss. lia. }
    assert (HxB' : 0 <= s * (D * p1 st - N * q1 st)).
    { rewrite HxB, Z.mul_assoc, Hss. lia. }
    assert (HQd0 : 0 < Qd) by lia. assert (Hq10 : 0 < q1 st) by lia.
    assert (Hsum : M < Qd + q1 st) by (subst Qd; lia).
    intros p q Hq'.
    destruct (neighbours_best N D P Qd (p1 st) (q1 st) s M p q
                Hdet HD HQd0 Hq10 Hq' Hsum Hdet' HxA' HxB') as [Hl|Hr].
    - left. apply (Qdist_le N D P Qd p q); [done|lia|lia|done].
    - right. apply (Qdist_le N D (p1 st) (q1 st) p q); [done|lia|lia|done]. }
  assert (HdA : 0 < denominator A) by (simpl; lia).
  assert (HdB : 0 < denominator B) by (simpl; lia).
  assert (Hdx : 0 < denominator x) by done.
  destruct (sub_spec A x HdA Hdx) as [HsA _], (sub_spec B x HdB Hdx) as [HsB _].
  destruct (decide (le (abs (sub B x)) (abs (sub A x)))) as [Hle|Hnle].
  - apply le_to_Q in Hle; [|done|done].
    rewrite !Qabs_sub_to_Q in Hle by done.
    exists B. split_and!; [done|split; [done|exact HgB]|simpl; lia|].
    intros p q Hq'. destruct (Hbest p q Hq') as [H1|H1]; [|done].
    by eapply Qle_trans.
  - assert (Hlt : (to_Q (abs (sub A x)) <= to_Q (abs (sub B x)))%Q).
    { apply Qlt_le_weak, Qnot_le_lt. intros Hc. apply Hnle.
      by apply le_to_Q. }
    rewrite !Qabs_sub_to_Q in Hlt by done.
    exists A. split_and!; [done|split; [simpl; lia|exact HgA]|simpl; lia|].
    intros p q Hq'. destruct (Hbest p q Hq') as [H1|H1]; [done|].
    by eapply Qle_trans.
Qed.

(** The approximation of any fraction, whatever its denominator. *)
Lemma limit_denominator_best (x : Fraction) (M : Z) :
  valid x -> 1 <= M ->
  exists r,
    limit_denominator x M = Ok r /\ valid r /\ denominator r <= M /\
    (forall p q, 0 < q <= M ->
       (Qabs (to_Q r - to_Q x) <= Qabs ((p # Z.to_pos q) - to_Q x))%Q) /\
    (denominator x <= M -> r = x).
Proof.
  intros [Hd Hg] HM. destruct (decide (denominator x <= M)) as [Hsmall|Hlarge].
  - exists x. unfold limit_denominator.
    destruct (decide (M < 1)); [lia|].
    destruct (decide (denominator x <= M)); [|lia].
    split_and!; try done.
    intros p q _.
    assert (Hz : (to_Q x - to_Q x == 0)%Q) by ring.
    rewrite Hz. apply Qabs_nonneg.
  - destruct x as [N D]. simpl in *.
    assert (HMD : M < D) by lia.
    destruct (limit_denominator_large N D M Hd Hg HM HMD)
      as (r & Hr & Hv & Hden & Hbest).
    exists r. split_and!; try done; lia.
Qed.

(** * From the solver's floats to rationals *)

Lemma make_Ok (n d : Z) : 0 < d -> exists a, make n d = Ok a.
Proof.
  intros Hd. unfold make. destruct (decide (d = 0)); [lia|]. by eexists.
Qed.

Lemma from_float_valid (f : float) :
  is_finite f -> exists x, from_float f = Ok x /\ valid x.
Proof.
  unfold is_finite, from_float. destruct (Prim2SF f) as [sg|sg| |sg m e]; try done.
  - intros _. destruct (make_Ok 0 1) as [a Ha]; [lia|].
    exists a. split; [done|]. by apply (make_valid 0 1).
  - intros _. destruct (decide (0 <= e)).
    + destruct (make_Ok ((if sg then Z.neg m else Z.pos m) * 2 ^ e) 1) as [a Ha]; [lia|].
      exists a. split; [done|]. eapply make_valid; [|done]. lia.
    + assert (Hp : 0 < 2 ^ (- e)) by (apply Z.pow_pos_nonneg; lia).
      destruct (make_Ok (if sg then Z.neg m else Z.pos m) (2 ^ (- e))) as [a Ha]; [done|].
      exists a. split; [done|]. by eapply make_valid.
Qed.

Lemma outcome_rationalise (f : float) :
  outcome (rationalise f) = (q ← from_float f; limit_denominator q 100).
Proof. done. Qed.

Section FloatValue.
Local Open Scope Q_scope.

Lemma to_Q_make (n d : Z) a :
  (0 < d)%Z -> make n d = Ok a -> to_Q a == inject_Z n / inject_Z d.
Proof.
  intros Hd Ha. destruct (make_valid n d a Hd Ha) as [[Hpos _] Heq].
  rewrite <-(to_pos_id d Hd) at 1. rewrite <-Qmake_Qdiv.
  unfold to_Q, Qeq. simpl. rewrite !to_pos_id by done. lia.
Qed.

Lemma Qpower_2_nonneg (e : Z) : (0 <= e)%Z -> 2 ^ e == inject_Z (2 ^ e).
Proof. intros He. by rewrite Zpower_Qpower. Qed.

Lemma Qpower_2_neg (e : Z) : (e < 0)%Z -> 2 ^ e == / inject_Z (2 ^ (- e)).
Proof.
  intros He. rewrite <-(Z.opp_involutive e) at 1.
  rewrite Qpower_opp, Qpower_2_nonneg by lia. done.
Qed.

(** The conversion is exact: the fraction is the number the float stands
    for. *)
Lemma to_Q_from_float (f : float) x :
  from_float f = Ok x -> to_Q x == float_value f.
Proof.
  unfold from_float, float_value.
  destruct (Prim2SF f) as [sg|sg| |sg m e]; try done.
  - intros Hx. rewrite (to_Q_make 0 1 x) by done. done.
  - destruct (decide (0 <= e)%Z) as [He|He]; intros Hx.
    + rewrite (to_Q_make _ 1 x) by done.
      rewrite inject_Z_mult, Qpower_2_nonneg by done.
      unfold Qdiv. change (/ inject_Z 1) with 1. ring.
    + assert (Hp : (0 < 2 ^ (- e))%Z) by (apply Z.pow_pos_nonneg; lia).
      rewrite (to_Q_make _ _ x Hp Hx), Qpower_2_neg by lia. done.
Qed.
End FloatValue.

(** C9: for every finite float the conversion is exact (the fraction it
    gives is in lowest terms and is the number the float stands for), and
    the post-processing returns a fraction in lowest terms with
    denominator at most 100 that is at least as near to that number as any
    fraction [p/q] with [q] at most 100; when the float is itself such a
    fraction, the fraction returned equals it. *)
Theorem rationalise_best_approximation (f : float) :
  is_finite f ->
  exists x r,
    from_float f = Ok x /\ valid x /\ (to_Q x == float_value f)%Q /\
    outcome (rationalise f) = Ok r /\
    valid r /\ denominator r <= 100 /\
    (forall p q, 0 < q <= 100 ->
       (Qabs (to_Q r - to_Q x) <= Qabs ((p # Z.to_pos q) - to_Q x))%Q) /\
    (forall p q, 0 < q <= 100 ->
       (Qabs (to_Q r - float_value f)
        <= Qabs ((p # Z.to_pos q) - float_value f))%Q) /\
    (forall p q, 0 < q <= 100 -> (to_Q x == p # Z.to_pos q)%Q -> r = x) /\
    (forall p q, 0 < q <= 100 -> (float_value f == p # Z.to_pos q)%Q ->
       r = x /\ (to_Q r == float_value f)%Q).
Proof.
  intros Hfin. destruct (from_float_valid f Hfin) as (x & Hx & Hvx).
  pose proof (to_Q_from_float f x Hx) as Hval.
  destruct (limit_denominator_best x 100 Hvx) as (r & Hr & Hvr & Hden & Hbest & _);
    [lia|].
  assert (Hexact : forall p q, 0 < q <= 100 ->
                     (to_Q x == p # Z.to_pos q)%Q -> r = x).
  { intros p q Hq Heq. apply to_Q_inj; [done|done|].
    specialize (Hbest p q Hq).
    assert (Hz : ((p # Z.to_pos q) - to_Q x == 0)%Q) by (rewrite Heq; ring).
    rewrite Hz in Hbest. change (Qabs 0) with 0%Q in Hbest.
    apply Qabs_Qle_condition in Hbest. lra. }
  exists x, r. split_and!; try done.
  - by rewrite outcome_rationalise, Hx.
  - intros p q Hq. rewrite <-Hval. by apply Hbest.
  - intros p q Hq Heq. rewrite <-Hval in Heq.
    assert (r = x) as -> by (by eapply Hexact). done.
Qed.

Lemma rationalise_best_approximation_witness :
  exists x r,
    from_float 0.5%float = Ok x /\ valid x /\ (to_Q x == float_value 0.5%float)%Q /\
    outcome (rationalise 0.5%float) = Ok r /\
    valid r /\ denominator r <= 100 /\
    (forall p q, 0 < q <= 100 ->
       (Qabs (to_Q r - to_Q x) <= Qabs ((p # Z.to_pos q) - to_Q x))%Q) /\
    (forall p q, 0 < q <= 100 ->
       (Qabs (to_Q r - float_value 0.5%float)
        <= Qabs ((p # Z.to_pos q) - float_value 0.5%float))%Q) /\
    (forall p q, 0 < q <= 100 -> (to_Q x == p # Z.to_pos q)%Q -> r = x) /\
    (forall p q, 0 < q <= 100 -> (float_value 0.5%float == p # Z.to_pos q)%Q ->
       r = x /\ (to_Q r == float_value 0.5%float)%Q).
Proof.
  apply (rationalise_best_approximation 0.5%float). vm_compute. exact I.
Defined.

(** What some floats stand for: one half, the float nearest to one tenth,
    and minus two and a half. *)
Lemma float_value_examples :
  (float_value 0.5%float == 1 # 2)%Q /\
  (float_value 0x1.999999999999ap-4%float
   == 3602879701896397 # 36028797018963968)%Q /\
  (float_value (-2.5)%float == - (5 # 2))%Q.
Proof. split_and!; by vm_compute. Qed.

(** The value 0.5 comes back as the fraction 1/2. *)
Lemma rationalise_half :
  outcome (rationalise 0.5%float) = Ok {| numerator := 1; denominator := 2 |}.
Proof. by vm_compute. Qed.

(** * Graphs built from the keyboard and from a file *)

Section Simple.
Lemma neighbors_add_nbr_eq u v G w :
  nx.neighbors (nx.add_nbr u v G) w
  = if decide (w = u /\ u ∈ nx.nodes G /\ v ∉ nx.neighbors G u)
    then nx.neighbors G u ++ [v] else nx.neighbors G w.
Proof.
  induction G as [|[y nb] G IH]; simpl.
  - destruct (decide _) as [(_ & []%elem_of_nil & _)|]; done.
  - unfold nx.nodes, dict_keys in *. simpl.
    destruct (decide (y = u)) as [->|Hne]; simpl.
    + clear IH. destruct (decide (u = w)) as [<-|Hw].
      * destruct (decide (v ∈ nb)), (decide (_ /\ _ /\ _)) as [(_ & _ & ?)|Hn];
          try done.
        exfalso. apply Hn. split_and!; [done|left|done].
      * destruct (decide (_ /\ _ /\ _)) as [(-> & _)|]; done.
    + destruct (decide (y = w)) as [->|Hw].
      * clear IH. destruct (decide (_ /\ _ /\ _)) as [(-> & _)|]; done.
      * rewrite IH. clear IH.
        destruct (decide (w = u /\ u ∈ G.*1 /\ _)) as [(-> & Hin & Hv)|Hn],
                 (decide (_ /\ u ∈ y :: G.*1 /\ _)) as [(Hw' & Hin' & Hv')|Hn'];
          try done.
        -- exfalso. apply Hn'. split_and!; [done|by right|done].
        -- subst w. exfalso. apply Hn. split_and!; [done| |done].
           apply elem_of_cons in Hin' as [?|?]; [congruence|done].
Qed.

Lemma NoDup_neighbors_add_nbr u v G :
  (forall w, NoDup (nx.neighbors G w)) ->
  forall w, NoDup (nx.neighbors (nx.add_nbr u v G) w).
Proof.
  intros Hnd w. rewrite neighbors_add_nbr_eq.
  destruct (decide _) as [(_ & _ & Hv)|]; [|done].
  apply NoDup_app. split_and!; [done| |apply NoDup_singleton].
  intros x Hx ->%list_elem_of_singleton. done.
Qed.

Lemma nodes_add_edge_old u v G :
  u ∈ nx.nodes G -> v ∈ nx.nodes G -> nx.nodes (nx.add_edge u v G) = nx.nodes G.
Proof.
  intros Hu Hv. unfold nx.add_edge. rewrite !nodes_add_nbr, !nodes_add_node.
  destruct (decide (u ∈ nx.nodes G)); [|done].
  by destruct (decide (v ∈ nx.nodes G)).
Qed.

Lemma nodes_add_edge_prefix u v G :
  nx.nodes G `prefix_of` nx.nodes (nx.add_edge u v G).
Proof.
  unfold nx.add_edge. rewrite !nodes_add_nbr, !nodes_add_node.
  destruct (decide (u ∈ nx.nodes G)).
  - destruct (decide (v ∈ nx.nodes G)); [done|]. by apply prefix_app_r.
  - destruct (decide (v ∈ nx.nodes G ++ [u])); [by apply prefix_app_r|].
    rewrite <-(assoc_L (++)). by apply prefix_app_r.
Qed.

Lemma neighbors_add_edge u v G w x :
  x ∈ nx.neighbors (nx.add_edge u v G) w ->
  x ∈ nx.neighbors G w \/ (w = u /\ x = v) \/ (w = v /\ x = u).
Proof.
  unfold nx.add_edge.
  intros [[Hx|?]%neighbors_add_nbr|?]%neighbors_add_nbr; [|tauto..].
  rewrite !neighbors_add_node in Hx. by left.
Qed.

Lemma neighbors_add_edge_new u v G : v ∈ nx.neighbors (nx.add_edge u v G) u.
Proof.
  unfold nx.add_edge. apply neighbors_add_nbr_old, neighbors_add_nbr_new.
  apply elem_of_nodes_add_node_mono, elem_of_nodes_add_node.
Qed.

Lemma NoDup_neighbors_add_edge u v G :
  (forall w, NoDup (nx.neighbors G w)) ->
  forall w, NoDup (nx.neighbors (nx.add_edge u v G) w).
Proof.
  intros Hnd. unfold nx.add_edge.
  apply NoDup_neighbors_add_nbr, NoDup_neighbors_add_nbr.
  intros w. by rewrite !neighbors_add_node.
Qed.

Lemma simple_add_edge u v G :
  simple G -> u ∈ nx.nodes G -> v ∈ nx.nodes G -> u <> v ->
  simple (nx.add_edge u v G).
Proof.
  intros [Hwf Hs Hnd Hirr] Hu Hv Hne. split.
  - by apply wf_add_edge.
  - by rewrite nodes_add_edge_old.
  - unfold nx.add_edge. apply NoDup_neighbors_add_nbr, NoDup_neighbors_add_nbr.
    intros w. by rewrite !neighbors_add_node.
  - intros w [Hw|[[-> ->]|[-> ->]]]%neighbors_add_edge; [by eapply Hirr|done..].
Qed.

Lemma add_nodes_from_fresh (us : list Z) (G : nx.Graph) :
  NoDup (nx.nodes G ++ us) ->
  nx.nodes (nx.add_nodes_from us G) = nx.nodes G ++ us /\
  forall w, nx.neighbors (nx.add_nodes_from us G) w = nx.neighbors G w.
Proof.
  unfold nx.add_nodes_from. revert G.
  induction us as [|u us IH]; intros G Hnd; simpl.
  - by rewrite app_nil_r.
  - assert (Hu : u ∉ nx.nodes G).
    { apply NoDup_app in Hnd as (_ & Hd & _). intros Hin. apply (Hd u Hin). left. }
    destruct (IH (nx.add_node u G)) as [Hn Hnb].
    { rewrite nodes_add_node. destruct (decide _); [done|].
      by rewrite <-(assoc_L (++)). }
    rewrite Hn, nodes_add_node. destruct (decide _); [done|].
    split; [by rewrite <-(assoc_L (++))|].
    intros w. by rewrite Hnb, neighbors_add_node.
Qed.

Lemma Sorted_range_list n : Sorted Z.lt (range_list n).
Proof.
  unfold range_list. generalize (Z.to_nat n) as m. intros m. generalize 0%nat as a.
  induction m as [|m IH]; intros a; simpl; [constructor|].
  constructor; [apply IH|]. destruct m; simpl; constructor. lia.
Qed.

Lemma elem_of_range_list n k : k ∈ range_list n <-> in_range n k.
Proof.
  unfold range_list, in_range. rewrite list_elem_of_fmap. split.
  - intros (i & -> & Hi%elem_of_seq). lia.
  - intros Hk. exists (Z.to_nat k). split; [lia|]. apply elem_of_seq. lia.
Qed.

Lemma NoDup_range_list n : NoDup (range_list n).
Proof.
  pose proof (Sorted_range_list n) as Hs.
  apply Sorted_StronglySorted in Hs; [|intros ???; lia].
  induction Hs as [|x l Hs IH Hall]; constructor; [|done].
  intros Hx. rewrite Forall_forall in Hall. specialize (Hall x Hx). lia.
Qed.

Lemma simple_add_nodes_from_range n :
  simple (nx.add_nodes_from (range_list n) nx.empty) /\
  nx.nodes (nx.add_nodes_from (range_list n) nx.empty) = range_list n.
Proof.
  destruct (add_nodes_from_fresh (range_list n) nx.empty) as [Hn Hnb].
  { simpl. apply NoDup_range_list. }
  simpl in Hn. split; [|done]. split.
  - apply wf_add_nodes_from, wf_empty.
  - rewrite Hn. apply Sorted_range_list.
  - intros u. rewrite Hnb. apply NoDup_nil_2.
  - intros u. rewrite Hnb. by intros ?%elem_of_nil.
Qed.

Lemma create_graph_nodes_spec inp n rest :
  create_graph_nodes inp = Some (n, rest) -> 2 <= n.
Proof.
  induction inp as [|line inp IH]; simpl; [done|].
  destruct (text.py_int line) as [k|]; [|done].
  destruct (decide (k <= 1)); [done|]. intros [= -> _]. lia.
Qed.

(** Every turn of the second loop keeps the graph simple on the same
    nodes, and the loop ends only after a turn that added an edge. *)
Lemma create_graph_edges_spec n inp :
  forall G G' rest,
    simple G -> nx.nodes G = range_list n ->
    create_graph_edges n G inp = Some (G', rest) ->
    simple G' /\ nx.nodes G' = range_list n /\
    exists u v, u <> v /\ in_range n u /\ in_range n v /\ v ∈ nx.neighbors G' u.
Proof.
  assert (Hlen : (length inp <= length inp)%nat) by done. revert Hlen.
  generalize (length inp) at 2 as k. intros k. revert inp.
  induction k as [|k IH]; intros inp Hlen G G' rest HG Hn;
    (destruct inp as [|l1 inp1]; [done|]); simpl in Hlen; [lia|]. simpl.
  destruct (text.py_int l1) as [n1|].
  2:{ intros Hr. eapply (IH inp1); [lia|done..]. }
  destruct inp1 as [|l2 inp2]; [done|]. simpl in Hlen.
  destruct (text.py_int l2) as [n2|].
  2:{ intros Hr. eapply (IH inp2); [lia|done..]. }
  destruct (decide _) as [(Hne & H1 & H2)|].
  2:{ intros Hr. eapply (IH inp2); [lia|done..]. }
  assert (Hs : simple (nx.add_edge n1 n2 G)).
  { apply simple_add_edge; [done| | |done]; rewrite Hn; by apply elem_of_range_list. }
  assert (Hn' : nx.nodes (nx.add_edge n1 n2 G) = range_list n).
  { rewrite nodes_add_edge_old; [done|..]; rewrite Hn; by apply elem_of_range_list. }
  destruct inp2 as [|choice inp3]; [done|]. simpl in Hlen.
  destruct (is_no choice).
  - intros [= <- <-]. split_and!; [done..|].
    exists n1, n2. split_and!; [done..|]. apply neighbors_add_edge_new.
  - intros Hr. eapply (IH inp3); [lia|done..].
Qed.
End Simple.

(** * The Shannon entropy model: when it is built and what it contains *)

Section EntropyModel.
(** Case analysis on the outermost computation that may raise. *)
Ltac split_bind :=
  lazymatch goal with
  | |- context [mbind _ ?m] => destruct m eqn:?; simpl
  end.

Lemma foldM_Ok {A B} (body : B -> A -> result B) l acc :
  (forall a x, x ∈ l -> exists a', body a x = Ok a') ->
  exists r, foldM body acc l = Ok r.
Proof.
  revert acc. induction l as [|x l IH]; intros acc Hb; simpl; [by eexists|].
  destruct (Hb acc x) as [a' ->]; [left|]. simpl.
  apply IH. intros a y Hy. apply Hb. by right.
Qed.

Lemma foldM_Raise {A B} (body : B -> A -> result B) l acc e :
  foldM body acc l = Raise e -> exists a x, x ∈ l /\ body a x = Raise e.
Proof.
  revert acc. induction l as [|x l IH]; intros acc; simpl; [done|].
  destruct (body acc x) as [a'|e'] eqn:Hb; simpl.
  - intros (a & y & Hy & Hr)%IH. exists a, y. split; [by right|done].
  - intros [= ->]. exists acc, x. split; [left|done].
Qed.

Lemma extends_refl p : extends p p.
Proof. by split_and!. Qed.

Lemma extends_trans p q r : extends p q -> extends q r -> extends p r.
Proof.
  intros (Hs & Ho & Hc) (Hs' & Ho' & Hc'). split_and!; [congruence..|].
  intros c Hin. by apply Hc', Hc.
Qed.

Lemma extends_add p c : extends p (add_constraint p c).
Proof. split_and!; [done..|]. simpl. intros x Hx. apply elem_of_app. by left. Qed.

Lemma elem_of_add p c : c ∈ constraints (add_constraint p c).
Proof. simpl. apply elem_of_app. right. left. Qed.

Lemma foldM_extends {A} (body : LpProblem -> A -> result LpProblem) l acc r :
  (forall a x a', x ∈ l -> body a x = Ok a' -> extends a a') ->
  foldM body acc l = Ok r -> extends acc r.
Proof.
  intros Hb. apply (foldM_invariant (extends acc)); [apply extends_refl|].
  intros a x a' Hx Ha Hr. eapply extends_trans; [done|]. by eapply Hb.
Qed.

(** A loop that only adds constraints keeps what each of its turns added. *)
Lemma foldM_reach {A} (body : LpProblem -> A -> result LpProblem) l x acc r :
  (forall a y a', y ∈ l -> body a y = Ok a' -> extends a a') ->
  x ∈ l -> foldM body acc l = Ok r ->
  exists a a', body a x = Ok a' /\ extends a' r.
Proof.
  revert acc. induction l as [|y l IH]; intros acc Hb Hx; simpl;
    [by apply elem_of_nil in Hx|].
  destruct (body acc y) as [a'|] eqn:Hy; simpl; [|done]. intros Hr.
  apply elem_of_cons in Hx as [->|Hx].
  - exists acc, a'. split; [done|].
    eapply foldM_extends; [|done]. intros a z a'' Hz. apply Hb. by right.
  - eapply IH; [|done..]. intros a z a'' Hz. apply Hb. by right.
Qed.

Lemma dict_get_elem_of {V} (k : Subset) (d : dict Subset V) v :
  dict_get k d = Ok v -> k ∈ dict_keys d.
Proof.
  intros Hg. destruct (decide (k ∈ dict_keys d)) as [|Hn]; [done|].
  apply dict_get_KeyError in Hn. congruence.
Qed.

Lemma dict_get_Raise {V} (k : Subset) (d : dict Subset V) e :
  dict_get k d = Raise e -> e = KeyError.
Proof.
  induction d as [|[k' v'] d IH]; simpl; [by intros [= <-]|].
  by destruct (decide (k' = k)).
Qed.

(** *** One vertex of the third loop *)

Lemma neighbourhood_constraint_Ok G xs v c :
  neighbourhood_constraint G (LpVariable_dicts xs) v = Ok c ->
  c = closed_neighbourhood_constraint G v /\
  py_sorted (nx.neighbors G v ++ [v]) ∈ dict_keys xs /\
  py_sorted (nx.neighbors G v) ∈ dict_keys xs.
Proof.
  unfold neighbourhood_constraint.
  destruct (dict_get (py_sorted (_ ++ _)) _) as [a|] eqn:Ha; simpl; [|done].
  destruct (dict_get (py_sorted (nx.neighbors G v)) _) as [b|] eqn:Hb; simpl; [|done].
  intros [= <-].
  pose proof (dict_get_elem_of _ _ _ Ha) as Ha'.
  pose proof (dict_get_elem_of _ _ _ Hb) as Hb'.
  rewrite dict_keys_LpVariable_dicts in Ha', Hb'.
  apply dict_get_variable in Ha as ->. apply dict_get_variable in Hb as ->.
  done.
Qed.

Lemma neighbourhood_constraint_keys G xs v :
  py_sorted (nx.neighbors G v ++ [v]) ∈ dict_keys xs ->
  py_sorted (nx.neighbors G v) ∈ dict_keys xs ->
  neighbourhood_constraint G (LpVariable_dicts xs) v
  = Ok (closed_neighbourhood_constraint G v).
Proof.
  intros Ha%dict_get_LpVariable_dicts Hb%dict_get_LpVariable_dicts.
  unfold neighbourhood_constraint, Subset in *. cbv zeta.
  rewrite Ha. simpl. rewrite Hb. done.
Qed.

Lemma neighbourhood_constraint_Raise G lp_xs v e :
  neighbourhood_constraint G lp_xs v = Raise e -> e = KeyError.
Proof.
  unfold neighbourhood_constraint.
  destruct (dict_get (py_sorted (_ ++ _)) _) as [a|] eqn:Ha; simpl.
  - destruct (dict_get (py_sorted (nx.neighbors G v)) _) as [b|] eqn:Hb; simpl; [done|].
    intros [= <-]. by eapply dict_get_Raise.
  - intros [= <-]. by eapply dict_get_Raise.
Qed.

(** *** One pair of the nested loops *)

Lemma pair_constraints_Ok xs prob S T prob' :
  pair_constraints (LpVariable_dicts xs) prob S T = Ok prob' ->
  extends prob prob' /\
  (S ⊆ T -> monotonicity_constraint S T ∈ constraints prob') /\
  (~ S ⊆ T -> submodularity_constraint S T ∈ constraints prob' /\
              py_sorted (remove_dups (S ++ T)) ∈ dict_keys xs).
Proof.
  unfold pair_constraints.
  destruct (decide (S ⊆ T)) as [Hsub|Hsub]; simpl.
  - destruct (dict_get T _) as [xT|] eqn:HxT; simpl; [|done].
    destruct (dict_get S _) as [xS|] eqn:HxS; simpl; [|done].
    destruct (decide (~ S ⊆ T)); [done|]. intros [= <-].
    apply dict_get_variable in HxT as ->. apply dict_get_variable in HxS as ->.
    split_and!; [apply extends_add| |done]. intros _. apply elem_of_add.
  - destruct (decide (~ S ⊆ T)); [|done].
    destruct (dict_get S _) as [xS|] eqn:HxS; simpl; [|done].
    destruct (dict_get T _) as [xT|] eqn:HxT; simpl; [|done].
    destruct (dict_get (py_sorted (remove_dups (S ++ T))) _) as [xU|] eqn:HxU;
      simpl; [|done].
    destruct (dict_get (py_sorted (filter _ S)) _) as [xI|] eqn:HxI; simpl; [|done].
    intros [= <-].
    pose proof (dict_get_elem_of _ _ _ HxU) as HU.
    rewrite dict_keys_LpVariable_dicts in HU.
    apply dict_get_variable in HxS as ->. apply dict_get_variable in HxT as ->.
    apply dict_get_variable in HxU as ->. apply dict_get_variable in HxI as ->.
    split_and!; [apply extends_add|done|]. intros _. split; [|done].
    apply elem_of_add.
Qed.

Lemma pair_constraints_keys xs prob S T :
  S ∈ dict_keys xs -> T ∈ dict_keys xs ->
  py_sorted (remove_dups (S ++ T)) ∈ dict_keys xs ->
  py_sorted (filter (fun val => val ∈ T) S) ∈ dict_keys xs ->
  exists prob', pair_constraints (LpVariable_dicts xs) prob S T = Ok prob'.
Proof.
  intros HS%dict_get_LpVariable_dicts HT%dict_get_LpVariable_dicts
    HU%dict_get_LpVariable_dicts HI%dict_get_LpVariable_dicts.
  unfold pair_constraints, Subset in *. cbv zeta. rewrite HS, HT, HU, HI.
  destruct (decide (S ⊆ T)); simpl; destruct (decide (~ S ⊆ T)); simpl;
    by eexists.
Qed.

Lemma pair_constraints_Raise lp_xs prob S T e :
  pair_constraints lp_xs prob S T = Raise e -> e = KeyError.
Proof.
  unfold pair_constraints.
  destruct (decide (S ⊆ T)); simpl.
  - destruct (dict_get T lp_xs) as [xT|] eqn:HxT; simpl;
      [|intros [= <-]; by eapply dict_get_Raise].
    destruct (dict_get S lp_xs) as [xS|] eqn:HxS; simpl;
      [|intros [= <-]; by eapply dict_get_Raise].
    destruct (decide (~ S ⊆ T)); [done|]. done.
  - destruct (decide (~ S ⊆ T)); [|done].
    destruct (dict_get S lp_xs) as [xS|] eqn:HxS; simpl;
      [|intros [= <-]; by eapply dict_get_Raise].
    destruct (dict_get T lp_xs) as [xT|] eqn:HxT; simpl;
      [|intros [= <-]; by eapply dict_get_Raise].
    destruct (dict_get (py_sorted (remove_dups (S ++ T))) lp_xs) as [xU|] eqn:HxU;
      simpl; [|intros [= <-]; by eapply dict_get_Raise].
    destruct (dict_get (py_sorted (filter _ S)) lp_xs) as [xI|] eqn:HxI; simpl;
      [|intros [= <-]; by eapply dict_get_Raise].
    done.
Qed.

(** *** The nested loops *)

Lemma elem_of_range a b i : i ∈ range a b <-> (a <= i < b)%nat.
Proof. unfold range. rewrite elem_of_seq. lia. Qed.

Lemma length_dict_keys {V} (xs : dict Subset V) : length (dict_keys xs) = length xs.
Proof. unfold dict_keys. by rewrite length_fmap. Qed.

Lemma inner_loop_extends xs S prob prob' l :
  foldM (fun prob y => T ← py_index (dict_keys xs) y;
                       pair_constraints (LpVariable_dicts xs) prob S T) prob l
  = Ok prob' ->
  extends prob prob'.
Proof.
  apply foldM_extends. intros a y a' _.
  destruct (py_index (dict_keys xs) y) as [T|]; simpl; [|done].
  by intros (? & _)%pair_constraints_Ok.
Qed.

Lemma pairwise_loop_extends xs prob prob' :
  pairwise_loop xs (LpVariable_dicts xs) prob = Ok prob' -> extends prob prob'.
Proof.
  unfold pairwise_loop. apply foldM_extends. intros a x a' _.
  destruct (py_index (dict_keys xs) x) as [S|]; simpl; [|done].
  apply inner_loop_extends.
Qed.

(** Every pair of positions [x < y] before the last one goes through the
    body of the inner loop. *)
Lemma pairwise_loop_visits xs prob prob' x y S T :
  pairwise_loop xs (LpVariable_dicts xs) prob = Ok prob' ->
  dict_keys xs !! x = Some S -> dict_keys xs !! y = Some T ->
  (x < y)%nat -> (y < length xs - 1)%nat ->
  exists a a', pair_constraints (LpVariable_dicts xs) a S T = Ok a' /\
               extends a' prob'.
Proof.
  intros Hloop HS HT Hxy Hy. unfold pairwise_loop in Hloop.
  assert (HS' : py_index (dict_keys xs) x = Ok S) by (unfold py_index; by rewrite HS).
  assert (HT' : py_index (dict_keys xs) y = Ok T) by (unfold py_index; by rewrite HT).
  apply (foldM_reach _ _ x) in Hloop as (a & a' & Hbody & Hext).
  - rewrite HS' in Hbody. simpl in Hbody.
    apply (foldM_reach _ _ y) in Hbody as (b & b' & Hpair & Hext').
    + rewrite HT' in Hpair. simpl in Hpair.
      exists b, b'. split; [done|]. by eapply extends_trans.
    + intros c z c' _.
      destruct (py_index (dict_keys xs) z) as [T'|]; simpl; [|done].
      by intros (? & _)%pair_constraints_Ok.
    + apply elem_of_range. lia.
  - intros c z c' _.
    destruct (py_index (dict_keys xs) z) as [S'|]; simpl; [|done].
    apply inner_loop_extends.
  - apply elem_of_range. lia.
Qed.

Lemma pairwise_loop_Raise xs lp_xs prob e :
  pairwise_loop xs lp_xs prob = Raise e -> e = KeyError.
Proof.
  unfold pairwise_loop. intros (a & x & Hx & Hbody)%foldM_Raise.
  apply elem_of_range in Hx. unfold py_index in Hbody.
  destruct (dict_keys xs !! x) as [S|] eqn:HS; simpl in Hbody.
  - apply foldM_Raise in Hbody as (b & y & Hy & Hpair).
    apply elem_of_range in Hy.
    destruct (dict_keys xs !! y) as [T|] eqn:HT; simpl in Hpair.
    + by eapply pair_constraints_Raise.
    + apply lookup_ge_None in HT. rewrite length_dict_keys in HT. lia.
  - apply lookup_ge_None in HS. rewrite length_dict_keys in HS. lia.
Qed.

Lemma pairwise_loop_keys xs prob :
  (forall S T, S ∈ dict_keys xs -> T ∈ dict_keys xs ->
     py_sorted (remove_dups (S ++ T)) ∈ dict_keys xs /\
     py_sorted (filter (fun val => val ∈ T) S) ∈ dict_keys xs) ->
  exists prob', pairwise_loop xs (LpVariable_dicts xs) prob = Ok prob'.
Proof.
  intros Hkeys. unfold pairwise_loop. apply foldM_Ok.
  intros a x Hx%elem_of_range.
  destruct (lookup_lt_is_Some_2 (dict_keys xs) x) as [S HS];
    [rewrite length_dict_keys; lia|].
  assert (HS' : py_index (dict_keys xs) x = Ok S) by (unfold py_index; by rewrite HS).
  rewrite HS'. simpl. apply foldM_Ok.
  intros b y Hy%elem_of_range.
  destruct (lookup_lt_is_Some_2 (dict_keys xs) y) as [T HT];
    [rewrite length_dict_keys; lia|].
  assert (HT' : py_index (dict_keys xs) y = Ok T) by (unfold py_index; by rewrite HT).
  rewrite HT'. simpl.
  apply list_elem_of_lookup_2 in HS, HT.
  destruct (Hkeys S T HS HT). by apply pair_constraints_keys.
Qed.

(** *** The function as a whole *)

Lemma nil_key_subset_space G : NoDup (nx.nodes G) -> [] ∈ dict_keys (subset_space G).
Proof. intros Hnd. apply elem_of_subset_space; [done|]. apply sublist_nil_l. Qed.

Lemma full_key_subset_space G :
  NoDup (nx.nodes G) -> nx.nodes G ∈ dict_keys (subset_space G).
Proof. intros Hnd. by apply elem_of_subset_space. Qed.

(** The model, once the two lookups that cannot fail are done. *)
Lemma shannon_entropy_model_unfold G :
  NoDup (nx.nodes G) ->
  shannon_entropy_model G
  = (p ← foldM (fun prob vertex =>
                  c ← neighbourhood_constraint G (LpVariable_dicts (subset_space G)) vertex;
                  mret (add_constraint prob c))
               (entropy_start G) (nx.nodes G);
     prob ← pairwise_loop (subset_space G) (LpVariable_dicts (subset_space G)) p;
     mret (prob, LpVariable_dicts (subset_space G))).
Proof.
  intros Hnd. unfold shannon_entropy_model, entropy_start.
  rewrite last_key_subset_space by done. simpl.
  pose proof (dict_get_LpVariable_dicts _ _ (full_key_subset_space G Hnd)) as HV.
  pose proof (dict_get_LpVariable_dicts _ _ (nil_key_subset_space G Hnd)) as HE.
  unfold Subset in *. rewrite HV. simpl. rewrite HE. done.
Qed.

Lemma shannon_entropy_model_Ok G prob lp_xs :
  NoDup (nx.nodes G) ->
  shannon_entropy_model G = Ok (prob, lp_xs) ->
  lp_xs = LpVariable_dicts (subset_space G) /\
  exists p,
    foldM (fun prob vertex =>
             c ← neighbourhood_constraint G (LpVariable_dicts (subset_space G)) vertex;
             mret (add_constraint prob c))
          (entropy_start G) (nx.nodes G) = Ok p /\
    pairwise_loop (subset_space G) (LpVariable_dicts (subset_space G)) p = Ok prob.
Proof.
  intros Hnd. rewrite shannon_entropy_model_unfold by done.
  split_bind; [|done]. split_bind; [|done]. intros [= <- <-].
  split; [done|]. by eexists.
Qed.

Lemma shannon_entropy_model_Raise G e :
  NoDup (nx.nodes G) -> shannon_entropy_model G = Raise e -> e = KeyError.
Proof.
  intros Hnd. rewrite shannon_entropy_model_unfold by done.
  split_bind.
  - split_bind; [done|]. intros [= <-]. by eapply pairwise_loop_Raise.
  - intros [= <-].
    match goal with H : foldM _ _ _ = Raise _ |- _ =>
      apply foldM_Raise in H as (a & x & _ & Hbody) end.
    destruct (neighbourhood_constraint _ _ x) as [c|e'] eqn:Hc; simpl in Hbody; [done|].
    injection Hbody as ->. by eapply neighbourhood_constraint_Raise.
Qed.

Lemma neighbourhood_loop_extends G xs prob prob' l :
  foldM (fun prob vertex =>
           c ← neighbourhood_constraint G (LpVariable_dicts xs) vertex;
           mret (add_constraint prob c)) prob l = Ok prob' ->
  extends prob prob'.
Proof.
  apply foldM_extends. intros a v a' _.
  destruct (neighbourhood_constraint _ _ v) as [c|]; simpl; [|done].
  intros [= <-]. apply extends_add.
Qed.

(** *** The problem after constraints 1 and 2 *)

Lemma entropy_start_eq G :
  sense (entropy_start G) = LpMaximize /\
  objective (entropy_start G) = [(variable (nx.nodes G), 1)] /\
  normalisation_constraint ∈ constraints (entropy_start G).
Proof.
  unfold entropy_start.
  apply (foldl_invariant (fun p => sense p = LpMaximize /\
           objective p = [(variable (nx.nodes G), 1)] /\
           normalisation_constraint ∈ constraints p)).
  - split_and!; [done..|]. simpl. left.
  - intros acc item (Hs & Ho & Hc).
    destruct (decide (length item.1 = 1%nat)); [|done].
    split_and!; [done..|]. simpl. apply elem_of_app. by left.
Qed.

Lemma bound_loop_reach (l : dict Subset LpVariable) (p : LpProblem) (c : LpConstraint) :
  c ∈ constraints p \/
  (exists item, item ∈ l /\ length item.1 = 1%nat /\
     c = {| lhs := term item.2; csense := LpConstraintLE; rhs := 1 |}) ->
  c ∈ constraints
        (foldl (fun prob item =>
                  if decide (length item.1 = 1%nat)
                  then add_constraint prob
                         {| lhs := term item.2; csense := LpConstraintLE; rhs := 1 |}
                  else prob) p l).
Proof.
  revert p. induction l as [|item l IH]; intros p; simpl.
  - intros [?|(? & []%elem_of_nil & _)]. done.
  - intros [Hc|(item' & [->|Hin]%elem_of_cons & Hlen & ->)]; apply IH.
    + left. destruct (decide _); [|done]. simpl. apply elem_of_app. by left.
    + left. destruct (decide _); [|done]. apply elem_of_add.
    + right. by exists item'.
Qed.

Lemma singleton_sublist {A} (x : A) (l : list A) : x ∈ l -> [x] `sublist_of` l.
Proof.
  induction l as [|y l IH]; [by intros ?%elem_of_nil|].
  intros [->|Hx]%elem_of_cons.
  - apply sublist_skip, sublist_nil_l.
  - by apply sublist_cons, IH.
Qed.

Lemma entropy_start_bound G v :
  NoDup (nx.nodes G) -> v ∈ nx.nodes G ->
  bound_constraint v ∈ constraints (entropy_start G).
Proof.
  intros Hnd Hv. unfold entropy_start. apply bound_loop_reach. right.
  exists ([v], variable [v]). split_and!; [|done..].
  unfold LpVariable_dicts. apply list_elem_of_fmap.
  exists ([v], 0). split; [done|].
  rewrite subset_space_eq by done. apply list_elem_of_fmap.
  exists [v]. split; [done|]. apply elem_of_subsets_by_size.
  split; [by apply singleton_sublist|]. simpl.
  destruct (nx.nodes G); [by apply elem_of_nil in Hv|]. simpl. lia.
Qed.
End EntropyModel.

Section EntropyBuilds.
Lemma Sorted_lt_NoDup (l : list Z) : Sorted Z.lt l -> NoDup l.
Proof.
  intros Hs. apply Sorted_StronglySorted in Hs; [|intros ???; lia].
  induction Hs as [|x l Hs IH Hall]; constructor; [|done].
  intros Hx. rewrite Forall_forall in Hall. specialize (Hall x Hx). lia.
Qed.

Lemma py_sorted_Permutation (l : list Z) : py_sorted l ≡ₚ l.
Proof. unfold py_sorted. apply merge_sort_Permutation. Qed.

Lemma py_sorted_perm (l k : list Z) : l ≡ₚ k -> py_sorted l = py_sorted k.
Proof.
  intros Hp. apply (Sorted_unique Z.le).
  - apply Sorted_merge_sort. intros x y. lia.
  - apply Sorted_merge_sort. intros x y. lia.
  - by rewrite !py_sorted_Permutation.
Qed.

Lemma py_sorted_id (l : list Z) : Sorted Z.lt l -> py_sorted l = l.
Proof.
  intros Hs. apply (Sorted_unique Z.le).
  - apply Sorted_merge_sort. intros x y. lia.
  - by apply Sorted_lt_le.
  - apply py_sorted_Permutation.
Qed.

(** In a simple graph every key the model looks up is there. *)
Lemma simple_neighbourhood_keys G v :
  simple G -> v ∈ nx.nodes G ->
  py_sorted (nx.neighbors G v ++ [v]) ∈ dict_keys (subset_space G) /\
  py_sorted (nx.neighbors G v) ∈ dict_keys (subset_space G).
Proof.
  intros [Hwf Hs Hnd Hirr] Hv.
  pose proof (nx.wf_nodes G Hwf) as Hnodes.
  rewrite !elem_of_subset_space by done. split.
  - apply py_sorted_sublist; [done| |].
    + apply NoDup_app. split_and!; [done| |apply NoDup_singleton].
      intros x Hx ->%list_elem_of_singleton. by eapply Hirr.
    + intros x [Hx| ->%list_elem_of_singleton]%elem_of_app; [|done].
      by eapply nx.wf_closed.
  - apply py_sorted_sublist; [done..|].
    intros x Hx. by eapply nx.wf_closed.
Qed.

Lemma sorted_pair_keys G S T :
  Sorted Z.lt (nx.nodes G) ->
  S ∈ dict_keys (subset_space G) -> T ∈ dict_keys (subset_space G) ->
  py_sorted (remove_dups (S ++ T)) ∈ dict_keys (subset_space G) /\
  py_sorted (filter (fun val => val ∈ T) S) ∈ dict_keys (subset_space G).
Proof.
  intros Hs. pose proof (Sorted_lt_NoDup _ Hs) as Hnodes.
  rewrite !elem_of_subset_space by done. intros HS HT. split.
  - apply py_sorted_sublist; [done|apply NoDup_remove_dups|].
    intros x [Hx|Hx]%elem_of_remove_dups%elem_of_app;
      [by apply (sublist_subseteq _ _ HS)|by apply (sublist_subseteq _ _ HT)].
  - apply py_sorted_sublist; [done| |].
    + apply NoDup_filter. by eapply sublist_NoDup.
    + intros x [_ Hx]%list_elem_of_filter. by apply (sublist_subseteq _ _ HS).
Qed.

Lemma sublist_by_combinations (l s : list Z) :
  s ∈ itertools.combinations l (length s) -> s `sublist_of` l.
Proof. by intros [? _]%elem_of_combinations. Qed.

Lemma path3_simple : simple path3.
Proof.
  destruct (simple_add_nodes_from_range 3) as [Hs Hn].
  change (range_list 3) with [0; 1; 2] in *.
  unfold path3. apply simple_add_edge; [apply simple_add_edge| | |];
    try done; apply (bool_decide_unpack _); by vm_compute.
Qed.
End EntropyBuilds.

Section EntropyBuilt.
Lemma simple_model_builds (G : nx.Graph) :
  simple G ->
  exists prob,
    shannon_entropy_model G = Ok (prob, LpVariable_dicts (subset_space G)) /\
    sense prob = LpMaximize /\
    objective prob = [(variable (nx.nodes G), 1)].
Proof.
  intros HG. pose proof (nx.wf_nodes G (simple_wf G HG)) as Hnd.
  rewrite shannon_entropy_model_unfold by done.
  rewrite (foldM_add_constraints _ (closed_neighbourhood_constraint G)).
  2:{ intros v Hv. destruct (simple_neighbourhood_keys G v HG Hv).
      by apply neighbourhood_constraint_keys. }
  simpl.
  match goal with
  | |- context [pairwise_loop ?xs _ ?p] =>
      destruct (pairwise_loop_keys xs p) as [prob Hprob]
  end.
  { intros S T. apply sorted_pair_keys. by destruct HG. }
  rewrite Hprob. simpl. exists prob. split; [done|].
  apply pairwise_loop_extends in Hprob as (Hs & Ho & _).
  destruct (entropy_start_eq G) as (Hs' & Ho' & _).
  simpl in Hs, Ho. split; congruence.
Qed.
End EntropyBuilt.

(** X5: for every simple graph the entropy model is built: no lookup fails.
    It maximises the variable of the full vertex set over one variable per
    subset. *)
Theorem shannon_entropy_model_builds (G : nx.Graph) :
  simple G ->
  exists prob,
    shannon_entropy_model G = Ok (prob, LpVariable_dicts (subset_space G)) /\
    sense prob = LpMaximize /\
    objective prob = [(variable (nx.nodes G), 1)].
Proof. apply simple_model_builds. Qed.

Lemma shannon_entropy_model_builds_witness :
  exists prob,
    shannon_entropy_model path3 = Ok (prob, LpVariable_dicts (subset_space path3)) /\
    sense prob = LpMaximize /\
    objective prob = [(variable (nx.nodes path3), 1)].
Proof. apply (shannon_entropy_model_builds path3), path3_simple. Defined.

Section EntropyContents.
(** What a model that was built went through: every vertex of the third
    loop, and every pair of positions before the last one. *)
Lemma shannon_entropy_model_neighbourhood G prob lp_xs v :
  NoDup (nx.nodes G) -> shannon_entropy_model G = Ok (prob, lp_xs) ->
  v ∈ nx.nodes G ->
  closed_neighbourhood_constraint G v ∈ constraints prob /\
  py_sorted (nx.neighbors G v ++ [v]) ∈ dict_keys (subset_space G) /\
  py_sorted (nx.neighbors G v) ∈ dict_keys (subset_space G).
Proof.
  intros Hnd (-> & p & Hloop & Hpairs)%shannon_entropy_model_Ok Hv; [|done].
  apply (foldM_reach _ _ v) in Hloop as (a & a' & Hbody & Hext); [|..|done].
  - destruct (neighbourhood_constraint _ _ v) as [c|] eqn:Hc; simpl in Hbody; [|done].
    injection Hbody as <-.
    apply neighbourhood_constraint_Ok in Hc as (-> & Ha & Hb).
    split; [|done].
    apply pairwise_loop_extends in Hpairs as (_ & _ & Hsub).
    destruct Hext as (_ & _ & Hsub'). apply Hsub, Hsub', elem_of_add.
  - intros b y b' _.
    destruct (neighbourhood_constraint _ _ y) as [c|]; simpl; [|done].
    intros [= <-]. apply extends_add.
Qed.

Lemma shannon_entropy_model_pair G prob lp_xs x y S T :
  NoDup (nx.nodes G) -> shannon_entropy_model G = Ok (prob, lp_xs) ->
  dict_keys (subset_space G) !! x = Some S ->
  dict_keys (subset_space G) !! y = Some T ->
  (x < y)%nat -> (y < length (dict_keys (subset_space G)) - 1)%nat ->
  (S ⊆ T -> monotonicity_constraint S T ∈ constraints prob) /\
  (~ S ⊆ T -> submodularity_constraint S T ∈ constraints prob /\
              py_sorted (remove_dups (S ++ T)) ∈ dict_keys (subset_space G)).
Proof.
  intros Hnd (-> & p & Hloop & Hpairs)%shannon_entropy_model_Ok HS HT Hxy Hy;
    [|done].
  rewrite length_dict_keys in Hy.
  destruct (pairwise_loop_visits _ _ _ x y S T Hpairs HS HT Hxy Hy)
    as (a & a' & Hpair & (_ & _ & Hsub)).
  apply pair_constraints_Ok in Hpair as (_ & Hmono & Hsubm). split.
  - intros Hin. by apply Hsub, Hmono.
  - intros Hin. destruct (Hsubm Hin). split; [by apply Hsub|done].
Qed.

Lemma shannon_entropy_model_start G prob lp_xs :
  NoDup (nx.nodes G) -> shannon_entropy_model G = Ok (prob, lp_xs) ->
  lp_xs = LpVariable_dicts (subset_space G) /\ extends (entropy_start G) prob.
Proof.
  intros Hnd (-> & p & Hloop & Hpairs)%shannon_entropy_model_Ok; [|done].
  split; [done|]. eapply extends_trans.
  - by eapply neighbourhood_loop_extends.
  - by eapply pairwise_loop_extends.
Qed.

(** *** Where a key stands among the keys *)

Lemma length_keys G :
  NoDup (nx.nodes G) ->
  length (dict_keys (subset_space G)) = (2 ^ length (nx.nodes G))%nat.
Proof.
  intros Hnd. rewrite subset_space_keys by done.
  apply length_subsets_by_size. lia.
Qed.

Lemma key_position G S :
  NoDup (nx.nodes G) -> S `sublist_of` nx.nodes G -> S <> nx.nodes G ->
  exists x, dict_keys (subset_space G) !! x = Some S /\
            (x < length (dict_keys (subset_space G)) - 1)%nat.
Proof.
  intros Hnd HS Hne.
  apply (elem_of_subset_space G S Hnd) in HS.
  apply list_elem_of_lookup_1 in HS as [x Hx]. exists x. split; [done|].
  pose proof (lookup_lt_Some _ _ _ Hx) as Hlt.
  pose proof (last_key_subset_space G Hnd) as Hlast. rewrite last_lookup in Hlast.
  destruct (decide (x = pred (length (dict_keys (subset_space G))))) as [->|];
    unfold Subset in *; [|lia].
  congruence.
Qed.

Lemma keys_NoDup G : NoDup (nx.nodes G) -> NoDup (dict_keys (subset_space G)).
Proof.
  intros Hnd. rewrite subset_space_keys by done. by apply NoDup_subsets_by_size.
Qed.

Lemma subsets_from_length {A} (l : list A) a m s :
  s ∈ concat (map (itertools.combinations l) (seq a m)) -> (a <= length s)%nat.
Proof.
  intros (c & Hs & (r & -> & Hr%elem_of_seq)%list_elem_of_fmap)%elem_of_concat.
  apply elem_of_combinations in Hs as [_ <-]. lia.
Qed.

(** The keys come by increasing size. *)
Lemma subsets_by_size_ordered {A} (l : list A) m a i j s t :
  concat (map (itertools.combinations l) (seq a m)) !! i = Some s ->
  concat (map (itertools.combinations l) (seq a m)) !! j = Some t ->
  (i <= j)%nat -> (length s <= length t)%nat.
Proof.
  revert a i j. induction m as [|m IH]; intros a i j; simpl; [done|].
  rewrite !lookup_app_Some.
  intros [Hi|[Hi Hi']] [Hj|[Hj Hj']] Hij.
  - apply list_elem_of_lookup_2, elem_of_combinations in Hi as [_ ->].
    apply list_elem_of_lookup_2, elem_of_combinations in Hj as [_ ->]. done.
  - apply list_elem_of_lookup_2, elem_of_combinations in Hi as [_ ->].
    apply list_elem_of_lookup_2, subsets_from_length in Hj'. lia.
  - apply lookup_lt_Some in Hj. lia.
  - eapply (IH (S a)); [done..|lia].
Qed.

Lemma keys_ordered G x y S T :
  NoDup (nx.nodes G) ->
  dict_keys (subset_space G) !! x = Some S ->
  dict_keys (subset_space G) !! y = Some T ->
  (length S < length T)%nat -> (x < y)%nat.
Proof.
  intros Hnd. rewrite subset_space_keys by done. unfold subsets_by_size.
  intros HS HT Hlen. destruct (decide (x < y)%nat); [done|].
  pose proof (subsets_by_size_ordered _ _ _ y x T S HT HS). lia.
Qed.

Lemma proper_subset_shorter (nodes S T : list Z) :
  NoDup nodes -> S `sublist_of` nodes -> T `sublist_of` nodes ->
  S ⊆ T -> S <> T -> (length S < length T)%nat.
Proof.
  intros Hnd HS HT Hsub Hne.
  assert (Hm : S ⊆+ T).
  { apply NoDup_submseteq; [by eapply sublist_NoDup|done]. }
  pose proof (submseteq_length _ _ Hm) as Hle.
  destruct (decide (length S = length T)) as [Heq|]; [|lia].
  exfalso. apply Hne. apply (sublist_same_members nodes); [done..|].
  assert (Hp : S ≡ₚ T) by (apply submseteq_length_Permutation; [done|lia]).
  intros z. by rewrite Hp.
Qed.
End EntropyContents.

Section EntropyKeyError.
Lemma not_Sorted_inv (l : list Z) :
  ~ Sorted Z.lt l ->
  exists pre a b post, l = pre ++ a :: b :: post /\ ~ a < b.
Proof.
  induction l as [|x l IH]; intros Hn; [destruct Hn; constructor|].
  destruct (decide (Sorted Z.lt l)) as [Hs|Hs].
  - destruct l as [|y l]; [destruct Hn; by repeat constructor|].
    exists [], x, y, l. split; [done|]. intros Hxy. apply Hn. constructor; [done|by constructor].
  - destruct (IH Hs) as (pre & a & b & post & -> & Hab).
    by exists (x :: pre), a, b, post.
Qed.

Lemma unsorted_pair_key (nodes K : list Z) a b :
  NoDup nodes -> [a; b] `sublist_of` nodes -> ~ a < b ->
  K ≡ₚ [a; b] -> Sorted Z.le K -> ~ K `sublist_of` nodes.
Proof.
  intros Hnd Hab Hlt Hp Hs HK.
  assert (K = [a; b]) as ->.
  { apply (sublist_same_members nodes); [done..|]. intros z. by rewrite Hp. }
  pose proof (sublist_NoDup _ _ Hnd Hab) as [Hne _]%NoDup_cons.
  apply Sorted_inv in Hs as [_ Hhd]. apply HdRel_inv in Hhd.
  apply Hlt. assert (a <> b) by (intros ->; apply Hne; left). lia.
Qed.

Lemma pair_union_Permutation (a b : Z) :
  a <> b -> remove_dups ([a] ++ [b]) ≡ₚ [a; b] /\ remove_dups ([b] ++ [a]) ≡ₚ [a; b].
Proof.
  intros Hne. split; (apply NoDup_Permutation;
    [apply NoDup_remove_dups|by apply NoDup_cons_2;
       [intros ?%list_elem_of_singleton|apply NoDup_singleton]|]);
    intros z; rewrite elem_of_remove_dups; simpl; rewrite !elem_of_cons; tauto.
Qed.
End EntropyKeyError.

(** X6: a vertex adjacent to itself makes the entropy model raise [KeyError]:
    its closed neighbourhood, sorted, lists it twice and is no key. *)
Theorem shannon_entropy_model_self_loop (G : nx.Graph) (v : Z) :
  NoDup (nx.nodes G) -> v ∈ nx.nodes G -> v ∈ nx.neighbors G v ->
  shannon_entropy_model G = Raise KeyError.
Proof.
  intros Hnd Hv Hloop.
  destruct (shannon_entropy_model G) as [[prob lp_xs]|e] eqn:Hmodel.
  - exfalso.
    destruct (shannon_entropy_model_neighbourhood G prob lp_xs v Hnd Hmodel Hv)
      as (_ & Hkey & _).
    apply (elem_of_subset_space G _ Hnd) in Hkey.
    apply sublist_NoDup in Hkey; [|done].
    rewrite py_sorted_Permutation in Hkey.
    apply NoDup_app in Hkey as (_ & Hdisj & _).
    apply (Hdisj v Hloop). left.
  - f_equal. by eapply shannon_entropy_model_Raise.
Qed.

Lemma shannon_entropy_model_self_loop_witness :
  shannon_entropy_model self_loop_graph = Raise KeyError.
Proof.
  apply (shannon_entropy_model_self_loop self_loop_graph 0);
    apply (bool_decide_unpack _); by vm_compute.
Defined.

Section EntropySorted.
(** A model that was built went through a pair of singletons for any two
    nodes next to each other, and found the key of their sorted union. *)
Lemma built_model_sorted (G : nx.Graph) prob lp_xs :
  NoDup (nx.nodes G) -> shannon_entropy_model G = Ok (prob, lp_xs) ->
  Sorted Z.lt (nx.nodes G).
Proof.
  intros Hnd Hmodel.
  destruct (decide (Sorted Z.lt (nx.nodes G))) as [|Hns]; [done|].
  exfalso. destruct (not_Sorted_inv _ Hns) as (pre & a & b & post & Hnodes & Hab).
  assert (Hsub : [a; b] `sublist_of` nx.nodes G).
  { rewrite Hnodes. apply sublist_inserts_l.
    apply sublist_skip, sublist_skip, sublist_nil_l. }
  pose proof (sublist_NoDup _ _ Hnd Hsub) as [Hne _]%NoDup_cons.
  assert (Hne' : a <> b) by (intros ->; apply Hne; left).
  assert (Hlen : (2 <= length (nx.nodes G))%nat)
    by (apply sublist_length in Hsub; simpl in Hsub; lia).
  assert (Ha : [a] `sublist_of` nx.nodes G).
  { etrans; [|exact Hsub]. apply sublist_skip, sublist_nil_l. }
  assert (Hb : [b] `sublist_of` nx.nodes G).
  { etrans; [|exact Hsub]. apply sublist_cons, sublist_skip, sublist_nil_l. }
  destruct (key_position G [a] Hnd Ha) as (x & Hx & Hxl).
  { intros Heq. rewrite <-Heq in Hlen. simpl in Hlen. lia. }
  destruct (key_position G [b] Hnd Hb) as (y & Hy & Hyl).
  { intros Heq. rewrite <-Heq in Hlen. simpl in Hlen. lia. }
  destruct (pair_union_Permutation a b Hne') as [Hp1 Hp2].
  assert (Hkey : exists K, K ≡ₚ [a; b] /\ Sorted Z.le K /\
                           K ∈ dict_keys (subset_space G)).
  { destruct (lt_eq_lt_dec x y) as [[Hlt|Heq]|Hlt].
    - destruct (shannon_entropy_model_pair G prob lp_xs x y [a] [b]
                  Hnd Hmodel Hx Hy Hlt Hyl) as [_ Hs].
      assert (Hnot : ~ [a] ⊆ [b]).
      { intros Hin. apply Hne'. specialize (Hin a).
        rewrite !list_elem_of_singleton in Hin. by apply Hin. }
      destruct (Hs Hnot) as [_ HK].
      eexists. split_and!; [|apply Sorted_merge_sort; intros ??; lia|exact HK].
      by rewrite py_sorted_Permutation.
    - subst y. congruence.
    - destruct (shannon_entropy_model_pair G prob lp_xs y x [b] [a]
                  Hnd Hmodel Hy Hx Hlt Hxl) as [_ Hs].
      assert (Hnot : ~ [b] ⊆ [a]).
      { intros Hin. apply Hne'. specialize (Hin b).
        rewrite !list_elem_of_singleton in Hin. symmetry. by apply Hin. }
      destruct (Hs Hnot) as [_ HK].
      eexists. split_and!; [|apply Sorted_merge_sort; intros ??; lia|exact HK].
      by rewrite py_sorted_Permutation. }
  destruct Hkey as (K & Hp & Hs & HK).
  apply (elem_of_subset_space G K Hnd) in HK.
  by eapply (unsorted_pair_key (nx.nodes G) K a b).
Qed.
End EntropySorted.

(** X7: nodes that are not in ascending order make the entropy model raise
    [KeyError]: the sorted union of two singletons that stand the wrong way
    round is no key. *)
Theorem shannon_entropy_model_unsorted_nodes (G : nx.Graph) :
  NoDup (nx.nodes G) -> ~ Sorted Z.lt (nx.nodes G) ->
  shannon_entropy_model G = Raise KeyError.
Proof.
  intros Hnd Hns.
  destruct (shannon_entropy_model G) as [[prob lp_xs]|e] eqn:Hmodel.
  - destruct Hns. by eapply built_model_sorted.
  - f_equal. by eapply shannon_entropy_model_Raise.
Qed.

Lemma shannon_entropy_model_unsorted_nodes_witness :
  shannon_entropy_model swapped_graph = Raise KeyError.
Proof.
  apply (shannon_entropy_model_unsorted_nodes swapped_graph);
    apply (bool_decide_unpack _); by vm_compute.
Defined.

(** X22: for a well-formed graph that lists no neighbour twice, the entropy
    model is built exactly when the nodes are in ascending order and no
    vertex is adjacent to itself; otherwise building it raises
    [KeyError]. *)
Theorem shannon_entropy_model_builds_iff (G : nx.Graph) :
  nx.wf G -> (forall u, NoDup (nx.neighbors G u)) ->
  ((exists prob lp_xs, shannon_entropy_model G = Ok (prob, lp_xs)) <->
   Sorted Z.lt (nx.nodes G) /\ forall u, u ∉ nx.neighbors G u) /\
  ((forall prob lp_xs, shannon_entropy_model G <> Ok (prob, lp_xs)) ->
   shannon_entropy_model G = Raise KeyError).
Proof.
  intros HG Hnbrs. pose proof (nx.wf_nodes G HG) as Hnd. split; [split|].
  - intros (prob & lp_xs & Hmodel). split; [by eapply built_model_sorted|].
    intros u Hu.
    assert (Hin : u ∈ nx.nodes G) by (by apply (nx.wf_closed G HG u u)).
    destruct (shannon_entropy_model_neighbourhood G prob lp_xs u Hnd Hmodel Hin)
      as (_ & Hkey & _).
    apply (elem_of_subset_space G _ Hnd) in Hkey.
    apply sublist_NoDup in Hkey; [|done].
    rewrite py_sorted_Permutation in Hkey.
    apply NoDup_app in Hkey as (_ & Hdisj & _).
    apply (Hdisj u Hu). left.
  - intros [Hs Hirr]. destruct (simple_model_builds G) as (prob & Hp & _);
      [by split|]. by eexists _, _.
  - intros Hno. destruct (shannon_entropy_model G) as [[prob lp_xs]|e] eqn:Hmodel.
    + by destruct (Hno prob lp_xs).
    + f_equal. by eapply shannon_entropy_model_Raise.
Qed.

Lemma shannon_entropy_model_builds_iff_witness :
  ((exists prob lp_xs, shannon_entropy_model path3 = Ok (prob, lp_xs)) <->
   Sorted Z.lt (nx.nodes path3) /\ forall u, u ∉ nx.neighbors path3 u) /\
  ((forall prob lp_xs, shannon_entropy_model path3 <> Ok (prob, lp_xs)) ->
   shannon_entropy_model path3 = Raise KeyError).
Proof.
  apply (shannon_entropy_model_builds_iff path3); by destruct path3_simple.
Defined.

(** * The Shannon entropy model: what its feasible assignments satisfy *)

Section EntropyFeasible.
Local Open Scope Q_scope.

Lemma eval_zero e : eval zero e == 0.
Proof. induction e as [|t e IH]; simpl; [lra|]. unfold zero in *. lra. Qed.

Lemma holds_zero c :
  (csense c = LpConstraintLE -> (0 <= rhs c)%Z) ->
  (csense c = LpConstraintEQ -> rhs c = 0%Z) ->
  (csense c = LpConstraintGE -> (rhs c <= 0)%Z) ->
  holds zero c.
Proof.
  unfold holds. intros Hle Heq Hge. pose proof (eval_zero (lhs c)) as Hz.
  destruct (csense c).
  - specialize (Hle eq_refl). rewrite Hz. unfold Qle. simpl. lia.
  - rewrite Heq by done. rewrite Hz. done.
  - specialize (Hge eq_refl). rewrite Hz. unfold Qle. simpl. lia.
Qed.

Lemma holds_add (w : assignment) p c :
  Forall (holds w) (constraints p) -> holds w c ->
  Forall (holds w) (constraints (add_constraint p c)).
Proof. intros Hp Hc. simpl. apply Forall_app. split; [done|]. by constructor. Qed.

Lemma neighbourhood_constraint_shape G lp_xs v c :
  neighbourhood_constraint G lp_xs v = Ok c ->
  csense c = LpConstraintEQ /\ rhs c = 0%Z.
Proof.
  unfold neighbourhood_constraint.
  destruct (dict_get (py_sorted (_ ++ _)) _) as [a|]; simpl; [|done].
  destruct (dict_get (py_sorted (nx.neighbors G v)) _) as [b|]; simpl; [|done].
  by intros [= <-].
Qed.

Lemma pair_constraints_zero lp_xs prob S T prob' :
  Forall (holds zero) (constraints prob) ->
  pair_constraints lp_xs prob S T = Ok prob' ->
  Forall (holds zero) (constraints prob').
Proof.
  intros Hp. unfold pair_constraints.
  destruct (decide (S ⊆ T)); simpl.
  - destruct (dict_get T lp_xs) as [xT|]; simpl; [|done].
    destruct (dict_get S lp_xs) as [xS|]; simpl; [|done].
    destruct (decide (~ S ⊆ T)); [done|]. intros [= <-].
    apply holds_add; [done|]. by apply holds_zero.
  - destruct (decide (~ S ⊆ T)); [|done].
    destruct (dict_get S lp_xs) as [xS|]; simpl; [|done].
    destruct (dict_get T lp_xs) as [xT|]; simpl; [|done].
    destruct (dict_get (py_sorted (remove_dups (S ++ T))) lp_xs) as [xU|];
      simpl; [|done].
    destruct (dict_get (py_sorted (filter _ S)) lp_xs) as [xI|]; simpl; [|done].
    intros [= <-]. apply holds_add; [done|]. by apply holds_zero.
Qed.

Lemma in_bounds_variables (w : assignment) (xs : dict Subset Z) :
  Forall (in_bounds w) (dict_values (LpVariable_dicts xs)) <->
  forall k, k ∈ dict_keys xs -> 0 <= w k.
Proof.
  rewrite dict_values_LpVariable_dicts, Forall_forall. split.
  - intros Hb k Hk. destruct (Hb (variable k)) as [Hl _]; [|done].
    apply list_elem_of_fmap. by exists k.
  - intros Hk x (k & -> & Hin)%list_elem_of_fmap. split; simpl; [|done].
    by apply Hk.
Qed.
End EntropyFeasible.

Section EntropyZero.
Lemma entropy_zero_feasible (G : nx.Graph) prob lp_xs :
  shannon_entropy_model G = Ok (prob, lp_xs) -> feasible prob lp_xs zero.
Proof.
  unfold shannon_entropy_model.
  destruct (last _) as [k_last|]; simpl; [|done].
  destruct (dict_get k_last _) as [x_last|]; simpl; [|done].
  destruct (dict_get [] _) as [x_empty|]; simpl; [|done].
  destruct (foldM _ _ (nx.nodes G)) as [p|] eqn:Hloop; simpl; [|done].
  destruct (pairwise_loop _ _ p) as [p'|] eqn:Hpairs; simpl; [|done].
  intros [= <- <-]. split.
  - set (I := fun q : LpProblem => Forall (holds zero) (constraints q)).
    revert Hpairs. unfold pairwise_loop. apply (foldM_invariant I).
    + revert Hloop. apply (foldM_invariant I).
      * apply (foldl_invariant I).
        -- apply holds_add; [constructor|]. by apply holds_zero.
        -- intros acc item Hacc. destruct (decide _); [|done].
           apply holds_add; [done|]. by apply holds_zero.
      * intros acc v acc' _ Hacc.
        destruct (neighbourhood_constraint _ _ v) as [c|] eqn:Hc; simpl; [|done].
        apply neighbourhood_constraint_shape in Hc as [Hs Hr].
        intros [= <-]. apply holds_add; [done|]. apply holds_zero; congruence.
    + intros acc x acc' _ Hacc.
      destruct (py_index _ x) as [S|]; simpl; [|done].
      apply (foldM_invariant I); [done|].
      intros acc1 y acc1' _ Hacc1.
      destruct (py_index _ y) as [T|]; simpl; [|done].
      by apply pair_constraints_zero.
  - apply in_bounds_variables. intros k _. done.
Qed.
End EntropyZero.

(** X8: whenever the entropy model is built, giving every subset the value 0
    satisfies all its constraints and bounds. *)
Theorem shannon_entropy_zero_feasible (G : nx.Graph) prob lp_xs :
  shannon_entropy_model G = Ok (prob, lp_xs) -> feasible prob lp_xs zero.
Proof. apply entropy_zero_feasible. Qed.

Lemma shannon_entropy_zero_feasible_witness :
  exists prob lp_xs,
    shannon_entropy_model path3 = Ok (prob, lp_xs) /\ feasible prob lp_xs zero.
Proof.
  destruct (shannon_entropy_model path3) as [[prob lp_xs]|] eqn:Hmodel;
    [|by vm_compute in Hmodel].
  exists prob, lp_xs. split; [done|].
  by apply (shannon_entropy_zero_feasible path3).
Defined.

Section EntropyInequalities.
Local Open Scope Q_scope.

Lemma holds_normalisation (w : assignment) :
  holds w normalisation_constraint -> w [] == 0.
Proof. unfold holds. simpl. unfold inject_Z. lra. Qed.

Lemma holds_bound (w : assignment) v : holds w (bound_constraint v) -> w [v] <= 1.
Proof. unfold holds. simpl. unfold inject_Z. lra. Qed.

Lemma holds_closed_neighbourhood (w : assignment) G v :
  holds w (closed_neighbourhood_constraint G v) ->
  w (py_sorted (nx.neighbors G v ++ [v])) == w (py_sorted (nx.neighbors G v)).
Proof. unfold holds. simpl. unfold inject_Z. lra. Qed.

Lemma holds_monotonicity (w : assignment) S T :
  holds w (monotonicity_constraint S T) -> w S <= w T.
Proof. unfold holds. simpl. unfold inject_Z. lra. Qed.

Lemma holds_submodularity (w : assignment) S T :
  holds w (submodularity_constraint S T) ->
  w (py_sorted (remove_dups (S ++ T))) + w (py_sorted (filter (fun val => val ∈ T) S))
  <= w S + w T.
Proof. unfold holds. simpl. unfold inject_Z. lra. Qed.

Context (G : nx.Graph) (prob : LpProblem) (lp_xs : dict Subset LpVariable)
        (w : assignment).
Hypothesis nodes_NoDup : NoDup (nx.nodes G).
Hypothesis built : shannon_entropy_model G = Ok (prob, lp_xs).
Hypothesis w_feasible : feasible prob lp_xs w.

Lemma feasible_holds c : c ∈ constraints prob -> holds w c.
Proof. destruct w_feasible as [Hc _]. rewrite Forall_forall in Hc. apply Hc. Qed.

Lemma feasible_nonneg S : S `sublist_of` nx.nodes G -> 0 <= w S.
Proof.
  intros HS. destruct w_feasible as [_ Hb].
  destruct (shannon_entropy_model_start G prob lp_xs nodes_NoDup built) as [-> _].
  rewrite in_bounds_variables in Hb. apply Hb. by apply elem_of_subset_space.
Qed.

Lemma feasible_empty : w [] == 0.
Proof.
  apply holds_normalisation, feasible_holds.
  destruct (shannon_entropy_model_start G prob lp_xs nodes_NoDup built)
    as (_ & _ & _ & Hsub).
  apply Hsub, entropy_start_eq.
Qed.

Lemma feasible_singleton v : v ∈ nx.nodes G -> w [v] <= 1.
Proof.
  intros Hv. apply holds_bound, feasible_holds.
  destruct (shannon_entropy_model_start G prob lp_xs nodes_NoDup built)
    as (_ & _ & _ & Hsub).
  by apply Hsub, entropy_start_bound.
Qed.

Lemma feasible_monotone S T :
  S `sublist_of` nx.nodes G -> T `sublist_of` nx.nodes G ->
  S ⊆ T -> T <> nx.nodes G -> w S <= w T.
Proof.
  intros HS HT Hsub HT'.
  destruct (decide (S = T)) as [->|Hne]; [apply Qle_refl|].
  pose proof (proper_subset_shorter _ S T nodes_NoDup HS HT Hsub Hne) as Hlen.
  destruct (key_position G T nodes_NoDup HT HT') as (y & Hy & Hyl).
  destruct (key_position G S nodes_NoDup HS) as (x & Hx & _).
  { intros ->. apply sublist_length in HT. lia. }
  pose proof (keys_ordered G x y S T nodes_NoDup Hx Hy Hlen) as Hxy.
  destruct (shannon_entropy_model_pair G prob lp_xs x y S T
              nodes_NoDup built Hx Hy Hxy Hyl) as [Hmono _].
  by apply holds_monotonicity, feasible_holds, Hmono.
Qed.

Lemma feasible_submodular S T :
  S `sublist_of` nx.nodes G -> T `sublist_of` nx.nodes G ->
  S <> nx.nodes G -> T <> nx.nodes G -> ~ S ⊆ T -> ~ T ⊆ S ->
  w (py_sorted (remove_dups (S ++ T))) + w (py_sorted (filter (fun val => val ∈ T) S))
  <= w S + w T.
Proof.
  intros HS HT HS' HT' HST HTS.
  destruct (key_position G S nodes_NoDup HS HS') as (x & Hx & Hxl).
  destruct (key_position G T nodes_NoDup HT HT') as (y & Hy & Hyl).
  destruct (lt_eq_lt_dec x y) as [[Hlt|Heq]|Hlt].
  - destruct (shannon_entropy_model_pair G prob lp_xs x y S T
                nodes_NoDup built Hx Hy Hlt Hyl) as [_ Hs].
    destruct (Hs HST) as [Hc _].
    by apply holds_submodularity, feasible_holds.
  - subst y. exfalso. apply HST. congruence.
  - destruct (shannon_entropy_model_pair G prob lp_xs y x T S
                nodes_NoDup built Hy Hx Hlt Hxl) as [_ Hs].
    destruct (Hs HTS) as [Hc _].
    apply feasible_holds, holds_submodularity in Hc.
    pose proof (sublist_NoDup _ _ nodes_NoDup HS) as HSnd.
    pose proof (sublist_NoDup _ _ nodes_NoDup HT) as HTnd.
    rewrite (py_sorted_perm (remove_dups (S ++ T)) (remove_dups (T ++ S))).
    2:{ apply NoDup_Permutation; [apply NoDup_remove_dups..|].
        intros z. rewrite !elem_of_remove_dups, !elem_of_app. tauto. }
    rewrite (py_sorted_perm (filter (fun val => val ∈ T) S)
                            (filter (fun val => val ∈ S) T)).
    2:{ apply NoDup_Permutation; [by apply NoDup_filter..|].
        intros z. rewrite !list_elem_of_filter. tauto. }
    eapply Qle_trans; [exact Hc|]. lra.
Qed.

(** A subset is worth at most its size. *)
Lemma feasible_bounded S :
  S `sublist_of` nx.nodes G -> w S <= inject_Z (Z.of_nat (length S)).
Proof.
  pose proof (built_model_sorted G prob lp_xs nodes_NoDup built) as Hsorted.
  induction S as [|a S IH]; intros HS.
  - rewrite feasible_empty. done.
  - assert (HS' : S `sublist_of` nx.nodes G).
    { etrans; [|exact HS]. by apply sublist_cons. }
    assert (Ha : [a] `sublist_of` nx.nodes G).
    { etrans; [|exact HS]. apply sublist_skip, sublist_nil_l. }
    assert (Ha' : a ∈ nx.nodes G).
    { apply (sublist_subseteq _ _ HS). left. }
    pose proof (sublist_NoDup _ _ nodes_NoDup HS) as [HaS HSnd]%NoDup_cons.
    pose proof (sublist_length _ _ HS) as Hlen. simpl in Hlen.
    specialize (IH HS').
    assert (Hstep : inject_Z (Z.of_nat (length (a :: S)))
                    == 1 + inject_Z (Z.of_nat (length S))).
    { simpl length. rewrite Nat2Z.inj_succ. unfold Z.succ.
      rewrite inject_Z_plus. unfold inject_Z. lra. }
    rewrite Hstep.
    destruct S as [|b S].
    + pose proof (feasible_singleton a Ha'). change (inject_Z (Z.of_nat (length []))) with 0.
      lra.
    + pose proof (feasible_singleton a Ha') as H1.
      assert (Hsub : w (py_sorted (remove_dups ([a] ++ b :: S)))
                     + w (py_sorted (filter (fun val => val ∈ b :: S) [a]))
                     <= w [a] + w (b :: S)).
      { apply feasible_submodular; [done..| | | |].
        - intros Heq. rewrite <-Heq in Hlen. simpl in Hlen. lia.
        - intros Heq. rewrite <-Heq in Hlen. simpl in Hlen. lia.
        - intros Hin. apply HaS, Hin. left.
        - intros Hin. apply HaS. specialize (Hin b).
          rewrite list_elem_of_singleton in Hin. rewrite <-Hin; left. }
      rewrite (py_sorted_perm (remove_dups ([a] ++ b :: S)) (a :: b :: S)) in Hsub.
      2:{ apply NoDup_Permutation;
            [apply NoDup_remove_dups|by apply NoDup_cons_2|].
          intros z. by rewrite elem_of_remove_dups. }
      rewrite (py_sorted_id (a :: b :: S)) in Hsub
        by (by eapply Sorted_lt_sublist).
      rewrite filter_cons_False, filter_nil in Hsub by done.
      change (py_sorted []) with (@nil Z) in Hsub.
      rewrite feasible_empty in Hsub. lra.
Qed.
End EntropyInequalities.

(** X9: in every feasible assignment of a model that was built the empty set
    has value 0, no subset has a negative value, a singleton has value at
    most 1 and the closed neighbourhood of a vertex has the value of its
    open neighbourhood. *)
Theorem shannon_entropy_feasible_basics (G : nx.Graph) prob lp_xs (w : assignment) :
  NoDup (nx.nodes G) -> shannon_entropy_model G = Ok (prob, lp_xs) ->
  feasible prob lp_xs w ->
  (w [] == 0)%Q /\
  (forall S, S `sublist_of` nx.nodes G -> (0 <= w S)%Q) /\
  (forall v, v ∈ nx.nodes G ->
     (w [v] <= 1)%Q /\
     (w (py_sorted (nx.neighbors G v ++ [v])) == w (py_sorted (nx.neighbors G v)))%Q).
Proof.
  intros Hnd Hmodel Hw. split_and!.
  - by eapply feasible_empty.
  - intros S HS. by eapply feasible_nonneg.
  - intros v Hv. split; [by eapply feasible_singleton|].
    apply (holds_closed_neighbourhood w G v). eapply feasible_holds; [done|].
    by eapply shannon_entropy_model_neighbourhood.
Qed.

Lemma shannon_entropy_feasible_basics_witness :
  exists prob lp_xs,
    shannon_entropy_model path3 = Ok (prob, lp_xs) /\
    (zero [] == 0)%Q /\
    (forall S, S `sublist_of` nx.nodes path3 -> (0 <= zero S)%Q) /\
    (forall v, v ∈ nx.nodes path3 ->
       (zero [v] <= 1)%Q /\
       (zero (py_sorted (nx.neighbors path3 v ++ [v]))
        == zero (py_sorted (nx.neighbors path3 v)))%Q).
Proof.
  destruct (shannon_entropy_model path3) as [[prob lp_xs]|] eqn:Hmodel;
    [|by vm_compute in Hmodel].
  exists prob, lp_xs. split; [done|].
  apply (shannon_entropy_feasible_basics path3 prob lp_xs zero);
    [apply (bool_decide_unpack _); by vm_compute|done|].
  by apply (entropy_zero_feasible path3).
Defined.

(** X10: constraint 4 as the model has it: in every feasible assignment a
    subset is worth at most a set that contains it, for the sets other
    than the full vertex set. *)
Theorem shannon_entropy_monotone_below_full_set
        (G : nx.Graph) prob lp_xs (w : assignment) (S T : Subset) :
  NoDup (nx.nodes G) -> shannon_entropy_model G = Ok (prob, lp_xs) ->
  feasible prob lp_xs w ->
  S `sublist_of` nx.nodes G -> T `sublist_of` nx.nodes G ->
  S ⊆ T -> T <> nx.nodes G ->
  (w S <= w T)%Q.
Proof. intros. by eapply feasible_monotone. Qed.

Lemma shannon_entropy_monotone_below_full_set_witness :
  exists prob lp_xs,
    shannon_entropy_model path3 = Ok (prob, lp_xs) /\ Qle (zero [0]) (zero [0; 1]).
Proof.
  destruct (shannon_entropy_model path3) as [[prob lp_xs]|] eqn:Hmodel;
    [|by vm_compute in Hmodel].
  exists prob, lp_xs. split; [done|].
  apply (shannon_entropy_monotone_below_full_set path3 prob lp_xs zero [0] [0; 1]);
    [apply (bool_decide_unpack _); by vm_compute|done
    |by apply (entropy_zero_feasible path3)
    |apply sublist_by_combinations, (bool_decide_unpack _); by vm_compute
    |apply sublist_by_combinations, (bool_decide_unpack _); by vm_compute
    |apply (bool_decide_unpack _); by vm_compute..].
Defined.

(** X11: constraint 5 as the model has it: in every feasible assignment two
    subsets other than the full vertex set, neither inside the other, are
    together worth at least their union and their intersection. *)
Theorem shannon_entropy_submodular_below_full_set
        (G : nx.Graph) prob lp_xs (w : assignment) (S T : Subset) :
  NoDup (nx.nodes G) -> shannon_entropy_model G = Ok (prob, lp_xs) ->
  feasible prob lp_xs w ->
  S `sublist_of` nx.nodes G -> T `sublist_of` nx.nodes G ->
  S <> nx.nodes G -> T <> nx.nodes G -> ~ S ⊆ T -> ~ T ⊆ S ->
  (w (py_sorted (remove_dups (S ++ T)))
   + w (py_sorted (filter (fun val => val ∈ T) S)) <= w S + w T)%Q.
Proof. intros. by eapply feasible_submodular. Qed.

Lemma shannon_entropy_submodular_below_full_set_witness :
  exists prob lp_xs,
    shannon_entropy_model path3 = Ok (prob, lp_xs) /\
    Qle (Qplus (zero (py_sorted (remove_dups ([0; 1] ++ [1; 2]))))
               (zero (py_sorted (filter (fun val => val ∈ [1; 2]) [0; 1]))))
        (Qplus (zero [0; 1]) (zero [1; 2])).
Proof.
  destruct (shannon_entropy_model path3) as [[prob lp_xs]|] eqn:Hmodel;
    [|by vm_compute in Hmodel].
  exists prob, lp_xs. split; [done|].
  apply (shannon_entropy_submodular_below_full_set
           path3 prob lp_xs zero [0; 1] [1; 2]);
    [apply (bool_decide_unpack _); by vm_compute|done
    |by apply (entropy_zero_feasible path3)
    |apply sublist_by_combinations, (bool_decide_unpack _); by vm_compute
    |apply sublist_by_combinations, (bool_decide_unpack _); by vm_compute
    |apply (bool_decide_unpack _); by vm_compute..].
Defined.

(** X12: in every feasible assignment of a model that was built a subset is
    worth at most its number of vertices; so the objective, the value of
    the full vertex set, is at most the number of vertices. *)
Theorem shannon_entropy_value_bounded (G : nx.Graph) prob lp_xs (w : assignment) :
  NoDup (nx.nodes G) -> shannon_entropy_model G = Ok (prob, lp_xs) ->
  feasible prob lp_xs w ->
  (forall S, S `sublist_of` nx.nodes G ->
     (w S <= inject_Z (Z.of_nat (length S)))%Q) /\
  (eval w (objective prob) <= inject_Z (Z.of_nat (length (nx.nodes G))))%Q.
Proof.
  intros Hnd Hmodel Hw. split.
  - intros S HS. by eapply feasible_bounded.
  - destruct (shannon_entropy_model_start G prob lp_xs Hnd Hmodel)
      as (_ & _ & Ho & _).
    rewrite Ho. destruct (entropy_start_eq G) as (_ & -> & _). simpl.
    pose proof (feasible_bounded G prob lp_xs w Hnd Hmodel Hw (nx.nodes G)) as Hb.
    specialize (Hb (reflexivity _)). unfold inject_Z in *. lra.
Qed.

Lemma shannon_entropy_value_bounded_witness :
  exists prob lp_xs,
    shannon_entropy_model path3 = Ok (prob, lp_xs) /\
    (forall S, S `sublist_of` nx.nodes path3 ->
       (zero S <= inject_Z (Z.of_nat (length S)))%Q) /\
    (eval zero (objective prob) <= inject_Z (Z.of_nat (length (nx.nodes path3))))%Q.
Proof.
  destruct (shannon_entropy_model path3) as [[prob lp_xs]|] eqn:Hmodel;
    [|by vm_compute in Hmodel].
  exists prob, lp_xs. split; [done|].
  apply (shannon_entropy_value_bounded path3 prob lp_xs zero);
    [apply (bool_decide_unpack _); by vm_compute|done
    |by apply (entropy_zero_feasible path3)].
Defined.

(** * The cover model: bounds on its value *)

Section CoverBounds.
Local Open Scope Q_scope.

Lemma eval_sum_of_app (w : assignment) l k :
  eval w (sum_of (l ++ k)) == eval w (sum_of l) + eval w (sum_of k).
Proof. induction l as [|x l IH]; simpl; [lra|]. rewrite IH. lra. Qed.

Lemma eval_sum_of_submseteq (w : assignment) l k :
  l ⊆+ k -> (forall x, x ∈ k -> 0 <= w x) ->
  eval w (sum_of l) <= eval w (sum_of k).
Proof.
  induction 1 as [|x l1 l2 Hsub IH|x y l|x l1 l2 Hsub IH|l1 l2 l3 H1 IH1 H2 IH2];
    intros Hw; simpl.
  - lra.
  - assert (eval w (sum_of l1) <= eval w (sum_of l2)); [|lra].
    apply IH. intros z Hz. apply Hw. by right.
  - lra.
  - assert (eval w (sum_of l1) <= eval w (sum_of l2)).
    { apply IH. intros z Hz. apply Hw. by right. }
    pose proof (Hw x (list_elem_of_here _ _)). unfold inject_Z. lra.
  - eapply Qle_trans; [apply IH1|by apply IH2].
    intros z Hz. apply Hw. by eapply elem_of_submseteq.
Qed.

Lemma eval_sum_of_Permutation (w : assignment) l k :
  l ≡ₚ k -> eval w (sum_of l) == eval w (sum_of k).
Proof.
  induction 1 as [|x l1 l2 Hp IH|x y l|l1 l2 l3 H1 IH1 H2 IH2]; simpl.
  - lra.
  - rewrite IH. lra.
  - lra.
  - by rewrite IH1.
Qed.

(** The variables outside a part of the keys that are worth 0 do not
    count. *)
Lemma eval_sum_of_filter (w : assignment) (P : Subset -> Prop)
      `{forall k, Decision (P k)} l :
  (forall k, k ∈ l -> ~ P k -> w k == 0) ->
  eval w (sum_of l) == eval w (sum_of (filter P l)).
Proof.
  induction l as [|x l IH]; intros Hw; simpl; [lra|].
  assert (Hl : eval w (sum_of l) == eval w (sum_of (filter P l))).
  { apply IH. intros k Hk. apply Hw. by right. }
  rewrite filter_cons. destruct (decide (P x)) as [|Hn]; simpl.
  - rewrite Hl. lra.
  - rewrite (Hw x (list_elem_of_here _ _) Hn), Hl. lra.
Qed.

Lemma eval_only_member V l :
  NoDup l -> V ∈ l -> eval (only V) (sum_of l) == 1.
Proof.
  intros Hnd HV. rewrite (eval_sum_of_filter _ (fun k => k = V)).
  - assert (filter (fun k => k = V) l = [V]) as ->.
    { clear -Hnd HV. induction l as [|x l IH]; [by apply elem_of_nil in HV|].
      apply NoDup_cons in Hnd as [Hx Hnd]. rewrite filter_cons.
      destruct (decide (x = V)) as [->|Hne].
      - f_equal. clear -Hx. induction l as [|y l IH]; [done|].
        apply not_elem_of_cons in Hx as [Hne Hx]. rewrite filter_cons.
        destruct (decide (y = V)); [congruence|by apply IH].
      - apply IH; [done|]. apply elem_of_cons in HV as [?|?]; [congruence|done]. }
    simpl. unfold only. destruct (decide (V = V)); [|done]. unfold inject_Z. lra.
  - intros k _ Hk. unfold only. by destruct (decide (k = V)).
Qed.

Lemma only_nonneg V k : 0 <= only V k.
Proof. unfold only. destruct (decide _); lra. Qed.

Lemma eval_singletons (w : assignment) (l : list Z) :
  (forall v, v ∈ l -> 1 <= w [v]) ->
  inject_Z (Z.of_nat (length l)) <= eval w (sum_of (map (fun v => [v]) l)).
Proof.
  induction l as [|v l IH]; intros Hw; [by simpl|].
  assert (Hl : inject_Z (Z.of_nat (length l))
               <= eval w (sum_of (map (fun v => [v]) l))).
  { apply IH. intros u Hu. apply Hw. by right. }
  pose proof (Hw v (list_elem_of_here _ _)).
  simpl length. rewrite Nat2Z.inj_succ. unfold Z.succ. rewrite inject_Z_plus.
  simpl. unfold inject_Z in *. lra.
Qed.

Lemma eval_all_singletons (l : list Z) :
  eval all_singletons (sum_of (map (fun v => [v]) l))
  == inject_Z (Z.of_nat (length l)).
Proof.
  induction l as [|v l IH]; [by simpl|].
  simpl length. rewrite Nat2Z.inj_succ. unfold Z.succ. rewrite inject_Z_plus.
  simpl. rewrite IH. unfold all_singletons. simpl. unfold inject_Z. lra.
Qed.

Context (G : nx.Graph).
Hypothesis G_wf : nx.wf G.

Lemma elem_of_cliques_containing v c :
  c ∈ cliques_containing G v <->
  v ∈ c /\ c `sublist_of` nx.nodes G /\ nx.is_clique G c.
Proof.
  destruct (enumerate_all_cliques_spec G G_wf) as [_ Hspec].
  unfold cliques_containing. rewrite list_elem_of_filter, Hspec.
  split; [tauto|]. intros (Hv & Hsub & Hcl). split_and!; try done.
  intros ->. by apply elem_of_nil in Hv.
Qed.

Lemma NoDup_cliques_containing v : NoDup (cliques_containing G v).
Proof.
  destruct (enumerate_all_cliques_spec G G_wf) as [Hnd _]. by apply NoDup_filter.
Qed.

(** The cliques that contain the vertices of an independent set, vertex by
    vertex, are all different. *)
Lemma NoDup_cliques_of_independent (I : list Z) :
  NoDup I -> independent G I ->
  NoDup (concat (map (cliques_containing G) I)).
Proof.
  induction I as [|v I IH]; intros Hnd Hind; simpl; [constructor|].
  apply NoDup_cons in Hnd as [Hv Hnd]. apply NoDup_app. split_and!.
  - apply NoDup_cliques_containing.
  - intros c Hc (l & Hcl & (u & -> & Hu)%list_elem_of_fmap)%elem_of_concat.
    apply elem_of_cliques_containing in Hc as (Hvc & _ & Hclique).
    apply elem_of_cliques_containing in Hcl as (Huc & _ & _).
    assert (v <> u) by (intros ->; done).
    apply (Hind v u); [left|by right|done|]. by apply Hclique.
  - apply IH; [done|]. intros u u' Hu Hu'. apply Hind; by right.
Qed.

Context (w : assignment).
Hypothesis w_feasible :
  feasible {| sense := LpMinimize;
              objective := sum_of (dict_keys (subset_space G));
              constraints := map (cover_constraint G) (nx.nodes G) |}
           (LpVariable_dicts (subset_space G)) w.

Lemma cover_nonneg k : k ∈ dict_keys (subset_space G) -> 0 <= w k.
Proof. destruct w_feasible as [_ Hb]. rewrite in_bounds_variables in Hb. apply Hb. Qed.

Lemma cover_covers v :
  v ∈ nx.nodes G -> 1 <= eval w (sum_of (cliques_containing G v)).
Proof.
  intros Hv. destruct w_feasible as [Hc _]. simpl in Hc.
  rewrite Forall_forall in Hc. specialize (Hc (cover_constraint G v)).
  unfold holds in Hc. simpl in Hc. apply Hc.
  apply list_elem_of_fmap. by exists v.
Qed.

Lemma cover_independent (I : list Z) :
  NoDup I -> I ⊆ nx.nodes G -> independent G I ->
  inject_Z (Z.of_nat (length I)) <= eval w (sum_of (dict_keys (subset_space G))).
Proof.
  intros Hnd Hsub Hind.
  apply Qle_trans with (eval w (sum_of (concat (map (cliques_containing G) I)))).
  - clear Hnd Hind. induction I as [|v I IH]; [by simpl|].
    simpl concat. rewrite eval_sum_of_app.
    assert (Hl : inject_Z (Z.of_nat (length I))
                 <= eval w (sum_of (concat (map (cliques_containing G) I)))).
    { apply IH. intros u Hu. apply Hsub. by right. }
    pose proof (cover_covers v (Hsub v (list_elem_of_here _ _))).
    simpl length. rewrite Nat2Z.inj_succ. unfold Z.succ. rewrite inject_Z_plus.
    unfold inject_Z in *. lra.
  - apply eval_sum_of_submseteq; [|apply cover_nonneg].
    apply NoDup_submseteq; [by apply NoDup_cliques_of_independent|].
    intros c (l & Hc & (u & -> & Hu)%list_elem_of_fmap)%elem_of_concat.
    apply elem_of_cliques_containing in Hc as (_ & Hc & _).
    apply elem_of_subset_space; [by destruct G_wf|done].
Qed.
End CoverBounds.

(** X2: weak duality for the cover model: every feasible assignment has an
    objective value of at least the size of any set of pairwise
    non-adjacent vertices. *)
Theorem fractional_clique_cover_independent_bound
        (G : nx.Graph) prob lp_xs (w : assignment) (I : list Z) :
  nx.wf G -> fractional_clique_cover_model G = Ok (prob, lp_xs) ->
  feasible prob lp_xs w ->
  NoDup I -> I ⊆ nx.nodes G -> independent G I ->
  (inject_Z (Z.of_nat (length I)) <= eval w (objective prob))%Q.
Proof.
  intros HG Hmodel Hw Hnd Hsub Hind.
  rewrite fractional_clique_cover_model_eq in Hmodel by done.
  injection Hmodel as <- <-. simpl. by apply cover_independent.
Qed.

Section CoverOptima.
Local Open Scope Q_scope.
Context (G : nx.Graph).
Hypothesis G_wf : nx.wf G.

Lemma singleton_clique v :
  v ∈ nx.nodes G -> [v] ∈ cliques_containing G v.
Proof.
  intros Hv. apply elem_of_cliques_containing; [done|]. split_and!.
  - left.
  - by apply singleton_sublist.
  - intros a b ->%list_elem_of_singleton ->%list_elem_of_singleton. done.
Qed.

Lemma all_singletons_cover :
  feasible {| sense := LpMinimize;
              objective := sum_of (dict_keys (subset_space G));
              constraints := map (cover_constraint G) (nx.nodes G) |}
           (LpVariable_dicts (subset_space G)) all_singletons.
Proof.
  split; simpl.
  - apply Forall_forall. intros c (v & -> & Hv)%list_elem_of_fmap.
    unfold holds. simpl.
    eapply Qle_trans; [|apply (eval_sum_of_member _ _ [v]);
                         [apply all_singletons_nonneg|by apply singleton_clique]].
    by vm_compute.
  - apply in_bounds_variables. intros k _. apply all_singletons_nonneg.
Qed.

Lemma NoDup_singletons (l : list Z) : NoDup l -> NoDup (map (fun v => [v]) l).
Proof.
  induction 1 as [|v l Hv Hnd IH]; simpl; constructor; [|done].
  intros (u & [= ->] & Hu)%list_elem_of_fmap. done.
Qed.

Lemma all_singletons_value :
  eval all_singletons (sum_of (dict_keys (subset_space G)))
  == inject_Z (Z.of_nat (length (nx.nodes G))).
Proof.
  pose proof (nx.wf_nodes G G_wf) as Hnd.
  rewrite (eval_sum_of_filter _ (fun k => length k = 1%nat)).
  2:{ intros k _ Hk. unfold all_singletons. by destruct (decide _). }
  rewrite <-eval_all_singletons. apply eval_sum_of_Permutation.
  apply NoDup_Permutation.
  - apply NoDup_filter. by apply keys_NoDup.
  - by apply NoDup_singletons.
  - intros k. rewrite list_elem_of_filter, elem_of_subset_space by done. split.
    + intros [Hlen Hsub]. destruct k as [|v [|? ?]]; try done.
      apply list_elem_of_fmap. exists v. split; [done|].
      apply (sublist_subseteq _ _ Hsub). left.
    + intros (v & -> & Hv)%list_elem_of_fmap. split; [done|].
      by apply singleton_sublist.
Qed.

Lemma full_set_cover :
  nx.nodes G <> [] -> nx.is_clique G (nx.nodes G) ->
  feasible {| sense := LpMinimize;
              objective := sum_of (dict_keys (subset_space G));
              constraints := map (cover_constraint G) (nx.nodes G) |}
           (LpVariable_dicts (subset_space G)) (only (nx.nodes G)).
Proof.
  intros Hne Hcl. split; simpl.
  - apply Forall_forall. intros c (v & -> & Hv)%list_elem_of_fmap.
    unfold holds. simpl. rewrite eval_only_member; [done| |].
    + by apply NoDup_cliques_containing.
    + by apply elem_of_cliques_containing.
  - apply in_bounds_variables. intros k _. apply only_nonneg.
Qed.
End CoverOptima.

Lemma fractional_clique_cover_independent_bound_witness :
  exists prob lp_xs,
    fractional_clique_cover_model path3 = Ok (prob, lp_xs) /\
    (inject_Z (Z.of_nat (length [0; 2])) <= eval all_singletons (objective prob))%Q.
Proof.
  eexists _, _. split; [apply fractional_clique_cover_model_eq, path3_wf|].
  eapply (fractional_clique_cover_independent_bound path3 _ _ all_singletons [0; 2]).
  - apply path3_wf.
  - apply fractional_clique_cover_model_eq, path3_wf.
  - apply all_singletons_cover, path3_wf.
  - apply (bool_decide_unpack _). by vm_compute.
  - apply (bool_decide_unpack _). by vm_compute.
  - intros u v Hu Hv Hne.
    assert (Hu' : u = 0 \/ u = 2) by (rewrite !elem_of_cons, elem_of_nil in Hu; tauto).
    assert (Hv' : v = 0 \/ v = 2) by (rewrite !elem_of_cons, elem_of_nil in Hv; tauto).
    destruct Hu' as [-> | ->], Hv' as [-> | ->]; try done;
      apply (bool_decide_unpack _); by vm_compute.
Defined.

(** X3: on a graph without edges the cover model has the optimum [n], the
    number of vertices, attained by weight 1 on every singleton. *)
Theorem fractional_clique_cover_edgeless (G : nx.Graph) prob lp_xs :
  nx.wf G -> (forall u, nx.neighbors G u = []) ->
  fractional_clique_cover_model G = Ok (prob, lp_xs) ->
  optimal prob lp_xs all_singletons /\
  (eval all_singletons (objective prob)
   == inject_Z (Z.of_nat (length (nx.nodes G))))%Q.
Proof.
  intros HG Hnone Hmodel.
  rewrite fractional_clique_cover_model_eq in Hmodel by done.
  injection Hmodel as <- <-. simpl. split; [|by apply all_singletons_value].
  split; [by apply all_singletons_cover|]. intros w' Hw'. simpl.
  rewrite all_singletons_value by done.
  apply (cover_independent G HG w' Hw' (nx.nodes G)); [by destruct HG|done|].
  intros u v _ _ _. rewrite Hnone. by intros ?%elem_of_nil.
Qed.

Lemma fractional_clique_cover_edgeless_witness :
  exists prob lp_xs,
    fractional_clique_cover_model (edgeless 3) = Ok (prob, lp_xs) /\
    optimal prob lp_xs all_singletons /\
    (eval all_singletons (objective prob)
     == inject_Z (Z.of_nat (length (nx.nodes (edgeless 3)))))%Q.
Proof.
  assert (Hwf : nx.wf (edgeless 3)) by apply wf_add_nodes_from, wf_empty.
  eexists _, _. split; [by apply fractional_clique_cover_model_eq|].
  apply (fractional_clique_cover_edgeless (edgeless 3)).
  - done.
  - intros u. destruct (add_nodes_from_fresh (range_list 3) nx.empty) as [_ Hnb].
    + apply NoDup_range_list.
    + apply Hnb.
  - by apply fractional_clique_cover_model_eq.
Defined.

(** X4: on a complete graph with at least one vertex the cover model has the
    optimum 1, attained by weight 1 on the full vertex set. *)
Theorem fractional_clique_cover_complete (G : nx.Graph) prob lp_xs :
  nx.wf G -> nx.nodes G <> [] -> nx.is_clique G (nx.nodes G) ->
  fractional_clique_cover_model G = Ok (prob, lp_xs) ->
  optimal prob lp_xs (only (nx.nodes G)) /\
  (eval (only (nx.nodes G)) (objective prob) == 1)%Q.
Proof.
  intros HG Hne Hcl Hmodel.
  rewrite fractional_clique_cover_model_eq in Hmodel by done.
  injection Hmodel as <- <-. simpl.
  pose proof (nx.wf_nodes G HG) as Hnd.
  assert (Hval : (eval (only (nx.nodes G)) (sum_of (dict_keys (subset_space G)))
                  == 1)%Q).
  { apply eval_only_member; [by apply keys_NoDup|by apply full_key_subset_space]. }
  split; [|done]. split; [by apply full_set_cover|]. intros w' Hw'. simpl.
  rewrite Hval.
  assert (Hv : exists v, v ∈ nx.nodes G).
  { destruct (nx.nodes G) as [|v l]; [done|]. exists v. left. }
  destruct Hv as [v Hv].
  apply (cover_independent G HG w' Hw' [v]).
  - apply NoDup_singleton.
  - by intros u ->%list_elem_of_singleton.
  - intros a b ->%list_elem_of_singleton ->%list_elem_of_singleton. done.
Qed.

Lemma fractional_clique_cover_complete_witness :
  exists prob lp_xs,
    fractional_clique_cover_model k2 = Ok (prob, lp_xs) /\
    optimal prob lp_xs (only (nx.nodes k2)) /\
    (eval (only (nx.nodes k2)) (objective prob) == 1)%Q.
Proof.
  assert (Hwf : nx.wf k2) by apply wf_add_edge, wf_add_nodes_from, wf_empty.
  eexists _, _. split; [by apply fractional_clique_cover_model_eq|].
  apply (fractional_clique_cover_complete k2).
  - done.
  - by vm_compute.
  - intros u v Hu Hv Hne.
    assert (Hu' : u = 0 \/ u = 1)
      by (change (nx.nodes k2) with [0; 1] in Hu;
          rewrite !elem_of_cons, elem_of_nil in Hu; tauto).
    assert (Hv' : v = 0 \/ v = 1)
      by (change (nx.nodes k2) with [0; 1] in Hv;
          rewrite !elem_of_cons, elem_of_nil in Hv; tauto).
    destruct Hu' as [-> | ->], Hv' as [-> | ->]; try done;
      apply (bool_decide_unpack _); by vm_compute.
  - by apply fractional_clique_cover_model_eq.
Defined.

(** X1: the clique enumeration the cover model is built on lists every
    non-empty clique of a well-formed graph, as an increasing selection of
    its nodes, exactly once, and nothing else. *)
Theorem enumerate_all_cliques_exact (G : nx.Graph) :
  nx.wf G ->
  NoDup (nx.enumerate_all_cliques G) /\
  forall c, c ∈ nx.enumerate_all_cliques G <->
            c <> [] /\ c `sublist_of` nx.nodes G /\ nx.is_clique G c.
Proof. apply enumerate_all_cliques_spec. Qed.

Lemma enumerate_all_cliques_exact_witness :
  NoDup (nx.enumerate_all_cliques path3) /\
  forall c, c ∈ nx.enumerate_all_cliques path3 <->
            c <> [] /\ c `sublist_of` nx.nodes path3 /\ nx.is_clique path3 c.
Proof. apply (enumerate_all_cliques_exact path3), path3_wf. Defined.

(** * The graph that [create_graph] returns *)

Section CreateGraph.
Lemma create_graph_spec inp G rest :
  create_graph inp = Some (G, rest) ->
  exists n, 2 <= n /\ simple G /\ nx.nodes G = range_list n /\
    exists u v, u <> v /\ in_range n u /\ in_range n v /\ v ∈ nx.neighbors G u.
Proof.
  unfold create_graph.
  destruct (create_graph_nodes inp) as [[n rest']|] eqn:Hn; simpl; [|done].
  intros Hedges. exists n. split; [by eapply create_graph_nodes_spec|].
  destruct (simple_add_nodes_from_range n) as [Hs Hnodes].
  by eapply create_graph_edges_spec.
Qed.
End CreateGraph.

(** X14: whatever is typed, a graph that [create_graph] returns has the nodes
    [0 .. n-1] for some [n] of at least 2, in ascending order, is well
    formed, and has no vertex adjacent to itself. *)
Theorem create_graph_simple (inp : stdin) (G : nx.Graph) (rest : stdin) :
  create_graph inp = Some (G, rest) ->
  simple G /\ exists n, 2 <= n /\ nx.nodes G = range_list n.
Proof.
  intros (n & Hn & Hs & Hnodes & _)%create_graph_spec. split; [done|]. by exists n.
Qed.

Lemma create_graph_simple_witness :
  exists G rest,
    create_graph (typed ["1"; "x"; "3"; "0"; "0"; "0"; "7"; "0"; "1"; "n"]%string)
    = Some (G, rest) /\
    simple G /\ exists n, 2 <= n /\ nx.nodes G = range_list n.
Proof.
  eexists _, _. split; [by vm_compute|].
  apply (create_graph_simple
           (typed ["1"; "x"; "3"; "0"; "0"; "0"; "7"; "0"; "1"; "n"]%string) _ []).
  by vm_compute.
Defined.



(** X16: both models are built for every graph [create_graph] returns: after
    New Graph, Calculate meets no [KeyError]. *)
Theorem create_graph_models_build (inp : stdin) (G : nx.Graph) (rest : stdin) :
  create_graph inp = Some (G, rest) ->
  (exists prob lp_xs, fractional_clique_cover_model G = Ok (prob, lp_xs)) /\
  (exists prob lp_xs, shannon_entropy_model G = Ok (prob, lp_xs)).
Proof.
  intros (n & _ & Hs & _)%create_graph_spec. split.
  - eexists _, _. apply fractional_clique_cover_model_eq. by destruct Hs.
  - destruct (simple_model_builds G Hs) as (prob & Hp & _). by eexists _, _.
Qed.

Lemma create_graph_models_build_witness :
  exists G rest,
    create_graph (typed ["2"; "0"; "1"; "N"]%string) = Some (G, rest) /\
    (exists prob lp_xs, fractional_clique_cover_model G = Ok (prob, lp_xs)) /\
    (exists prob lp_xs, shannon_entropy_model G = Ok (prob, lp_xs)).
Proof.
  eexists _, _. split; [by vm_compute|].
  apply (create_graph_models_build (typed ["2"; "0"; "1"; "N"]%string) _ []).
  by vm_compute.
Defined.

(** * The graph that [load] returns *)

Section Load.
Lemma split_nonempty sep s : text.split sep s <> [].
Proof.
  destruct s as [|c s]; simpl; [done|].
  destruct (N.eqb c sep); [done|]. by destruct (text.split sep s).
Qed.

(** The last turn of a loop that ran at least once. *)
Lemma foldM_last {A B} (body : B -> A -> result B) l acc r :
  l <> [] -> foldM body acc l = Ok r -> exists a x, x ∈ l /\ body a x = Ok r.
Proof.
  revert acc. induction l as [|x l IH]; intros acc Hne; [done|]. simpl.
  destruct (body acc x) as [a'|] eqn:Hb; simpl; [|done].
  destruct l as [|y l].
  - simpl. intros [= <-]. exists acc, x. split; [left|done].
  - intros (a & z & Hz & Hr)%IH; [|done]. exists a, z. split; [by right|done].
Qed.

Lemma load_body_Ok fs filename G :
  load_body fs filename = Ok G ->
  nx.wf G /\ (forall u, NoDup (nx.neighbors G u)) /\
  (exists u v, v ∈ nx.neighbors G u) /\
  exists content n,
    fs filename = Some content /\
    text.py_int (text.readline content).1 = Ok n /\
    range_list n `prefix_of` nx.nodes G.
Proof.
  unfold load_body. destruct (fs filename) as [content|]; [|done].
  destruct (text.py_int _) as [n|] eqn:Hn; simpl; [|done].
  intros Hloop.
  set (body := fun (G : nx.Graph) (edge : list N) =>
                 a ← py_index (text.split (text.code ",") edge) 0;
                 u ← text.py_int a;
                 b ← py_index (text.split (text.code ",") edge) 1;
                 v ← text.py_int b;
                 mret (nx.add_edge u v G)) in *.
  assert (Hstep : forall a x a', body a x = Ok a' ->
                    exists u v, a' = nx.add_edge u v a).
  { intros a x a'. unfold body.
    destruct (py_index _ 0) as [sa|]; simpl; [|done].
    destruct (text.py_int sa) as [u|]; simpl; [|done].
    destruct (py_index _ 1) as [sb|]; simpl; [|done].
    destruct (text.py_int sb) as [v|]; simpl; [|done].
    intros [= <-]. by exists u, v. }
  split_and!.
  - revert Hloop. apply (foldM_invariant nx.wf).
    + apply wf_add_nodes_from, wf_empty.
    + intros a x a' _ Ha (u & v & ->)%Hstep. by apply wf_add_edge.
  - revert Hloop.
    apply (foldM_invariant (fun G => forall u, NoDup (nx.neighbors G u))).
    + destruct (simple_add_nodes_from_range n) as [Hs _]. by destruct Hs.
    + intros a x a' _ Ha (u & v & ->)%Hstep. by apply NoDup_neighbors_add_edge.
  - apply foldM_last in Hloop as (a & x & _ & (u & v & ->)%Hstep);
      [|apply split_nonempty].
    exists u, v. apply neighbors_add_edge_new.
  - exists content, n. split_and!; [done..|].
    revert Hloop. apply (foldM_invariant (fun G => range_list n `prefix_of` nx.nodes G)).
    + destruct (simple_add_nodes_from_range n) as [_ ->]. done.
    + intros a x a' _ Ha (u & v & ->)%Hstep.
      etrans; [exact Ha|]. apply nodes_add_edge_prefix.
Qed.
End Load.

(** X17: a graph that [load] returns is well formed, lists no neighbour
    twice and has at least one edge (a file without edges is rejected);
    its first nodes are [0 .. n-1] for the count [n] that [int] reads
    from the first line of the file, whatever the edges add. *)
Theorem load_well_formed (fs : filesystem) (filename : string) (G : nx.Graph) :
  load fs filename = PyGraph G ->
  nx.wf G /\ (forall u, NoDup (nx.neighbors G u)) /\
  (exists u v, v ∈ nx.neighbors G u) /\
  exists content n,
    fs filename = Some content /\
    text.py_int (text.readline content).1 = Ok n /\
    range_list n `prefix_of` nx.nodes G.
Proof.
  unfold load. destruct (load_body fs filename) as [G'|] eqn:Hbody; [|done].
  intros [= <-]. by apply load_body_Ok.
Qed.

Lemma load_well_formed_witness :
  exists G,
    load out_of_range_file "g.txt"%string = PyGraph G /\
    nx.wf G /\ (forall u, NoDup (nx.neighbors G u)) /\
    (exists u v, v ∈ nx.neighbors G u) /\
    exists content n,
      out_of_range_file "g.txt"%string = Some content /\
      text.py_int (text.readline content).1 = Ok n /\
      range_list n `prefix_of` nx.nodes G.
Proof.
  eexists. split; [by vm_compute|].
  apply (load_well_formed out_of_range_file "g.txt"%string). by vm_compute.
Defined.

(** Three files with the edge [0,1]: a count ended by a lone carriage
    return is read, a count after the character U+001C is rejected, and a
    count written with the Arabic-Indic digit two (U+0662) is read. *)
Lemma load_line_ends_and_digits :
  load (fun _ => Some [50; 13; 48; 44; 49]%N) "g.txt"
    = PyGraph [(0, [1]); (1, [0])] /\
  load (fun _ => Some [28; 50; 10; 48; 44; 49]%N) "g.txt" = PyNone /\
  load (fun _ => Some [1634; 10; 48; 44; 49]%N) "g.txt"
    = PyGraph [(0, [1]); (1, [0])].
Proof. split_and!; by vm_compute. Qed.

(** [int] on strings: white space is stripped at both ends, single
    underscores may stand between digits, and digits of other number
    systems count as digits. *)
Lemma py_int_examples :
  text.py_int (text.of_string " 12 ") = Ok 12 /\
  text.py_int (text.of_string "-1_0") = Ok (-10) /\
  text.py_int (text.of_string "1__0") = Raise ValueError /\
  text.py_int (text.of_string "+ 1") = Raise ValueError /\
  text.py_int (text.of_string "") = Raise ValueError /\
  text.py_int [160; 1633; 1634; 12288]%N = Ok 12 /\
  text.py_int [28; 49]%N = Raise ValueError.
Proof. split_and!; by vm_compute. Qed.

(** * What [calculate] returns and when it raises *)

Section Calculate.
Lemma outcome_bind {A B} (m : io A) (k : A -> io B) :
  outcome (m ≫= k) = match outcome m with
                     | Ok a => outcome (k a)
                     | Raise e => Raise e
                     end.
Proof. unfold mbind, io_bind. by destruct (outcome m). Qed.

Lemma from_float_Ok (f : float) x : from_float f = Ok x -> is_finite f /\ valid x.
Proof.
  intros Hx. assert (Hfin : is_finite f).
  { unfold is_finite. unfold from_float in Hx. by destruct (Prim2SF f). }
  split; [done|]. destruct (from_float_valid f Hfin) as (x' & Hx' & Hv). congruence.
Qed.

Lemma rationalise_Ok (f : float) r :
  outcome (rationalise f) = Ok r -> is_finite f /\ valid r /\ denominator r <= 100.
Proof.
  rewrite outcome_rationalise.
  destruct (from_float f) as [x|] eqn:Hx; simpl; [|done].
  apply from_float_Ok in Hx as [Hfin Hv]. intros Hr. split; [done|].
  destruct (limit_denominator_best x 100 Hv) as (r' & Hr' & Hvr & Hden & _); [lia|].
  assert (r' = r) as -> by congruence. done.
Qed.

Lemma rationalise_finite (f : float) :
  is_finite f -> exists r, outcome (rationalise f) = Ok r.
Proof.
  intros Hfin. destruct (from_float_valid f Hfin) as (x & Hx & Hv).
  destruct (limit_denominator_best x 100 Hv) as (r & Hr & _); [lia|].
  exists r. by rewrite outcome_rationalise, Hx.
Qed.

Lemma outcome_read_value sol k :
  outcome (read_value sol k) = match varValue sol k with
                               | Some val => Ok val
                               | None => Raise TypeError
                               end.
Proof. unfold read_value. rewrite outcome_emit_bind. by destruct (varValue sol k). Qed.

(** The loop that sums the values: [TypeError] at the first variable
    without a value. *)
Lemma outcome_read_loop sol (lp_xs : dict Subset LpVariable) (t : float) :
  outcome (io_foldM (fun total item =>
                       val ← read_value sol item.1; mret (total + val)%float)
                    t lp_xs)
  = if decide (Forall (fun k => is_Some (varValue sol k)) (dict_keys lp_xs))
    then Ok (foldl (fun total k =>
                      match varValue sol k with
                      | Some val => (total + val)%float
                      | None => total
                      end) t (dict_keys lp_xs))
    else Raise TypeError.
Proof.
  revert t. induction lp_xs as [|[k v] lp_xs IH]; intros t.
  - done.
  - change (dict_keys ((k, v) :: lp_xs)) with (k :: dict_keys lp_xs).
    cbn [io_foldM foldl]. rewrite outcome_bind, outcome_bind, outcome_read_value.
    cbn [fst]. destruct (varValue sol k) as [val|] eqn:Hk.
    + cbn [outcome mret io_ret]. rewrite IH.
      destruct (decide (Forall _ (dict_keys lp_xs))) as [Hall|Hall],
               (decide (Forall _ (k :: dict_keys lp_xs))) as [Hall'|Hall'];
        try done.
      * destruct Hall'. constructor; [by rewrite Hk|done].
      * by apply Forall_cons in Hall' as [_ ?].
    + destruct (decide (Forall _ (k :: dict_keys lp_xs))) as [Hall|]; [|done].
      apply Forall_cons in Hall as [[? Hs] _]. congruence.
Qed.

Lemma outcome_fcc_report lp_xs sol :
  outcome (fcc_report lp_xs sol)
  = if decide (Forall (fun k => is_Some (varValue sol k)) (dict_keys lp_xs))
    then outcome (rationalise (float_total sol (dict_keys lp_xs)))
    else Raise TypeError.
Proof.
  unfold fcc_report. rewrite outcome_emit_bind, outcome_bind, outcome_read_loop.
  destruct (decide _); [|done]. rewrite outcome_bind.
  fold (float_total sol (dict_keys lp_xs)).
  by destruct (outcome (rationalise _)).
Qed.

Lemma outcome_entropy_report xs sol V :
  last (dict_keys xs) = Some V ->
  outcome (entropy_report (LpVariable_dicts xs) sol)
  = match varValue sol V with
    | Some val => outcome (rationalise val)
    | None => Raise TypeError
    end.
Proof.
  intros Hlast. unfold entropy_report.
  rewrite outcome_emit_bind, dict_keys_LpVariable_dicts, Hlast.
  rewrite outcome_bind. simpl. rewrite outcome_bind. simpl.
  rewrite dict_get_LpVariable_dicts.
  2:{ rewrite last_lookup in Hlast. by eapply list_elem_of_lookup_2. }
  destruct (varValue sol V) as [val|]; [|done].
  unfold io_bind. simpl.
  by destruct (from_float val ≫= fun q => limit_denominator q 100).
Qed.

Lemma outcome_fractional_clique_cover solve g :
  outcome (fractional_clique_cover solve (PyGraph g))
  = match fractional_clique_cover_model g with
    | Ok m => match outcome (fcc_report m.2 (solve m.1)) with
              | Ok total => Ok (total, solve m.1)
              | Raise e => Raise e
              end
    | Raise e => Raise e
    end.
Proof.
  unfold fractional_clique_cover. rewrite outcome_bind. cbn [lift outcome].
  destruct (fractional_clique_cover_model g) as [m|]; [|done].
  cbv zeta. rewrite outcome_bind. by destruct (outcome (fcc_report _ _)).
Qed.

Lemma outcome_shannon_entropy solve g :
  outcome (shannon_entropy solve (PyGraph g))
  = match shannon_entropy_model g with
    | Ok m => match outcome (entropy_report m.2 (solve m.1)) with
              | Ok val => Ok (val, solve m.1)
              | Raise e => Raise e
              end
    | Raise e => Raise e
    end.
Proof.
  unfold shannon_entropy. rewrite outcome_bind. cbn [lift outcome].
  destruct (shannon_entropy_model g) as [m|]; [|done].
  cbv zeta. rewrite outcome_bind. by destruct (outcome (entropy_report _ _)).
Qed.

Lemma outcome_calculate solve G :
  outcome (calculate solve G)
  = match outcome (fractional_clique_cover solve G) with
    | Ok a => match outcome (shannon_entropy solve G) with
              | Ok b => Ok (a.1, b.1, a.2, b.2)
              | Raise e => Raise e
              end
    | Raise e => Raise e
    end.
Proof.
  unfold calculate. rewrite outcome_bind.
  destruct (outcome (fractional_clique_cover solve G)) as [a|]; [|done].
  rewrite outcome_bind. by destruct (outcome (shannon_entropy solve G)).
Qed.

Lemma entropy_report_Ok lp_xs sol r :
  outcome (entropy_report lp_xs sol) = Ok r -> valid r /\ denominator r <= 100.
Proof.
  unfold entropy_report. rewrite outcome_emit_bind, outcome_bind.
  destruct (outcome (lift _)) as [k|]; [|done].
  rewrite outcome_bind. destruct (outcome (lift _)); [|done].
  rewrite outcome_bind. destruct (outcome (read_value _ _)) as [f|]; [|done].
  rewrite outcome_bind.
  destruct (outcome (rationalise f)) as [r'|] eqn:Hr; [|done].
  rewrite outcome_emit_bind. intros [= <-]. by apply rationalise_Ok in Hr as [_ ?].
Qed.
End Calculate.

(** X18: whatever the solver returns, the two values [calculate] returns are
    fractions in lowest terms with denominators of at most 100. *)
Theorem calculate_values_rational (solve : LpProblem -> solution) (G : pyobj)
        (fcc shann_ent : Fraction) (fcc_vals shannon_vals : solution) :
  outcome (calculate solve G) = Ok (fcc, shann_ent, fcc_vals, shannon_vals) ->
  valid fcc /\ denominator fcc <= 100 /\
  valid shann_ent /\ denominator shann_ent <= 100.
Proof.
  rewrite outcome_calculate.
  destruct (outcome (fractional_clique_cover solve G)) as [[total sol1]|] eqn:H1; [|done].
  destruct (outcome (shannon_entropy solve G)) as [[val sol2]|] eqn:H2; [|done].
  cbn [fst snd]. intros [= <- <- <- <-].
  destruct G as [|g]; [done|].
  rewrite outcome_fractional_clique_cover in H1.
  rewrite outcome_shannon_entropy in H2.
  destruct (fractional_clique_cover_model g) as [m1|]; [|done].
  destruct (shannon_entropy_model g) as [m2|]; [|done].
  destruct (outcome (fcc_report _ _)) as [r1|] eqn:Hr1; [|done].
  destruct (outcome (entropy_report _ _)) as [r2|] eqn:Hr2; [|done].
  injection H1 as -> _. injection H2 as -> _.
  assert (Hfcc : valid total /\ denominator total <= 100).
  { rewrite outcome_fcc_report in Hr1. destruct (decide _); [|done].
    by apply rationalise_Ok in Hr1 as [_ ?]. }
  apply entropy_report_Ok in Hr2. tauto.
Qed.

Lemma calculate_values_rational_witness :
  exists fcc shann_ent fcc_vals shannon_vals,
    outcome (calculate halves_solver (PyGraph k2))
    = Ok (fcc, shann_ent, fcc_vals, shannon_vals) /\
    valid fcc /\ denominator fcc <= 100 /\
    valid shann_ent /\ denominator shann_ent <= 100.
Proof.
  eexists _, _, _, _. split; [by vm_compute|].
  eapply (calculate_values_rational halves_solver (PyGraph k2)). by vm_compute.
Defined.

(** X19: when [calculate] returns: for a graph both of whose models are built,
    exactly when the solver gave every variable of the cover model a value,
    the floating-point sum of these values is finite, and the variable of
    the full vertex set of the entropy model has a finite value. *)
Theorem calculate_returns_iff (solve : LpProblem -> solution) (g : nx.Graph)
        (p1 p2 : LpProblem) (lp1 lp2 : dict Subset LpVariable) :
  NoDup (nx.nodes g) ->
  fractional_clique_cover_model g = Ok (p1, lp1) ->
  shannon_entropy_model g = Ok (p2, lp2) ->
  (exists r, outcome (calculate solve (PyGraph g)) = Ok r) <->
  (forall k, k ∈ dict_keys lp1 -> is_Some (varValue (solve p1) k)) /\
  is_finite (float_total (solve p1) (dict_keys lp1)) /\
  exists val, varValue (solve p2) (nx.nodes g) = Some val /\ is_finite val.
Proof.
  intros Hnd H1 H2.
  destruct (shannon_entropy_model_start g p2 lp2 Hnd H2) as [-> _].
  rewrite outcome_calculate, outcome_fractional_clique_cover,
    outcome_shannon_entropy, H1, H2.
  cbn [fst snd]. rewrite outcome_fcc_report.
  rewrite (outcome_entropy_report _ _ (nx.nodes g))
    by (by apply last_key_subset_space).
  rewrite <-Forall_forall.
  destruct (decide (Forall _ (dict_keys lp1))) as [Hall|Hall].
  2:{ split; [by intros [r [=]]|]. by intros [? _]. }
  destruct (outcome (rationalise (float_total (solve p1) (dict_keys lp1))))
    as [r1|e1] eqn:Hr1.
  2:{ split; [by intros [r [=]]|]. intros (_ & Hfin & _).
      apply rationalise_finite in Hfin as [r Hr]. congruence. }
  apply rationalise_Ok in Hr1 as [Hfin1 _].
  destruct (varValue (solve p2) (nx.nodes g)) as [val|] eqn:Hval.
  2:{ split; [by intros [r [=]]|]. by intros (_ & _ & ? & [=] & _). }
  destruct (outcome (rationalise val)) as [r2|e2] eqn:Hr2.
  - apply rationalise_Ok in Hr2 as [Hfin2 _]. split.
    + intros _. split_and!; [done..|]. by exists val.
    + intros _. by eexists.
  - split; [by intros [r [=]]|]. intros (_ & _ & val' & [= <-] & Hfin).
    apply rationalise_finite in Hfin as [r Hr]. congruence.
Qed.

Lemma calculate_returns_iff_witness :
  exists p1 lp1 p2 lp2,
    fractional_clique_cover_model k2 = Ok (p1, lp1) /\
    shannon_entropy_model k2 = Ok (p2, lp2) /\
    ((exists r, outcome (calculate halves_solver (PyGraph k2)) = Ok r) <->
     (forall k, k ∈ dict_keys lp1 -> is_Some (varValue (halves_solver p1) k)) /\
     is_finite (float_total (halves_solver p1) (dict_keys lp1)) /\
     exists val, varValue (halves_solver p2) (nx.nodes k2) = Some val /\
                 is_finite val).
Proof.
  eexists _, _, _, _. split; [by vm_compute|]. split; [by vm_compute|].
  eapply (calculate_returns_iff halves_solver k2);
    [apply (bool_decide_unpack _)|..]; by vm_compute.
Defined.

(** X20: on a graph whose nodes are not in ascending order, or one with a
    vertex adjacent to itself, [calculate] never returns: whatever the
    solver does it raises, in the cover part or, at the latest, with the
    [KeyError] of the entropy model. *)
Theorem calculate_raises_on_invalid_graph (solve : LpProblem -> solution)
        (g : nx.Graph) :
  NoDup (nx.nodes g) ->
  ~ Sorted Z.lt (nx.nodes g) \/ (exists v, v ∈ nx.nodes g /\ v ∈ nx.neighbors g v) ->
  exists e, outcome (calculate solve (PyGraph g)) = Raise e.
Proof.
  intros Hnd Hbad. rewrite outcome_calculate.
  destruct (outcome (fractional_clique_cover solve (PyGraph g))) as [a|e];
    [|by exists e].
  rewrite outcome_shannon_entropy.
  destruct (shannon_entropy_model g) as [[prob lp_xs]|e] eqn:Hmodel; [|by exists e].
  exfalso. destruct Hbad as [Hns|(v & Hv & Hloop)].
  - apply Hns. by eapply built_model_sorted.
  - destruct (shannon_entropy_model_neighbourhood g prob lp_xs v Hnd Hmodel Hv)
      as (_ & Hkey & _).
    apply (elem_of_subset_space g _ Hnd) in Hkey.
    apply sublist_NoDup in Hkey; [|done].
    rewrite py_sorted_Permutation in Hkey.
    apply NoDup_app in Hkey as (_ & Hdisj & _).
    apply (Hdisj v Hloop). left.
Qed.

Lemma calculate_raises_on_invalid_graph_witness :
  exists e, outcome (calculate halves_solver (PyGraph self_loop_graph)) = Raise e.
Proof.
  apply (calculate_raises_on_invalid_graph halves_solver self_loop_graph).
  - apply (bool_decide_unpack _). by vm_compute.
  - right. exists 0. split; apply (bool_decide_unpack _); by vm_compute.
Defined.

(** * The menu loop *)

Section MainLoop.
Context (solve : LpProblem -> solution) (fs : filesystem).

Lemma main_step_results_current st c st' tr :
  results_current solve st -> main_step solve fs st c = Continue st' tr ->
  results_current solve st'.
Proof.
  intros Hst. destruct c as [|created|filename| |]; simpl; try done.
  - by intros [= <- _].
  - by intros [= <- _].
  - destruct (outcome (calculate solve (G st))) as [res|] eqn:Hres; [|done].
    intros [= <- _]. unfold results_current. simpl.
    destruct (G st) as [|g]; [done|]. by exists g.
  - by intros [= <- _].
Qed.

Lemma main_run_results_current cs st st' :
  results_current solve st -> main_run solve fs st cs = Some st' ->
  results_current solve st'.
Proof.
  revert st. induction cs as [|c cs IH]; intros st Hst; simpl.
  - by intros [= <-].
  - destruct (main_step solve fs st c) as [st1 tr| |] eqn:Hstep; [|done..].
    apply IH. by eapply main_step_results_current.
Qed.
End MainLoop.

(** X21: between two turns of the menu loop, results that are not the sentinels
    are always those of [calculate] on the graph that is current: New Graph
    and Load Graph reset them, and nothing else changes the graph. *)
Theorem main_results_current (solve : LpProblem -> solution) (fs : filesystem)
        (cs : list choice) (st : main_state) :
  main_run solve fs initial_state cs = Some st -> results_current solve st.
Proof. apply main_run_results_current. by unfold results_current. Qed.

Lemma main_results_current_witness :
  exists st,
    main_run halves_solver out_of_range_file initial_state
             [LoadGraph "g.txt"; NewGraph k2; Calculate; SaveResult] = Some st /\
    results_current halves_solver st.
Proof.
  eexists. split; [by vm_compute|].
  apply (main_results_current halves_solver out_of_range_file
           [LoadGraph "g.txt"; NewGraph k2; Calculate; SaveResult]).
  by vm_compute.
Defined.

(** * The size of the entropy model *)

Section EntropySize.
Local Open Scope nat_scope.

(** A loop whose turns add a known number of constraints each. *)
Lemma foldM_length {A} (body : LpProblem -> A -> result LpProblem)
      (f : A -> nat) l acc r :
  (forall a x a', x ∈ l -> body a x = Ok a' ->
     length (constraints a') = length (constraints a) + f x) ->
  foldM body acc l = Ok r ->
  length (constraints r) = length (constraints acc) + sum_list (map f l).
Proof.
  revert acc. induction l as [|x l IH]; intros acc Hb; simpl.
  - intros [= <-]. lia.
  - destruct (body acc x) as [a'|] eqn:Hx; simpl; [|done]. intros Hr.
    apply IH in Hr; [|intros a y a'' Hy; apply Hb; by right].
    rewrite Hr, (Hb acc x a'); [lia|left|done].
Qed.

Lemma pair_constraints_length xs prob S T prob' :
  pair_constraints (LpVariable_dicts xs) prob S T = Ok prob' ->
  length (constraints prob') = length (constraints prob) + 1.
Proof.
  unfold pair_constraints.
  destruct (decide (S ⊆ T)) as [Hsub|Hsub]; simpl.
  - destruct (dict_get T _) as [xT|]; simpl; [|done].
    destruct (dict_get S _) as [xS|]; simpl; [|done].
    destruct (decide (~ S ⊆ T)); [done|]. intros [= <-].
    simpl. by rewrite length_app.
  - destruct (decide (~ S ⊆ T)); [|done].
    destruct (dict_get S _) as [xS|]; simpl; [|done].
    destruct (dict_get T _) as [xT|]; simpl; [|done].
    destruct (dict_get (py_sorted (remove_dups (S ++ T))) _) as [xU|]; simpl; [|done].
    destruct (dict_get (py_sorted (filter _ S)) _) as [xI|]; simpl; [|done].
    intros [= <-]. simpl. by rewrite length_app.
Qed.

Lemma sum_const {A} (l : list A) (c : nat) :
  sum_list (map (fun _ => c) l) = length l * c.
Proof. induction l as [|x l IH]; simpl; [done|]. rewrite IH. lia. Qed.

(** [m + (m - 1) + ... + 1], twice. *)
Lemma sum_countdown (m a : nat) :
  2 * sum_list (map (fun x => m + a - x) (seq a m)) = m * (m + 1).
Proof.
  revert a. induction m as [|m IH]; intros a; simpl; [done|].
  specialize (IH (S a)).
  replace (map (fun x => S (m + a) - x) (seq (S a) m))
    with (map (fun x => m + S a - x) (seq (S a) m)).
  2:{ apply map_ext. intros x. lia. }
  lia.
Qed.

Lemma pairwise_loop_length xs prob prob' :
  pairwise_loop xs (LpVariable_dicts xs) prob = Ok prob' ->
  2 * length (constraints prob')
  = 2 * length (constraints prob) + (length xs - 2) * (length xs - 1).
Proof.
  unfold pairwise_loop. intros Hloop.
  apply (foldM_length _ (fun x => length xs - 2 + 0 - x)) in Hloop.
  - rewrite Hloop. unfold range. rewrite Nat.sub_0_r.
    pose proof (sum_countdown (length xs - 2) 0) as Hsum.
    destruct (decide (length xs <= 1)) as [Hle|Hgt].
    + replace (length xs - 2) with 0 in * by lia. simpl. lia.
    + replace (length xs - 1) with (length xs - 2 + 1) by lia. lia.
  - intros a x a' Hx%elem_of_range.
    destruct (py_index (dict_keys xs) x) as [S|]; simpl; [|done].
    intros Hinner. apply (foldM_length _ (fun _ => 1)) in Hinner.
    + rewrite Hinner, sum_const. unfold range. rewrite length_seq. lia.
    + intros b y b' _.
      destruct (py_index (dict_keys xs) y) as [T|]; simpl; [|done].
      apply pair_constraints_length.
Qed.

Lemma bound_loop_length (l : dict Subset LpVariable) (p : LpProblem) :
  length (constraints
            (foldl (fun prob item =>
                      if decide (length item.1 = 1)
                      then add_constraint prob
                             {| lhs := term item.2; csense := LpConstraintLE; rhs := 1 |}
                      else prob) p l))
  = length (constraints p) + length (filter (fun k => length k = 1) (dict_keys l)).
Proof.
  revert p. induction l as [|[k v] l IH]; intros p; simpl; [lia|].
  rewrite IH. unfold dict_keys. simpl. rewrite filter_cons. simpl.
  destruct (decide (length k = 1)); simpl; [|done].
  rewrite length_app. simpl. rewrite <-Nat.add_assoc. f_equal.
Qed.

Lemma singleton_keys G :
  NoDup (nx.nodes G) ->
  filter (fun k => length k = 1) (dict_keys (subset_space G))
  ≡ₚ map (fun v => [v]) (nx.nodes G).
Proof.
  intros Hnd. apply NoDup_Permutation.
  - apply NoDup_filter. by apply keys_NoDup.
  - by apply NoDup_singletons.
  - intros k. rewrite list_elem_of_filter, elem_of_subset_space by done. split.
    + intros [Hlen Hsub]. destruct k as [|v [|? ?]]; try done.
      apply list_elem_of_fmap. exists v. split; [done|].
      apply (sublist_subseteq _ _ Hsub). left.
    + intros (v & -> & Hv)%list_elem_of_fmap. split; [done|].
      by apply singleton_sublist.
Qed.

Lemma entropy_start_length G :
  NoDup (nx.nodes G) ->
  length (constraints (entropy_start G)) = 1 + length (nx.nodes G).
Proof.
  intros Hnd. unfold entropy_start.
  rewrite bound_loop_length, dict_keys_LpVariable_dicts, singleton_keys by done.
  simpl. by rewrite length_map.
Qed.
End EntropySize.

(** X13: the size of the entropy model of a graph with [n] nodes: one
    constraint for the empty set, one per vertex for its singleton, one
    per vertex for its neighbourhood, and one for each of the
    [(2^n - 1)(2^n - 2)/2] pairs of subsets other than the full vertex
    set. *)
Theorem shannon_entropy_model_size (G : nx.Graph) prob lp_xs :
  NoDup (nx.nodes G) -> shannon_entropy_model G = Ok (prob, lp_xs) ->
  (2 * length (constraints prob)
   = 2 * (1 + 2 * length (nx.nodes G))
     + (2 ^ length (nx.nodes G) - 2) * (2 ^ length (nx.nodes G) - 1))%nat.
Proof.
  intros Hnd (-> & p & Hloop & Hpairs)%shannon_entropy_model_Ok; [|done].
  apply pairwise_loop_length in Hpairs.
  apply (foldM_length _ (fun _ => 1%nat)) in Hloop.
  2:{ intros a v a' _.
      destruct (neighbourhood_constraint _ _ v) as [c|]; simpl; [|done].
      intros [= <-]. simpl. by rewrite length_app. }
  rewrite sum_const, entropy_start_length in Hloop by done.
  rewrite <-length_dict_keys, length_keys in Hpairs by done.
  lia.
Qed.

Lemma shannon_entropy_model_size_witness :
  exists prob lp_xs,
    shannon_entropy_model k23 = Ok (prob, lp_xs) /\
    (2 * length (constraints prob)
     = 2 * (1 + 2 * length (nx.nodes k23))
       + (2 ^ length (nx.nodes k23) - 2) * (2 ^ length (nx.nodes k23) - 1))%nat.
Proof.
  destruct (shannon_entropy_model k23) as [[prob lp_xs]|] eqn:Hmodel;
    [|by vm_compute in Hmodel].
  exists prob, lp_xs. split; [done|].
  apply (shannon_entropy_model_size k23 prob lp_xs); [|done].
  apply (bool_decide_unpack _). by vm_compute.
Defined.

(** * The entropy model: nothing but the five kinds of constraint *)

Section ModelKinds.
Lemma foldl_invariant_elem {A B} (I : B -> Prop) (body : B -> A -> B) l acc :
  I acc -> (forall acc x, x ∈ l -> I acc -> I (body acc x)) -> I (foldl body acc l).
Proof.
  revert acc. induction l as [|x l IH]; simpl; intros acc Hacc Hstep; [done|].
  apply IH.
  - apply Hstep; [left|done].
  - intros a y Hy. apply Hstep. by right.
Qed.

Lemma singleton_key G k :
  NoDup (nx.nodes G) -> k ∈ dict_keys (subset_space G) -> length k = 1%nat ->
  exists v, k = [v] /\ v ∈ nx.nodes G.
Proof.
  intros Hnd Hk%elem_of_subset_space Hlen; [|done].
  destruct k as [|v [|??]]; try done. exists v. split; [done|].
  apply (sublist_subseteq _ _ Hk). left.
Qed.

Lemma entropy_start_kinds G :
  NoDup (nx.nodes G) ->
  Forall (entropy_constraint G) (constraints (entropy_start G)).
Proof.
  intros Hnd. unfold entropy_start.
  apply (foldl_invariant_elem
           (fun p => Forall (entropy_constraint G) (constraints p))).
  - simpl. constructor; [|constructor]. apply is_normalisation.
  - intros acc item Hin Hacc. destruct (decide _) as [Hlen|]; [|done].
    simpl. apply Forall_app. split; [done|]. constructor; [|constructor].
    unfold LpVariable_dicts in Hin.
    apply list_elem_of_fmap in Hin as ([k z] & -> & Hkz). simpl in *.
    destruct (singleton_key G k Hnd) as (v & -> & Hv); [|done|].
    + unfold dict_keys. apply list_elem_of_fmap. by exists (k, z).
    + by apply is_bound.
Qed.

Lemma pair_constraints_kinds G prob prob' x y S T :
  dict_keys (subset_space G) !! x = Some S ->
  dict_keys (subset_space G) !! y = Some T ->
  (x < y < length (dict_keys (subset_space G)) - 1)%nat ->
  Forall (entropy_constraint G) (constraints prob) ->
  pair_constraints (LpVariable_dicts (subset_space G)) prob S T = Ok prob' ->
  Forall (entropy_constraint G) (constraints prob').
Proof.
  intros HS HT Hxy Hp. unfold pair_constraints.
  destruct (decide (S ⊆ T)) as [Hsub|Hsub]; simpl.
  - destruct (dict_get T _) as [xT|] eqn:HxT; simpl; [|done].
    destruct (dict_get S _) as [xS|] eqn:HxS; simpl; [|done].
    destruct (decide (~ S ⊆ T)); [done|]. intros [= <-].
    apply dict_get_variable in HxT as ->. apply dict_get_variable in HxS as ->.
    simpl. apply Forall_app. split; [done|]. constructor; [|constructor].
    by apply (is_monotonicity G x y S T).
  - destruct (decide (~ S ⊆ T)); [|done].
    destruct (dict_get S _) as [xS|] eqn:HxS; simpl; [|done].
    destruct (dict_get T _) as [xT|] eqn:HxT; simpl; [|done].
    destruct (dict_get (py_sorted (remove_dups (S ++ T))) _) as [xU|] eqn:HxU;
      simpl; [|done].
    destruct (dict_get (py_sorted (filter _ S)) _) as [xI|] eqn:HxI; simpl; [|done].
    intros [= <-].
    apply dict_get_variable in HxS as ->. apply dict_get_variable in HxT as ->.
    apply dict_get_variable in HxU as ->. apply dict_get_variable in HxI as ->.
    simpl. apply Forall_app. split; [done|]. constructor; [|constructor].
    by apply (is_submodularity G x y S T).
Qed.

(** Every constraint of a model that was built is of one of the five
    kinds. *)
Lemma shannon_entropy_model_kinds G prob lp_xs :
  NoDup (nx.nodes G) -> shannon_entropy_model G = Ok (prob, lp_xs) ->
  Forall (entropy_constraint G) (constraints prob).
Proof.
  intros Hnd (-> & p & Hloop & Hpairs)%shannon_entropy_model_Ok; [|done].
  set (I := fun q : LpProblem => Forall (entropy_constraint G) (constraints q)).
  revert Hpairs. unfold pairwise_loop. apply (foldM_invariant I).
  - revert Hloop. apply (foldM_invariant I); [by apply entropy_start_kinds|].
    intros acc v acc' Hv Hacc.
    destruct (neighbourhood_constraint _ _ v) as [c|] eqn:Hc; simpl; [|done].
    apply neighbourhood_constraint_Ok in Hc as (-> & _). intros [= <-].
    simpl. apply Forall_app. split; [done|]. constructor; [|constructor].
    by apply is_closed_neighbourhood.
  - intros acc x acc' Hx%elem_of_range Hacc. unfold py_index.
    destruct (dict_keys (subset_space G) !! x) as [S|] eqn:HS; simpl; [|done].
    apply (foldM_invariant I); [done|].
    intros acc1 y acc1' Hy%elem_of_range Hacc1.
    destruct (dict_keys (subset_space G) !! y) as [T|] eqn:HT; simpl; [|done].
    apply (pair_constraints_kinds G acc1 acc1' x y S T); [done..| |done].
    rewrite length_dict_keys. lia.
Qed.
End ModelKinds.

(** * An optimum that is monotone at the full vertex set *)

Section Cap.
Local Open Scope Q_scope.

Lemma cap_cases (c : Q) (w : assignment) k :
  (w k <= c /\ cap c w k == w k) \/ (c < w k /\ cap c w k == c).
Proof.
  unfold cap. destruct (Qle_bool (w k) c) eqn:Hle.
  - left. split; [by apply Qle_bool_iff|done].
  - right. split; [|done]. apply Qnot_le_lt. intros Hc%Qle_bool_iff. congruence.
Qed.

Lemma cap_le (c : Q) (w : assignment) S T : w S <= w T -> cap c w S <= cap c w T.
Proof.
  intros Hle. destruct (cap_cases c w S) as [[? ?]|[? ?]],
    (cap_cases c w T) as [[? ?]|[? ?]]; lra.
Qed.

Lemma cap_full (w : assignment) V : cap (w V) w V == w V.
Proof. destruct (cap_cases (w V) w V) as [[? ?]|[? ?]]; lra. Qed.

Lemma cap_below (c : Q) (w : assignment) S : cap c w S <= c.
Proof. destruct (cap_cases c w S) as [[? ?]|[? ?]]; lra. Qed.

Context (G : nx.Graph) (prob : LpProblem) (lp_xs : dict Subset LpVariable)
        (w : assignment).
Hypothesis nodes_NoDup : NoDup (nx.nodes G).
Hypothesis built : shannon_entropy_model G = Ok (prob, lp_xs).
Hypothesis w_feasible : feasible prob lp_xs w.

Lemma key_before_last x S :
  dict_keys (subset_space G) !! x = Some S ->
  (x < length (dict_keys (subset_space G)) - 1)%nat ->
  S `sublist_of` nx.nodes G /\ S <> nx.nodes G.
Proof.
  intros HS Hx. split.
  - apply elem_of_subset_space; [done|]. by eapply list_elem_of_lookup_2.
  - intros ->.
    pose proof (last_key_subset_space G nodes_NoDup) as Hlast.
    rewrite last_lookup in Hlast.
    pose proof (NoDup_lookup _ _ _ _ (keys_NoDup G nodes_NoDup) HS Hlast).
    unfold Subset in *. lia.
Qed.

(** Cutting a feasible assignment down to its value at the full vertex
    set keeps every constraint of the model. *)
Lemma cap_holds c :
  entropy_constraint G c -> holds w c -> holds (cap (w (nx.nodes G)) w) c.
Proof.
  pose proof (feasible_nonneg G prob lp_xs w nodes_NoDup built w_feasible
                (nx.nodes G)) as HV.
  specialize (HV (reflexivity _)).
  set (cV := w (nx.nodes G)) in *.
  intros [|v Hv|v Hv|x y S T HS HT Hxy Hsub|x y S T HS HT Hxy Hsub].
  - intros H0%holds_normalisation. unfold holds. simpl. unfold inject_Z.
    destruct (cap_cases cV w []) as [[? ?]|[? ?]]; lra.
  - intros H1%holds_bound. unfold holds. simpl. unfold inject_Z.
    destruct (cap_cases cV w [v]) as [[? ?]|[? ?]]; lra.
  - intros Heq%holds_closed_neighbourhood. unfold holds. simpl. unfold inject_Z.
    destruct (cap_cases cV w (py_sorted (nx.neighbors G v ++ [v]))) as [[? ?]|[? ?]],
      (cap_cases cV w (py_sorted (nx.neighbors G v))) as [[? ?]|[? ?]]; lra.
  - intros Hle%holds_monotonicity. unfold holds. simpl. unfold inject_Z.
    pose proof (cap_le cV w S T Hle). lra.
  - intros Hsm%holds_submodularity.
    destruct (key_before_last x S HS) as [HSl HSn]; [lia|].
    destruct (key_before_last y T HT) as [HTl HTn]; [lia|].
    pose proof (built_model_sorted G prob lp_xs nodes_NoDup built) as Hsorted.
    set (K := py_sorted (filter (fun val => val ∈ T) S)) in *.
    assert (HK : forall z, z ∈ K <-> z ∈ S /\ z ∈ T).
    { intros z. unfold K. rewrite py_sorted_Permutation, list_elem_of_filter. tauto. }
    assert (HKl : K `sublist_of` nx.nodes G).
    { apply py_sorted_sublist; [done| |].
      - apply NoDup_filter. by eapply sublist_NoDup.
      - intros z [Hz _]%list_elem_of_filter. by apply (sublist_subseteq _ _ HTl). }
    assert (HKS : w K <= w S).
    { apply (feasible_monotone G prob lp_xs w nodes_NoDup built w_feasible);
        [done..| |done]. intros z Hz%HK. tauto. }
    assert (HKT : w K <= w T).
    { apply (feasible_monotone G prob lp_xs w nodes_NoDup built w_feasible);
        [done..| |done]. intros z Hz%HK. tauto. }
    unfold holds. simpl. unfold inject_Z. fold K.
    destruct (cap_cases cV w S) as [[? ?]|[? ?]],
      (cap_cases cV w T) as [[? ?]|[? ?]],
      (cap_cases cV w (py_sorted (remove_dups (S ++ T)))) as [[? ?]|[? ?]],
      (cap_cases cV w K) as [[? ?]|[? ?]]; lra.
Qed.

Lemma cap_feasible : feasible prob lp_xs (cap (w (nx.nodes G)) w).
Proof.
  pose proof (shannon_entropy_model_kinds G prob lp_xs nodes_NoDup built) as Hk.
  destruct w_feasible as [Hc Hb]. split.
  - rewrite Forall_forall in Hk, Hc. apply Forall_forall. intros c Hin.
    apply cap_holds; [by apply Hk|by apply Hc].
  - destruct (shannon_entropy_model_start G prob lp_xs nodes_NoDup built) as [-> _].
    rewrite in_bounds_variables in Hb. apply in_bounds_variables. intros k Hk'.
    pose proof (Hb k Hk') as H0.
    pose proof (Hb (nx.nodes G) (full_key_subset_space G nodes_NoDup)) as HV.
    destruct (cap_cases (w (nx.nodes G)) w k) as [[? ?]|[? ?]]; lra.
Qed.

Lemma cap_monotone S T :
  S `sublist_of` nx.nodes G -> T `sublist_of` nx.nodes G -> S ⊆ T ->
  cap (w (nx.nodes G)) w S <= cap (w (nx.nodes G)) w T.
Proof.
  intros HS HT Hsub. destruct (decide (T = nx.nodes G)) as [->|HT'].
  - rewrite cap_full. apply cap_below.
  - apply cap_le.
    by apply (feasible_monotone G prob lp_xs w nodes_NoDup built w_feasible).
Qed.

Lemma cap_objective :
  eval (cap (w (nx.nodes G)) w) (objective prob) == eval w (objective prob).
Proof.
  destruct (shannon_entropy_model_start G prob lp_xs nodes_NoDup built)
    as (_ & _ & -> & _).
  destruct (entropy_start_eq G) as (_ & -> & _). simpl.
  rewrite cap_full. done.
Qed.
End Cap.

(** Whenever the entropy model has an optimal solution it has one that is
    monotone throughout, the full vertex set included: the optimal
    solution cut down to its value at the full vertex set. *)
Lemma shannon_entropy_monotone_optimum (G : nx.Graph) prob lp_xs (w : assignment) :
  NoDup (nx.nodes G) -> shannon_entropy_model G = Ok (prob, lp_xs) ->
  optimal prob lp_xs w ->
  optimal prob lp_xs (cap (w (nx.nodes G)) w) /\
  forall S T, S `sublist_of` nx.nodes G -> T `sublist_of` nx.nodes G -> S ⊆ T ->
    (cap (w (nx.nodes G)) w S <= cap (w (nx.nodes G)) w T)%Q.
Proof.
  intros Hnd Hbuilt [Hf Hopt]. split; [split|].
  - by apply (cap_feasible G prob lp_xs w).
  - intros w' Hw'. specialize (Hopt w' Hw').
    pose proof (cap_objective G prob lp_xs w Hnd Hbuilt) as Ho.
    destruct (sense prob); by rewrite Ho.
  - intros S T. by apply (cap_monotone G prob lp_xs w).
Qed.

(** On [k23] both kinds of optimal solution exist: [k23_weights], which
    gives [(2, 3, 4)] more than the full vertex set, and [k23_weights] cut
    down to 2, which is monotone throughout. *)
Lemma k23_monotone_optimum :
  exists prob lp_xs,
    shannon_entropy_model k23 = Ok (prob, lp_xs) /\
    optimal prob lp_xs k23_weights /\
    optimal prob lp_xs (cap 2 k23_weights) /\
    Qlt (k23_weights [0; 1; 2; 3; 4]) (k23_weights [2; 3; 4]) /\
    forall S T, S `sublist_of` [0; 1; 2; 3; 4] -> T `sublist_of` [0; 1; 2; 3; 4] ->
      S ⊆ T -> Qle (cap 2 k23_weights S) (cap 2 k23_weights T).
Proof.
  destruct shannon_entropy_optimum_not_monotone
    as (prob & lp_xs & Hbuilt & Hopt & _ & Hlt).
  assert (Hnd : NoDup (nx.nodes k23)).
  { apply (bool_decide_unpack _). by vm_compute. }
  destruct (shannon_entropy_monotone_optimum k23 prob lp_xs k23_weights
              Hnd Hbuilt Hopt) as [Hopt' Hmono].
  exists prob, lp_xs. split_and!; [done..|].
  intros S T. apply Hmono.
Qed.
